(** * ds-task-queue: the broker's job state machine

    A shallow embedding of the final revision of the broker (package
    [main]: the HTTP handlers [/enqueue], [/poll], [/ack], [/fail], the
    lease sweeper [expireLeases] and [retryDelaySeconds]) and the proofs
    of its specification.

    Conventions of the embedding.
    - [int64] and [int] values are integers of [Z]; every arithmetic
      operation of the source that can leave the 64-bit range is written
      with its wrap-around ([Int64.add], [Int64.shl]).
    - [map[string]*Job] is a [gmap string Job]; every job is allocated once
      by [/enqueue] and reached only through its map entry, so updating a
      job through its pointer is an insert at its key.
    - The order in which [range jobs] visits the entries is not fixed by
      the language: the loops take it as an argument [order].
    - [time.Now().Unix()], the value drawn by [rand.Int63n] and the
      identifier returned by [uuid.NewString()] are arguments of the
      handler that reads them.
    - A handler returns what it wrote to the [http.ResponseWriter]
      together with the new store; calls on the condition variable
      [jobCond] are returned as a list of [CondOp]. Logging is left out. *)

From Stdlib Require Import ZArith Lia.
From stdpp Require Import base decidable option list gmap strings fin_maps.

Local Open Scope string_scope.
Local Open Scope Z_scope.

(** ** 64-bit signed integers *)

Module Int64.

Definition min_int : Z := - 2 ^ 63.
Definition max_int : Z := 2 ^ 63 - 1.

(** The value of an [int64] computation whose exact result is [z]. *)
Definition wrap (z : Z) : Z := (z + 2 ^ 63) mod 2 ^ 64 - 2 ^ 63.

Definition add (x y : Z) : Z := wrap (x + y).

(** [x << s] for a shift count [0 <= s]: the bits shifted out of the
    64-bit word are lost. *)
Definition shl (x s : Z) : Z := wrap (Z.shiftl x s).

Definition in_range (z : Z) : Prop := min_int <= z <= max_int.

End Int64.

(** ** Data model *)

Inductive JobState := StateQueued | StateLeased | StateDone | StateDead.

#[global] Instance JobState_eq_dec : EqDecision JobState.
Proof. solve_decision. Defined.

Record Job := mkJob {
  ID : string;
  Payload : string;
  State : JobState;
  LeaseOwner : string;
  LeaseExpiresAt : Z;
  LeaseID : Z;
  Attempts : Z;
  MaxTries : Z;
  NextAvailableAt : Z
}.

Record PollRequest := mkPollRequest { poll_WorkerID : string }.

Record EnqueueRequest := mkEnqueueRequest { enq_Payload : string }.

Record AckRequest := mkAckRequest {
  ack_WorkerID : string;
  ack_JobID : string;
  ack_LeaseID : Z
}.

Record FailRequest := mkFailRequest {
  fail_WorkerID : string;
  fail_JobID : string;
  fail_LeaseID : Z
}.

(** The two shared maps, [jobs] and [idem]. *)
Record Broker := mkBroker {
  jobs : gmap string Job;
  idem : gmap string string
}.

Definition MethodPost : string := "POST".
Definition PENDING : string := "PENDING".

Inductive Status :=
  | StatusOK
  | StatusNoContent
  | StatusBadRequest
  | StatusNotFound
  | StatusMethodNotAllowed
  | StatusConflict.

(** What a handler leaves on the wire, or how it ends otherwise. *)
Inductive Response :=
  | Reply (code : Status)        (* [w.WriteHeader(code)], empty body *)
  | ReplyJobID (id : string)     (* 200 with [{"job_id": id}] *)
  | ReplyJob (job : Job)         (* 200 with the job record *)
  | Waiting                      (* blocked in [jobCond.Wait()] *)
  | Panicked.                    (* a run-time panic unwound the handler *)

Inductive CondOp := Signal | Broadcast.

(** ** Retry delay *)

(** [rand.Int63n(n)]: panics unless [0 < n]; otherwise reduces the 63-bit
    value [draw] it keeps from the generator modulo [n]. *)
Definition Int63n (draw n : Z) : option Z :=
  if n <=? 0 then None else Some (draw mod n).

Definition base : Z := 5.
Definition capDelay : Z := 30.

Definition retryDelaySeconds (draw attempts : Z) : option Z :=
  let attempts := if attempts <? 1 then 1 else attempts in
  let delay := Int64.shl base (attempts - 1) in
  let delay := if capDelay <? delay then capDelay else delay in
  Int63n draw (Int64.add delay 1).

(** ** Lease sweeper *)

Definition leaseExpired (now : Z) (job : Job) : bool :=
  bool_decide (State job = StateLeased)
  && (0 <? LeaseExpiresAt job) && (LeaseExpiresAt job <=? now).

Definition requeueExpired (job : Job) : Job :=
  {| ID := ID job; Payload := Payload job;
     State := StateQueued;
     LeaseOwner := "";
     LeaseExpiresAt := 0;
     LeaseID := LeaseID job;
     Attempts := Attempts job; MaxTries := MaxTries job;
     NextAvailableAt := 0 |}.

(** The loop [for id, job := range jobs] of [expireLeases], visiting the
    keys in [order] and appending to [expiredIDs]. *)
Fixpoint expireLoop (now : Z) (order : list string)
    (jobs : gmap string Job) (expiredIDs : list string)
    : list string * gmap string Job :=
  match order with
  | [] => (expiredIDs, jobs)
  | id :: order =>
      match jobs !! id with
      | Some job =>
          if leaseExpired now job
          then expireLoop now order (<[id := requeueExpired job]> jobs)
                          (expiredIDs ++ [id])
          else expireLoop now order jobs expiredIDs
      | None => expireLoop now order jobs expiredIDs
      end
  end.

Definition expireLeases (now : Z) (order : list string)
    (jobs : gmap string Job) : list string * gmap string Job :=
  expireLoop now order jobs [].

(** One tick of the sweeper goroutine: [expireLeases(time.Now().Unix())],
    whose result is dropped. No operation on [jobCond] follows. *)
Definition sweeperTick (now : Z) (order : list string)
    (jobs : gmap string Job) : list CondOp * gmap string Job :=
  let '(_, jobs) := expireLeases now order jobs in
  ([], jobs).

(** ** /poll *)

Definition eligible (now : Z) (job : Job) : bool :=
  bool_decide (State job = StateQueued)
  && ((NextAvailableAt job =? 0) || (NextAvailableAt job <=? now)).

Definition lease (worker : string) (now : Z) (job : Job) : Job :=
  {| ID := ID job; Payload := Payload job;
     State := StateLeased;
     LeaseOwner := worker;
     LeaseExpiresAt := Int64.add now 30;
     LeaseID := Int64.add (LeaseID job) 1;
     Attempts := Attempts job; MaxTries := MaxTries job;
     NextAvailableAt := NextAvailableAt job |}.

(** The inner loop [for _, job := range jobs]: the first eligible job met
    is leased and returned. *)
Fixpoint pollScan (worker : string) (now : Z) (order : list string)
    (jobs : gmap string Job) : option (Job * gmap string Job) :=
  match order with
  | [] => None
  | id :: order =>
      match jobs !! id with
      | Some job =>
          if eligible now job
          then Some (lease worker now job, <[id := lease worker now job]> jobs)
          else pollScan worker now order jobs
      | None => pollScan worker now order jobs
      end
  end.

(** One pass of the outer [for] of the handler, at second [now].
    [timedOut] is [time.Until(deadline) <= 0]. A poll that is woken up
    runs the pass again on the store it then finds. *)
Definition poll (method : string) (body : option PollRequest) (now : Z)
    (order : list string) (timedOut : bool) (jobs : gmap string Job)
    : Response * gmap string Job :=
  if decide (method ≠ MethodPost) then (Reply StatusMethodNotAllowed, jobs)
  else match body with
  | None => (Reply StatusBadRequest, jobs)
  | Some req =>
      if decide (poll_WorkerID req = "") then (Reply StatusBadRequest, jobs)
      else match pollScan (poll_WorkerID req) now order jobs with
      | Some (job, jobs) => (ReplyJob job, jobs)
      | None =>
          if timedOut then (Reply StatusNoContent, jobs) else (Waiting, jobs)
      end
  end.

(** ** /ack *)

Definition markDone (job : Job) : Job :=
  {| ID := ID job; Payload := Payload job;
     State := StateDone;
     LeaseOwner := "";
     LeaseExpiresAt := 0;
     LeaseID := LeaseID job;
     Attempts := Attempts job; MaxTries := MaxTries job;
     NextAvailableAt := NextAvailableAt job |}.

Definition ack (method : string) (body : option AckRequest) (now : Z)
    (jobs : gmap string Job) : Response * gmap string Job :=
  if decide (method ≠ MethodPost) then (Reply StatusMethodNotAllowed, jobs)
  else match body with
  | None => (Reply StatusBadRequest, jobs)
  | Some req =>
      if decide (ack_WorkerID req = "" ∨ ack_JobID req = "")
      then (Reply StatusBadRequest, jobs)
      else match jobs !! ack_JobID req with
      | None => (Reply StatusNotFound, jobs)
      | Some job =>
          if decide (State job = StateDone) then (Reply StatusOK, jobs)
          else if decide (State job ≠ StateLeased
                          ∨ LeaseOwner job ≠ ack_WorkerID req)
          then (Reply StatusConflict, jobs)
          else if decide (ack_LeaseID req ≠ LeaseID job)
          then (Reply StatusConflict, jobs)
          else if decide (LeaseExpiresAt job <= now)
          then (Reply StatusConflict, jobs)
          else (Reply StatusOK, <[ack_JobID req := markDone job]> jobs)
      end
  end.

(** ** /fail *)

Definition recordFailure (job : Job) : Job :=
  {| ID := ID job; Payload := Payload job;
     State := State job;
     LeaseOwner := LeaseOwner job;
     LeaseExpiresAt := LeaseExpiresAt job;
     LeaseID := LeaseID job;
     Attempts := Int64.add (Attempts job) 1; MaxTries := MaxTries job;
     NextAvailableAt := NextAvailableAt job |}.

Definition markDead (job : Job) : Job :=
  {| ID := ID job; Payload := Payload job;
     State := StateDead;
     LeaseOwner := "";
     LeaseExpiresAt := 0;
     LeaseID := LeaseID job;
     Attempts := Attempts job; MaxTries := MaxTries job;
     NextAvailableAt := 0 |}.

Definition scheduleRetry (availableAt : Z) (job : Job) : Job :=
  {| ID := ID job; Payload := Payload job;
     State := StateQueued;
     LeaseOwner := "";
     LeaseExpiresAt := 0;
     LeaseID := LeaseID job;
     Attempts := Attempts job; MaxTries := MaxTries job;
     NextAvailableAt := availableAt |}.

(** When [retryDelaySeconds] panics the handler unwinds after
    [job.Attempts++]: the increment stays, the deferred unlock runs and no
    reply is written. *)
Definition fail (method : string) (body : option FailRequest) (now draw : Z)
    (jobs : gmap string Job) : Response * gmap string Job :=
  if decide (method ≠ MethodPost) then (Reply StatusMethodNotAllowed, jobs)
  else match body with
  | None => (Reply StatusBadRequest, jobs)
  | Some req =>
      if decide (fail_WorkerID req = "" ∨ fail_JobID req = "")
      then (Reply StatusBadRequest, jobs)
      else match jobs !! fail_JobID req with
      | None => (Reply StatusNotFound, jobs)
      | Some job =>
          if decide (State job = StateDone) then (Reply StatusOK, jobs)
          else if decide (State job ≠ StateLeased
                          ∨ LeaseOwner job ≠ fail_WorkerID req)
          then (Reply StatusConflict, jobs)
          else if decide (fail_LeaseID req ≠ LeaseID job)
          then (Reply StatusConflict, jobs)
          else if decide (LeaseExpiresAt job <= now)
          then (Reply StatusConflict, jobs)
          else
            let job := recordFailure job in
            if decide (MaxTries job <= Attempts job)
            then (Reply StatusOK, <[fail_JobID req := markDead job]> jobs)
            else match retryDelaySeconds draw (Attempts job) with
            | None => (Panicked, <[fail_JobID req := job]> jobs)
            | Some delay =>
                (Reply StatusOK,
                 <[fail_JobID req :=
                     scheduleRetry (Int64.add now delay) job]> jobs)
            end
      end
  end.

(** ** /enqueue *)

(** The request body as [json.Decoder.Decode] reads it into an
    [EnqueueRequest]: either it is rejected (not JSON, or a [payload] that
    is not a string), or it is an object whose [payload] member is present
    or not. *)
Inductive Body :=
  | BodyInvalid
  | BodyObject (payload : option string).

(** A member that is absent leaves the field at its zero value. *)
Definition decodeEnqueueRequest (body : Body) : option EnqueueRequest :=
  match body with
  | BodyInvalid => None
  | BodyObject None => Some {| enq_Payload := "" |}
  | BodyObject (Some payload) => Some {| enq_Payload := payload |}
  end.

(** The idempotency check under [idemMu]: answer a known key at once, or
    mark the key [PENDING]. [None] lets the request go on. *)
Definition enqueueBegin (idemKey : string) (idem : gmap string string)
    : option Response * gmap string string :=
  if decide (idemKey = "") then (None, idem)
  else match idem !! idemKey with
  | Some existingID =>
      if decide (existingID ≠ PENDING)
      then (Some (ReplyJobID existingID), idem)
      else (Some (Reply StatusConflict), idem)
  | None => (None, <[idemKey := PENDING]> idem)
  end.

(** The clean-up after a body that does not decode. *)
Definition enqueueRelease (idemKey : string) (idem : gmap string string)
    : gmap string string :=
  if decide (idemKey = "") then idem
  else match idem !! idemKey with
  | Some existing =>
      if decide (existing = PENDING) then delete idemKey idem else idem
  | None => idem
  end.

Definition newJob (id payload : string) : Job :=
  {| ID := id; Payload := payload;
     State := StateQueued;
     LeaseOwner := "";
     LeaseExpiresAt := 0;
     LeaseID := 0;
     Attempts := 0; MaxTries := 3;
     NextAvailableAt := 0 |}.

Definition enqueueCommit (idemKey id : string) (idem : gmap string string)
    : gmap string string :=
  if decide (idemKey = "") then idem else <[idemKey := id]> idem.

(** The handler run from its first line to its last with no other request
    in between. [id] is the result of [uuid.NewString()]. *)
Definition enqueue (method idemKey : string) (body : Body) (id : string)
    (b : Broker) : Response * list CondOp * Broker :=
  if decide (method ≠ MethodPost) then (Reply StatusMethodNotAllowed, [], b)
  else match enqueueBegin idemKey (idem b) with
  | (Some reply, _) => (reply, [], b)
  | (None, idem1) =>
      match decodeEnqueueRequest body with
      | None =>
          (Reply StatusBadRequest, [],
           {| jobs := jobs b; idem := enqueueRelease idemKey idem1 |})
      | Some req =>
          (ReplyJobID id, [Signal],
           {| jobs := <[id := newJob id (enq_Payload req)]> (jobs b);
              idem := enqueueCommit idemKey id idem1 |})
      end
  end.

(** ** The broker as a transition system

    [/poll], [/ack], [/fail] and the sweeper work on the store inside one
    critical section of [jobsMu]: each is one transition. [/enqueue] gives
    up [idemMu] between its key check and the rest, so other requests can run
    in between: it is three transitions, and a request in the middle of
    it is remembered by goroutine in [enqueuing]. The system allows every
    interleaving of these transitions (also those that [jobsMu], held from
    the insertion to the end of [/enqueue], rules out). *)

Inductive EnqueuePC :=
  | Reserved (idemKey : string)
  | Inserted (idemKey id : string).

Record System := mkSystem {
  broker : Broker;
  enqueuing : gmap nat EnqueuePC
}.

Definition init : System :=
  {| broker := {| jobs := ∅; idem := ∅ |}; enqueuing := ∅ |}.

Inductive Event :=
  | EnqueueBegin (g : nat) (method idemKey : string)
  | EnqueueDecode (g : nat) (body : Body) (id : string)
  | EnqueueCommit (g : nat)
  | Poll (method : string) (body : option PollRequest) (now : Z)
         (order : list string) (timedOut : bool)
  | Ack (method : string) (body : option AckRequest) (now : Z)
  | Fail (method : string) (body : option FailRequest) (now draw : Z)
  | Sweep (now : Z) (order : list string)
  | PollTimer.

Record Output := mkOutput {
  reply : option Response;
  cond : list CondOp
}.

(** [uuid.NewString()] returns the 36-character form of an identifier that
    no earlier call returned. *)
Definition freshUUID (id : string) (jobs : gmap string Job) : Prop :=
  String.length id = 36%nat ∧ jobs !! id = None.

#[global] Instance freshUUID_dec id jobs : Decision (freshUUID id jobs).
Proof. unfold freshUUID. apply _. Defined.

Definition withJobs (sys : System) (jobs : gmap string Job) : System :=
  {| broker := {| jobs := jobs; idem := idem (broker sys) |};
     enqueuing := enqueuing sys |}.

(** [None]: the event cannot happen in this state. *)
Definition step (sys : System) (ev : Event) : option (Output * System) :=
  match ev with
  | EnqueueBegin g method idemKey =>
      match enqueuing sys !! g with
      | Some _ => None
      | None =>
          if decide (method ≠ MethodPost)
          then Some (mkOutput (Some (Reply StatusMethodNotAllowed)) [], sys)
          else match enqueueBegin idemKey (idem (broker sys)) with
          | (Some r, _) => Some (mkOutput (Some r) [], sys)
          | (None, idem1) =>
              Some (mkOutput None [],
                    {| broker := {| jobs := jobs (broker sys); idem := idem1 |};
                       enqueuing := <[g := Reserved idemKey]> (enqueuing sys) |})
          end
      end
  | EnqueueDecode g body id =>
      match enqueuing sys !! g with
      | Some (Reserved idemKey) =>
          match decodeEnqueueRequest body with
          | None =>
              Some (mkOutput (Some (Reply StatusBadRequest)) [],
                    {| broker :=
                         {| jobs := jobs (broker sys);
                            idem := enqueueRelease idemKey (idem (broker sys)) |};
                       enqueuing := delete g (enqueuing sys) |})
          | Some req =>
              if decide (freshUUID id (jobs (broker sys)))
              then Some (mkOutput None [Signal],
                    {| broker :=
                         {| jobs := <[id := newJob id (enq_Payload req)]>
                                      (jobs (broker sys));
                            idem := idem (broker sys) |};
                       enqueuing := <[g := Inserted idemKey id]> (enqueuing sys) |})
              else None
          end
      | _ => None
      end
  | EnqueueCommit g =>
      match enqueuing sys !! g with
      | Some (Inserted idemKey id) =>
          Some (mkOutput (Some (ReplyJobID id)) [],
                {| broker :=
                     {| jobs := jobs (broker sys);
                        idem := enqueueCommit idemKey id (idem (broker sys)) |};
                   enqueuing := delete g (enqueuing sys) |})
      | _ => None
      end
  | Poll method body now order timedOut =>
      let '(r, jobs) := poll method body now order timedOut (jobs (broker sys)) in
      Some (mkOutput (Some r) [], withJobs sys jobs)
  | Ack method body now =>
      let '(r, jobs) := ack method body now (jobs (broker sys)) in
      Some (mkOutput (Some r) [], withJobs sys jobs)
  | Fail method body now draw =>
      let '(r, jobs) := fail method body now draw (jobs (broker sys)) in
      Some (mkOutput (Some r) [], withJobs sys jobs)
  | Sweep now order =>
      let '(ops, jobs) := sweeperTick now order (jobs (broker sys)) in
      Some (mkOutput None ops, withJobs sys jobs)
  | PollTimer => Some (mkOutput None [Signal], sys)
  end.

Fixpoint exec (sys : System) (evs : list Event)
    : option (list Output * System) :=
  match evs with
  | [] => Some ([], sys)
  | ev :: evs =>
      match step sys ev with
      | Some (out, sys) =>
          match exec sys evs with
          | Some (outs, sys) => Some (out :: outs, sys)
          | None => None
          end
      | None => None
      end
  end.

Definition reachable (sys : System) : Prop :=
  ∃ evs outs, exec init evs = Some (outs, sys).

(** The jobs a run stores, each with the idempotency key of the request
    that stored it. *)
Definition created (sys : System) (ev : Event) : option (string * string) :=
  match ev with
  | EnqueueDecode g body id =>
      match enqueuing sys !! g, decodeEnqueueRequest body with
      | Some (Reserved idemKey), Some _ => Some (idemKey, id)
      | _, _ => None
      end
  | _ => None
  end.

Fixpoint creations (sys : System) (evs : list Event) : list (string * string) :=
  match evs with
  | [] => []
  | ev :: evs =>
      match step sys ev with
      | Some (_, sys') => option_list (created sys ev) ++ creations sys' evs
      | None => []
      end
  end.

(** The fencing token a reply hands out for job [id], if it is a lease of
    that job. *)
Definition leasedTo (id : string) (out : Output) : option Z :=
  match reply out with
  | Some (ReplyJob job) => if decide (ID job = id) then Some (LeaseID job) else None
  | _ => None
  end.

Definition leasesOf (id : string) (outs : list Output) : list Z :=
  omap (leasedTo id) outs.

(** * Vocabulary of the specification *)

(** The window the retry delay is to be drawn from, as the specification
    words it: [min(5 * 2^(attempts-1), 30)], attempts clamped to at least
    1. *)
Definition window (attempts : Z) : Z :=
  Z.min (base * 2 ^ (Z.max attempts 1 - 1)) capDelay.

(** ** The life of one job

    [JobStep id job ev out job']: the transition [ev], with output [out],
    takes the job stored under [id] from [job] to [job']. *)

Inductive JobStep (id : string) (job : Job) : Event → Output → Job → Prop :=
  | JobLeased method worker now order timedOut :
      eligible now job = true →
      JobStep id job
        (Poll method (Some (mkPollRequest worker)) now order timedOut)
        (mkOutput (Some (ReplyJob (lease worker now job))) [])
        (lease worker now job)
  | JobAcked method req now :
      ack_JobID req = id → State job = StateLeased →
      JobStep id job (Ack method (Some req) now)
        (mkOutput (Some (Reply StatusOK)) []) (markDone job)
  | JobDied method req now draw :
      fail_JobID req = id → State job = StateLeased →
      MaxTries job <= Attempts (recordFailure job) →
      JobStep id job (Fail method (Some req) now draw)
        (mkOutput (Some (Reply StatusOK)) []) (markDead (recordFailure job))
  | JobRetried method req now draw delay :
      fail_JobID req = id → State job = StateLeased →
      Attempts (recordFailure job) < MaxTries job →
      retryDelaySeconds draw (Attempts (recordFailure job)) = Some delay →
      JobStep id job (Fail method (Some req) now draw)
        (mkOutput (Some (Reply StatusOK)) [])
        (scheduleRetry (Int64.add now delay) (recordFailure job))
  | JobFailPanicked method req now draw :
      fail_JobID req = id → State job = StateLeased →
      Attempts (recordFailure job) < MaxTries job →
      retryDelaySeconds draw (Attempts (recordFailure job)) = None →
      JobStep id job (Fail method (Some req) now draw)
        (mkOutput (Some Panicked) []) (recordFailure job)
  | JobExpired now order :
      leaseExpired now job = true →
      JobStep id job (Sweep now order) (mkOutput None []) (requeueExpired job)
  | JobUntouched ev out :
      leasedTo id out = None → JobStep id job ev out job.

(** Every job carries the key it is stored under. *)
Definition keyedByID (jobs : gmap string Job) : Prop :=
  ∀ id job, jobs !! id = Some job → ID job = id.

(** ** Invariants *)

(** Of every job in the store. *)
Record JobOK (id : string) (job : Job) : Prop := {
  job_keyed : ID job = id;
  job_max_tries : MaxTries job = 3;
  job_attempts : 0 <= Attempts job <= MaxTries job;
  job_dead : State job = StateDead ↔ Attempts job = MaxTries job
}.

Definition pcKey (pc : EnqueuePC) : string :=
  match pc with Reserved idemKey | Inserted idemKey _ => idemKey end.

(** Of the registry and the requests inside [/enqueue]. *)
Record SysOK (sys : System) : Prop := {
  sys_jobs : ∀ id job, jobs (broker sys) !! id = Some job → JobOK id job;
  (* a request past the key check holds its key as PENDING *)
  sys_pending : ∀ g pc,
    enqueuing sys !! g = Some pc → pcKey pc ≠ "" →
    idem (broker sys) !! pcKey pc = Some PENDING;
  (* and is the only one with that key *)
  sys_one_request : ∀ g g' pc pc',
    enqueuing sys !! g = Some pc → enqueuing sys !! g' = Some pc' →
    pcKey pc = pcKey pc' → pcKey pc ≠ "" → g = g';
  sys_inserted : ∀ g idemKey id,
    enqueuing sys !! g = Some (Inserted idemKey id) →
    String.length id = 36%nat ∧ is_Some (jobs (broker sys) !! id);
  sys_committed : ∀ idemKey id,
    idem (broker sys) !! idemKey = Some id → id ≠ PENDING →
    String.length id = 36%nat ∧ is_Some (jobs (broker sys) !! id)
}.

(** The transitions of [/poll], [/ack], [/fail] and the sweeper leave the
    registry and the requests in flight alone. *)
Definition jobEvent (ev : Event) : Prop :=
  match ev with
  | EnqueueBegin _ _ _ | EnqueueDecode _ _ _ | EnqueueCommit _ => False
  | _ => True
  end.

(** The lease id of job [id] as the store has it; 0 while the job does not
    exist. *)
Definition currentLease (sys : System) (id : string) : Z :=
  match jobs (broker sys) !! id with
  | Some job => LeaseID job
  | None => 0
  end.

Definition isPoll (ev : Event) : Prop :=
  match ev with Poll _ _ _ _ _ => True | _ => False end.

(** The jobs of a creation log that were stored for the key. *)
Definition createdFor (idemKey : string) (log : list (string * string))
    : list (string * string) :=
  filter (λ c, c.1 = idemKey) log.

(** How the jobs created so far relate to the registry and to the requests
    in flight. *)
Record LogOK (sys : System) (log : list (string * string)) : Prop := {
  log_entry : ∀ idemKey id,
    (idemKey, id) ∈ log → idemKey ≠ "" →
    String.length id = 36%nat
    ∧ (idem (broker sys) !! idemKey = Some id
       ∨ ∃ g, enqueuing sys !! g = Some (Inserted idemKey id));
  log_once : ∀ idemKey,
    idemKey ≠ "" → (length (createdFor idemKey log) <= 1)%nat;
  log_committed : ∀ idemKey id,
    idem (broker sys) !! idemKey = Some id → id ≠ PENDING →
    (idemKey, id) ∈ log;
  log_inserted : ∀ g idemKey id,
    enqueuing sys !! g = Some (Inserted idemKey id) → (idemKey, id) ∈ log
}.

(** ** Concrete data and runs *)

Definition uuid1 : string := "3f2b8c1e-0d4a-4c6b-9e1f-5a7d2c9b0e11".

(** A job leased to worker [w1] until second 130. *)
Definition staleLease : Job :=
  {| ID := "j"; Payload := "x"; State := StateLeased;
     LeaseOwner := "w1"; LeaseExpiresAt := 130; LeaseID := 1;
     Attempts := 0; MaxTries := 3; NextAvailableAt := 0 |}.

Definition doneJob : Job :=
  {| ID := "j"; Payload := "x"; State := StateDone;
     LeaseOwner := ""; LeaseExpiresAt := 0; LeaseID := 1;
     Attempts := 0; MaxTries := 3; NextAvailableAt := 0 |}.

(** A job on its third lease, after two failures. *)
Definition lastTry : Job :=
  {| ID := "j"; Payload := "x"; State := StateLeased;
     LeaseOwner := "w1"; LeaseExpiresAt := 130; LeaseID := 3;
     Attempts := 2; MaxTries := 3; NextAvailableAt := 0 |}.

(** The state and the outputs at the end of a run from the empty broker. *)
Definition finalState (evs : list Event) : System :=
  match exec init evs with Some (_, sys) => sys | None => init end.

Definition outputs (evs : list Event) : list Output :=
  match exec init evs with Some (outs, _) => outs | None => [] end.

(** Two requests with key ["K"], one after the other (scenario S4). *)
Definition enqueueK : list Event :=
  [EnqueueBegin 0 MethodPost "K";
   EnqueueDecode 0 (BodyObject (Some "a")) uuid1].

(** Scenario S3: three leases, three failures, then DEAD. *)
Definition failThrice : list Event :=
  [EnqueueBegin 0 MethodPost ""; EnqueueDecode 0 (BodyObject (Some "p")) uuid1;
   EnqueueCommit 0;
   Poll MethodPost (Some (mkPollRequest "w1")) 100 [uuid1] false;
   Fail MethodPost (Some (mkFailRequest "w1" uuid1 1)) 101 0;
   Poll MethodPost (Some (mkPollRequest "w1")) 102 [uuid1] false;
   Fail MethodPost (Some (mkFailRequest "w1" uuid1 2)) 103 0;
   Poll MethodPost (Some (mkPollRequest "w1")) 104 [uuid1] false].

Definition thirdFail : Event :=
  Fail MethodPost (Some (mkFailRequest "w1" uuid1 3)) 105 0.

(** Worker [w2] polls while the only job is leased to [w1] and blocks; the
    lease ends at second 130 and the sweeper runs at second 135. *)
Definition blockedPoll : list Event :=
  [EnqueueBegin 0 MethodPost ""; EnqueueDecode 0 (BodyObject (Some "x")) uuid1;
   EnqueueCommit 0;
   Poll MethodPost (Some (mkPollRequest "w1")) 100 [uuid1] false;
   Poll MethodPost (Some (mkPollRequest "w2")) 101 [uuid1] false;
   Sweep 135 [uuid1]].

(** Scenario S2: a lease that expires and is swept, then a second lease. *)
Definition leaseTwice : list Event :=
  [EnqueueBegin 0 MethodPost ""; EnqueueDecode 0 (BodyObject (Some "x")) uuid1;
   EnqueueCommit 0;
   Poll MethodPost (Some (mkPollRequest "w1")) 100 [uuid1] false;
   Sweep 135 [uuid1];
   Poll MethodPost (Some (mkPollRequest "w2")) 136 [uuid1] false].

(** * The inspection endpoints *)

Definition MethodGet : string := "GET".

(** What [/jobs] and [/dead] write: a refusal, or 200 with a JSON object
    that maps job ids to job records. *)
Inductive Listing :=
  | ListingRefused (code : Status)
  | ListingJobs (listed : gmap string Job).

(** [/jobs]: the whole store. *)
Definition listJobs (method : string) (jobs : gmap string Job) : Listing :=
  if decide (method ≠ MethodGet) then ListingRefused StatusMethodNotAllowed
  else ListingJobs jobs.

(** The loop [for id, job := range jobs] of [/dead], filling [dead]. *)
Fixpoint deadLoop (order : list string) (jobs dead : gmap string Job)
    : gmap string Job :=
  match order with
  | [] => dead
  | id :: order =>
      match jobs !! id with
      | Some job =>
          if decide (State job = StateDead)
          then deadLoop order jobs (<[id := job]> dead)
          else deadLoop order jobs dead
      | None => deadLoop order jobs dead
      end
  end.

Definition listDead (method : string) (order : list string)
    (jobs : gmap string Job) : Listing :=
  if decide (method ≠ MethodGet) then ListingRefused StatusMethodNotAllowed
  else ListingJobs (deadLoop order jobs ∅).

(** * Further vocabulary *)

(** [range jobs] visits every entry of the map. *)
Definition visitsAll (order : list string) (jobs : gmap string Job) : Prop :=
  ∀ id, is_Some (jobs !! id) → id ∈ order.

(** How the lease fields go with the state. *)
Definition leaseShape (job : Job) : Prop :=
  (State job = StateLeased → LeaseOwner job ≠ "")
  ∧ (State job ≠ StateLeased → LeaseOwner job = "" ∧ LeaseExpiresAt job = 0)
  ∧ (State job = StateDead → NextAvailableAt job = 0).

(** The edges of the job life cycle, each with the request that takes it. *)
Inductive Edge : JobState → Event → JobState → Prop :=
  | EdgeStay st ev : Edge st ev st
  | EdgeLease method body now order timedOut :
      Edge StateQueued (Poll method body now order timedOut) StateLeased
  | EdgeAck method body now :
      Edge StateLeased (Ack method body now) StateDone
  | EdgeRetry method body now draw :
      Edge StateLeased (Fail method body now draw) StateQueued
  | EdgeDead method body now draw :
      Edge StateLeased (Fail method body now draw) StateDead
  | EdgeExpire now order :
      Edge StateLeased (Sweep now order) StateQueued.

(** The fencing token [leaseID] was handed out for the job and can no
    longer complete it: the job is not leased any more, or it has been
    leased again since. *)
Definition tokenSpent (leaseID : Z) (job : Job) : Prop :=
  leaseID <= LeaseID job
  ∧ (State job ≠ StateLeased ∨ leaseID < LeaseID job).

(** What one pass of the sweeper does to a job. *)
Definition sweepJob (now : Z) (job : Job) : Job :=
  if leaseExpired now job then requeueExpired job else job.

(** Events that can put a leased job back in the queue. *)
Definition requeues (ev : Event) : bool :=
  match ev with Fail _ _ _ _ | Sweep _ _ => true | _ => false end.

(** A key of the registry is reserved by a request in flight. *)
Definition heldBy (sys : System) (idemKey : string) : Prop :=
  ∃ g pc, enqueuing sys !! g = Some pc ∧ pcKey pc = idemKey.


(** ** Further concrete data *)

(** Scenario S3 to its end: the third failure leaves the job DEAD. *)
Definition failToDeath : list Event := failThrice ++ [thirdFail].

Definition deadJob : Job :=
  {| ID := uuid1; Payload := "p"; State := StateDead;
     LeaseOwner := ""; LeaseExpiresAt := 0; LeaseID := 3;
     Attempts := 3; MaxTries := 3; NextAvailableAt := 0 |}.

(** Whether a transition ended in a run-time panic. *)
Definition panicked (out : Output) : bool :=
  match reply out with Some Panicked => true | _ => false end.

(** The record a worker receives for a job on its first lease. *)
Definition firstLease (id payload worker : string) (now : Z) : Job :=
  {| ID := id; Payload := payload; State := StateLeased;
     LeaseOwner := worker; LeaseExpiresAt := now + 30; LeaseID := 1;
     Attempts := 0; MaxTries := 3; NextAvailableAt := 0 |}.

(** The reading of the clock ([time.Now().Unix()]) a transition works
    with. *)
Definition clock (ev : Event) : option Z :=
  match ev with
  | Poll _ _ now _ _ | Ack _ _ now | Fail _ _ now _ | Sweep now _ => Some now
  | _ => None
  end.

(** Unix time as the broker meets it: not negative, and with room for a
    lease of 30 seconds in an [int64]. *)
Definition unixTime (ev : Event) : Prop :=
  ∀ now, clock ev = Some now → 0 <= now ∧ Int64.in_range (now + 30).

(** No two keys of the registry name the same job, and a job that a
    request has stored but not yet bound to its key is named by no key and
    by no other request. *)
Record RegistryOK (sys : System) : Prop := {
  reg_injective : ∀ k1 k2 id,
    idem (broker sys) !! k1 = Some id → idem (broker sys) !! k2 = Some id →
    id ≠ PENDING → k1 = k2;
  reg_unbound : ∀ g k id k',
    enqueuing sys !! g = Some (Inserted k id) →
    idem (broker sys) !! k' = Some id → False;
  reg_one_owner : ∀ g g' k k' id,
    enqueuing sys !! g = Some (Inserted k id) →
    enqueuing sys !! g' = Some (Inserted k' id) → g = g'
}.

(** * The first broker ([main.go])

    [main.go] holds the broker as it stood before retries, idempotency
    keys, fencing tokens and long polling: jobs carry no lease id and no
    retry time, [/ack] checks owner and expiry only, and [/poll] answers
    at once. *)

Module V1.

Record Job := mkJob {
  ID : string;
  Payload : string;
  State : JobState;
  LeaseOwner : string;
  LeaseExpiresAt : Z;
  Attempts : Z;
  MaxTries : Z
}.

Record AckRequest := mkAckRequest {
  ack_WorkerID : string;
  ack_JobID : string
}.

Inductive Response :=
  | Reply (code : Status)
  | ReplyJob (job : Job).

Definition leaseExpired (now : Z) (job : Job) : bool :=
  bool_decide (State job = StateLeased)
  && (0 <? LeaseExpiresAt job) && (LeaseExpiresAt job <=? now).

Definition requeueExpired (job : Job) : Job :=
  {| ID := ID job; Payload := Payload job;
     State := StateQueued;
     LeaseOwner := "";
     LeaseExpiresAt := 0;
     Attempts := Attempts job; MaxTries := MaxTries job |}.

Fixpoint expireLoop (now : Z) (order : list string)
    (jobs : gmap string Job) (expiredIDs : list string)
    : list string * gmap string Job :=
  match order with
  | [] => (expiredIDs, jobs)
  | id :: order =>
      match jobs !! id with
      | Some job =>
          if leaseExpired now job
          then expireLoop now order (<[id := requeueExpired job]> jobs)
                          (expiredIDs ++ [id])
          else expireLoop now order jobs expiredIDs
      | None => expireLoop now order jobs expiredIDs
      end
  end.

Definition expireLeases (now : Z) (order : list string)
    (jobs : gmap string Job) : list string * gmap string Job :=
  expireLoop now order jobs [].

Definition lease (worker : string) (now : Z) (job : Job) : Job :=
  {| ID := ID job; Payload := Payload job;
     State := StateLeased;
     LeaseOwner := worker;
     LeaseExpiresAt := Int64.add now 30;
     Attempts := Attempts job; MaxTries := MaxTries job |}.

(** The loop [for _, job := range jobs] of [/poll]: the first QUEUED job
    met is leased and returned. *)
Fixpoint pollScan (worker : string) (now : Z) (order : list string)
    (jobs : gmap string Job) : option (Job * gmap string Job) :=
  match order with
  | [] => None
  | id :: order =>
      match jobs !! id with
      | Some job =>
          if bool_decide (State job = StateQueued)
          then Some (lease worker now job, <[id := lease worker now job]> jobs)
          else pollScan worker now order jobs
      | None => pollScan worker now order jobs
      end
  end.

Definition poll (method : string) (body : option PollRequest) (now : Z)
    (order : list string) (jobs : gmap string Job)
    : Response * gmap string Job :=
  if decide (method ≠ MethodPost) then (Reply StatusMethodNotAllowed, jobs)
  else match body with
  | None => (Reply StatusBadRequest, jobs)
  | Some req =>
      if decide (poll_WorkerID req = "") then (Reply StatusBadRequest, jobs)
      else match pollScan (poll_WorkerID req) now order jobs with
      | Some (job, jobs) => (ReplyJob job, jobs)
      | None => (Reply StatusNoContent, jobs)
      end
  end.

Definition markDone (job : Job) : Job :=
  {| ID := ID job; Payload := Payload job;
     State := StateDone;
     LeaseOwner := "";
     LeaseExpiresAt := 0;
     Attempts := Attempts job; MaxTries := MaxTries job |}.

Definition ack (method : string) (body : option AckRequest) (now : Z)
    (jobs : gmap string Job) : Response * gmap string Job :=
  if decide (method ≠ MethodPost) then (Reply StatusMethodNotAllowed, jobs)
  else match body with
  | None => (Reply StatusBadRequest, jobs)
  | Some req =>
      if decide (ack_WorkerID req = "" ∨ ack_JobID req = "")
      then (Reply StatusBadRequest, jobs)
      else match jobs !! ack_JobID req with
      | None => (Reply StatusNotFound, jobs)
      | Some job =>
          if decide (State job = StateDone) then (Reply StatusOK, jobs)
          else if decide (State job ≠ StateLeased
                          ∨ LeaseOwner job ≠ ack_WorkerID req)
          then (Reply StatusConflict, jobs)
          else if decide (LeaseExpiresAt job <= now)
          then (Reply StatusConflict, jobs)
          else (Reply StatusOK, <[ack_JobID req := markDone job]> jobs)
      end
  end.

End V1.

(** ** The final broker seen from the first

    What is left of a job, a request and a reply of the final broker when
    the fields and answers that [main.go] does not know are dropped. *)

Definition forgetJob (job : Job) : V1.Job :=
  {| V1.ID := ID job; V1.Payload := Payload job; V1.State := State job;
     V1.LeaseOwner := LeaseOwner job;
     V1.LeaseExpiresAt := LeaseExpiresAt job;
     V1.Attempts := Attempts job; V1.MaxTries := MaxTries job |}.

Definition forgetAck (req : AckRequest) : V1.AckRequest :=
  {| V1.ack_WorkerID := ack_WorkerID req; V1.ack_JobID := ack_JobID req |}.

(** A poll of the final broker that would wait is one that [main.go]
    answers with 204. *)
Definition forgetResponse (r : Response) : option V1.Response :=
  match r with
  | Reply code => Some (V1.Reply code)
  | ReplyJob job => Some (V1.ReplyJob (forgetJob job))
  | Waiting => Some (V1.Reply StatusNoContent)
  | ReplyJobID _ | Panicked => None
  end.

(** The token of an acknowledgement is the one of the lease it would
    end. *)
Definition tokenCurrent (req : AckRequest) (now : Z)
    (jobs : gmap string Job) : Prop :=
  ∀ job, jobs !! ack_JobID req = Some job →
    State job = StateLeased → LeaseOwner job = ack_WorkerID req →
    now < LeaseExpiresAt job → ack_LeaseID req = LeaseID job.

(** No queued job is waiting for a retry time. *)
Definition noPendingRetry (now : Z) (jobs : gmap string Job) : Prop :=
  ∀ id job, jobs !! id = Some job → State job = StateQueued →
    NextAvailableAt job = 0 ∨ NextAvailableAt job <= now.
(** * Properties *)

(** ** 64-bit arithmetic *)

Lemma wrap_in_range z : Int64.in_range z -> Int64.wrap z = z.
Proof.
  unfold Int64.in_range, Int64.min_int, Int64.max_int, Int64.wrap.
  intros Hz. rewrite Z.mod_small; lia.
Qed.

Lemma add_in_range x y : Int64.in_range (x + y) -> Int64.add x y = x + y.
Proof. apply wrap_in_range. Qed.

Lemma shl_small x s :
  0 <= s -> Int64.in_range (x * 2 ^ s) -> Int64.shl x s = x * 2 ^ s.
Proof.
  intros Hs Hr. unfold Int64.shl. rewrite Z.shiftl_mul_pow2 by lia.
  by apply wrap_in_range.
Qed.

(** A shift by the word size or more leaves nothing. *)
Lemma shl_large x s : 64 <= s -> Int64.shl x s = 0.
Proof.
  intros Hs. unfold Int64.shl, Int64.wrap.
  rewrite Z.shiftl_mul_pow2 by lia.
  replace s with ((s - 64) + 64) by lia.
  rewrite Z.pow_add_r by lia.
  replace (x * (2 ^ (s - 64) * 2 ^ 64) + 2 ^ 63)
    with (2 ^ 63 + (x * 2 ^ (s - 64)) * 2 ^ 64) by lia.
  rewrite Z.mod_add by lia. rewrite Z.mod_small; lia.
Qed.

Ltac in_int64 :=
  unfold Int64.in_range, Int64.min_int, Int64.max_int, capDelay in *;
  simpl; lia.

(** ** The retry delay *)

Lemma retry_delay_draw draw attempts :
  attempts <= 61 ->
  retryDelaySeconds draw attempts = Some (draw mod (window attempts + 1)).
Proof.
  intros Hle. unfold retryDelaySeconds, window, base, capDelay.
  set (a := if attempts <? 1 then 1 else attempts).
  assert (Ha : a = Z.max attempts 1) by (subst a; destruct (Z.ltb_spec attempts 1); lia).
  rewrite <- Ha. assert (1 <= a <= 61) as Hrange by lia. clearbody a.
  assert (Hpow : 1 <= 2 ^ (a - 1) <= 2 ^ 60).
  { split; [apply (Z.pow_le_mono_r 2 0 (a - 1)); lia
           | apply Z.pow_le_mono_r; lia]. }
  rewrite shl_small; [|lia|].
  2:{ unfold Int64.in_range, Int64.min_int, Int64.max_int. lia. }
  set (d := if 30 <? 5 * 2 ^ (a - 1) then 30 else 5 * 2 ^ (a - 1)).
  assert (Hd : d = Z.min (5 * 2 ^ (a - 1)) 30)
    by (subst d; destruct (Z.ltb_spec 30 (5 * 2 ^ (a - 1))); lia).
  rewrite Hd. rewrite add_in_range.
  2:{ unfold Int64.in_range, Int64.min_int, Int64.max_int. lia. }
  unfold Int63n. destruct (Z.leb_spec (Z.min (5 * 2 ^ (a - 1)) 30 + 1) 0); [lia|done].
Qed.

(** Up to 61 attempts the delay is drawn from the whole window
    [0 .. min(5 * 2^(attempts-1), 30)]: every draw lands in it, and a draw
    that is already in the window is returned as it is, so each value of
    the window is an outcome and none is favoured by the reduction. *)
Lemma retry_delay_full_window attempts :
  attempts <= 61 ->
  (∀ draw, ∃ d, retryDelaySeconds draw attempts = Some d
                ∧ 0 <= d <= window attempts)
  ∧ (∀ d, 0 <= d <= window attempts -> retryDelaySeconds d attempts = Some d).
Proof.
  intros Hle.
  assert (0 <= window attempts).
  { unfold window, base, capDelay.
    assert (0 < 2 ^ (Z.max attempts 1 - 1)) by (apply Z.pow_pos_nonneg; lia). lia. }
  split.
  - intros draw. exists (draw mod (window attempts + 1)).
    split; [by apply retry_delay_draw|].
    pose proof (Z.mod_pos_bound draw (window attempts + 1)). lia.
  - intros d Hd. rewrite retry_delay_draw by done.
    f_equal. apply Z.mod_small. lia.
Qed.

Lemma retry_delay_beyond_word draw attempts :
  65 <= attempts -> retryDelaySeconds draw attempts = Some 0.
Proof.
  intros Hge. unfold retryDelaySeconds.
  destruct (Z.ltb_spec attempts 1); [lia|].
  rewrite shl_large by lia. simpl. unfold Int63n. simpl.
  by rewrite Z.mod_1_r.
Qed.

Lemma retry_delay_panics_at_64 draw : retryDelaySeconds draw 64 = None.
Proof.
  unfold retryDelaySeconds.
  change (Int64.shl base (64 - 1)) with Int64.min_int. reflexivity.
Qed.

(** C8 (counterexample). At [attempts = 62] the window is [0 .. 30], yet
    [5 << 61] does not fit in an [int64]: the shifted value is negative,
    the cap does not apply, and [rand.Int63n] is called with a non-positive
    bound and panics. No delay is returned, whatever the generator
    draws. *)
Lemma retry_delay_none_at_62 :
  window 62 = 30
  ∧ Int64.shl base (62 - 1) = -6917529027641081856
  ∧ ∀ draw, retryDelaySeconds draw 62 = None.
Proof.
  split; [|split].
  - by vm_compute.
  - by vm_compute.
  - intros draw. unfold retryDelaySeconds.
    change (Int64.shl base (62 - 1)) with (-6917529027641081856).
    reflexivity.
Qed.

(** C8 (amended). For every attempt count up to 61, counts below 1 being
    treated as 1, [retryDelaySeconds] returns a delay in the window
    [0 .. min(5 * 2^(attempts-1), 30)]: the delay is what [rand.Int63n]
    makes of the generator's draw for the bound [window + 1], so every
    draw lands in the window and every value of the window is the delay
    for some draw (for itself, to begin with). *)
Theorem retry_delay_in_window (attempts : Z) :
  attempts <= 61 →
  (∀ draw, ∃ delay,
     retryDelaySeconds draw attempts = Some delay
     ∧ Int63n draw (window attempts + 1) = Some delay
     ∧ 0 <= delay <= window attempts)
  ∧ (∀ delay, 0 <= delay <= window attempts →
       retryDelaySeconds delay attempts = Some delay)
  ∧ (∀ draw, retryDelaySeconds draw attempts
             = retryDelaySeconds draw (Z.max attempts 1))
  ∧ window attempts = Z.min (5 * 2 ^ (Z.max attempts 1 - 1)) 30.
Proof.
  intros Hle.
  assert (0 <= window attempts) as Hpos.
  { unfold window, base, capDelay.
    assert (0 < 2 ^ (Z.max attempts 1 - 1)) by (apply Z.pow_pos_nonneg; lia).
    lia. }
  split; [|split; [|split]].
  - intros draw. exists (draw mod (window attempts + 1)).
    split; [by apply retry_delay_draw|]. split.
    + unfold Int63n.
      by destruct (Z.leb_spec (window attempts + 1) 0); [lia|].
    + pose proof (Z.mod_pos_bound draw (window attempts + 1)). lia.
  - intros delay Hd. rewrite retry_delay_draw by done.
    f_equal. apply Z.mod_small. lia.
  - intros draw. rewrite !retry_delay_draw by lia.
    unfold window. by rewrite (Z.max_l (Z.max attempts 1) 1) by lia.
  - done.
Qed.

(** ** Requests that do not reach the store *)

(** A body that does not decode, or that leaves [worker_id] (or, for
    [/ack] and [/fail], [job_id]) empty, is answered 400 before the store
    is looked at. *)
Lemma malformed_requests_rejected now draw order timedOut
    (jobs : gmap string Job) :
  (∀ body, (body = None ∨ ∃ req, body = Some req ∧ poll_WorkerID req = "") →
     poll MethodPost body now order timedOut jobs
     = (Reply StatusBadRequest, jobs))
  ∧ (∀ body,
       (body = None
        ∨ ∃ req, body = Some req
                 ∧ (ack_WorkerID req = "" ∨ ack_JobID req = "")) →
       ack MethodPost body now jobs = (Reply StatusBadRequest, jobs))
  ∧ (∀ body,
       (body = None
        ∨ ∃ req, body = Some req
                 ∧ (fail_WorkerID req = "" ∨ fail_JobID req = "")) →
       fail MethodPost body now draw jobs = (Reply StatusBadRequest, jobs)).
Proof.
  repeat split; intros body [->|(req & -> & Hempty)];
    unfold poll, ack, fail;
    rewrite decide_False by (by intros []); try done;
    by rewrite decide_True.
Qed.

(** ** /ack *)

(** C1. For a request that names a worker and a job, [/ack] checks, in this
    order and answering at the first check that fails: an unknown job is
    NotFound; a job that is DONE is Success; a job that is not LEASED, or
    leased to another worker, is Conflict; a lease id other than the job's
    is Conflict; a lease that ended at or before [now] is Conflict. In each
    of these cases the store is left as it was. Otherwise the answer is
    Success: the job becomes DONE with its lease owner and lease end
    cleared, while attempts, lease id and next-available time (and id,
    payload, max tries) stay as they were, and no other job changes. *)
Theorem ack_validation_order (req : AckRequest) (now : Z)
    (jobs : gmap string Job) :
  ack_WorkerID req ≠ "" → ack_JobID req ≠ "" →
  let result := ack MethodPost (Some req) now jobs in
  (jobs !! ack_JobID req = None → result = (Reply StatusNotFound, jobs))
  ∧ ∀ job, jobs !! ack_JobID req = Some job →
      (State job = StateDone → result = (Reply StatusOK, jobs))
      ∧ (State job ≠ StateDone →
         State job ≠ StateLeased ∨ LeaseOwner job ≠ ack_WorkerID req →
         result = (Reply StatusConflict, jobs))
      ∧ (State job = StateLeased → LeaseOwner job = ack_WorkerID req →
         ack_LeaseID req ≠ LeaseID job →
         result = (Reply StatusConflict, jobs))
      ∧ (State job = StateLeased → LeaseOwner job = ack_WorkerID req →
         ack_LeaseID req = LeaseID job → LeaseExpiresAt job <= now →
         result = (Reply StatusConflict, jobs))
      ∧ (State job = StateLeased → LeaseOwner job = ack_WorkerID req →
         ack_LeaseID req = LeaseID job → now < LeaseExpiresAt job →
         ∃ job',
           result = (Reply StatusOK, <[ack_JobID req := job']> jobs)
           ∧ State job' = StateDone
           ∧ LeaseOwner job' = "" ∧ LeaseExpiresAt job' = 0
           ∧ Attempts job' = Attempts job ∧ LeaseID job' = LeaseID job
           ∧ NextAvailableAt job' = NextAvailableAt job
           ∧ ID job' = ID job ∧ Payload job' = Payload job
           ∧ MaxTries job' = MaxTries job).
Proof.
  intros Hw Hj result. subst result. unfold ack.
  rewrite decide_False by (by intros []).
  rewrite decide_False by (by intros [|]).
  split.
  - by intros ->.
  - intros job ->. repeat split.
    + intros Hd. by rewrite decide_True.
    + intros Hnd Hown. rewrite decide_False by done. by rewrite decide_True.
    + intros Hl Ho Hid. rewrite decide_False by congruence.
      rewrite decide_False by (intros [|]; congruence).
      by rewrite decide_True.
    + intros Hl Ho Hid Hexp. rewrite decide_False by congruence.
      rewrite decide_False by (intros [|]; congruence).
      rewrite decide_False by congruence. by rewrite decide_True.
    + intros Hl Ho Hid Hexp. rewrite decide_False by congruence.
      rewrite decide_False by (intros [|]; congruence).
      rewrite decide_False by congruence. rewrite decide_False by lia.
      exists (markDone job). by repeat split.
Qed.

(** ** /fail *)

(** Whenever [/fail] changes nothing it answers as [/ack] does on the same
    fields: the two handlers validate alike. *)
Lemma fail_validates_as_ack method worker jobID leaseID now draw
    (jobs : gmap string Job) :
  (∀ job, jobs !! jobID = Some job →
     State job = StateLeased → LeaseOwner job = worker →
     leaseID = LeaseID job → LeaseExpiresAt job <= now) →
  fail method (Some (mkFailRequest worker jobID leaseID)) now draw jobs
  = ack method (Some (mkAckRequest worker jobID leaseID)) now jobs.
Proof.
  intros Hrej. unfold fail, ack; simpl.
  repeat case_decide; try done.
  destruct (jobs !! jobID) as [job|] eqn:Hjob; [|done].
  specialize (Hrej job eq_refl).
  repeat case_decide; try done; exfalso;
    (destruct (decide (State job = StateLeased)) as [Hl|]; [|tauto]);
    (destruct (decide (LeaseOwner job = worker)) as [Ho|]; [|tauto]);
    (destruct (decide (leaseID = LeaseID job)) as [Hi|]; [|tauto]);
    specialize (Hrej Hl Ho Hi); lia.
Qed.

Lemma wrap_range z : Int64.in_range (Int64.wrap z).
Proof.
  unfold Int64.in_range, Int64.min_int, Int64.max_int, Int64.wrap.
  pose proof (Z.mod_pos_bound (z + 2 ^ 63) (2 ^ 64) ltac:(lia)). lia.
Qed.

(** Whatever the count, a delay that is returned is within the cap. *)
Lemma retry_delay_bounded draw attempts delay :
  retryDelaySeconds draw attempts = Some delay → 0 <= delay <= capDelay.
Proof.
  unfold retryDelaySeconds, Int63n, Int64.shl.
  set (a := if attempts <? 1 then 1 else attempts).
  pose proof (wrap_range (Z.shiftl base (a - 1))) as Hr.
  set (d := if capDelay <? _ then capDelay else _).
  assert (Int64.min_int <= d <= capDelay) as Hd.
  { subst d. unfold Int64.in_range, Int64.min_int, capDelay in *.
    case_match; lia. }
  clearbody d. rewrite add_in_range.
  2:{ unfold Int64.in_range, Int64.min_int, Int64.max_int, capDelay in *. lia. }
  destruct (Z.leb_spec (d + 1) 0); [done|]. intros [= <-].
  pose proof (Z.mod_pos_bound draw (d + 1)). lia.
Qed.

(** C3. For a request that names a worker and a job, [/fail] runs the
    checks of [/ack], in the same order and with the same answers: an
    unknown job is NotFound; a job that is DONE is Success with nothing
    changed; a job that is not LEASED, or leased to another worker, is
    Conflict; a lease id other than the job's is Conflict; a lease that
    ended at or before [now] is Conflict. Unless the request names a live
    lease of its worker with the current lease id, [/fail] returns exactly
    what [/ack] returns for the same fields. A request that passes every
    check is accepted, as [/ack] accepts it: it is answered Success and
    attempts grows by one. When the new count reaches max tries the job is
    DEAD with lease owner, lease end and next-available time cleared;
    otherwise it is QUEUED again with lease owner and lease end cleared and
    next-available time equal to [now] plus the delay [retryDelaySeconds]
    returned for the new count, a delay within the window of that count.
    Lease id, max tries, id and payload stay as they were and no other job
    changes. (Attempts and time within the [int64] range, and max tries at
    most 62: the broker stores jobs with max tries 3 only.) *)
Theorem fail_records_attempt (req : FailRequest) (now draw : Z)
    (jobs : gmap string Job) :
  fail_WorkerID req ≠ "" → fail_JobID req ≠ "" →
  let result := fail MethodPost (Some req) now draw jobs in
  let acked :=
    ack MethodPost
        (Some (mkAckRequest (fail_WorkerID req) (fail_JobID req)
                            (fail_LeaseID req))) now jobs in
  (jobs !! fail_JobID req = None → result = (Reply StatusNotFound, jobs))
  ∧ ((∀ job, jobs !! fail_JobID req = Some job →
        State job = StateLeased → LeaseOwner job = fail_WorkerID req →
        fail_LeaseID req = LeaseID job → LeaseExpiresAt job <= now) →
     result = acked)
  ∧ ∀ job, jobs !! fail_JobID req = Some job →
      (State job = StateDone → result = (Reply StatusOK, jobs))
      ∧ (State job ≠ StateDone →
         State job ≠ StateLeased ∨ LeaseOwner job ≠ fail_WorkerID req →
         result = (Reply StatusConflict, jobs))
      ∧ (State job = StateLeased → LeaseOwner job = fail_WorkerID req →
         fail_LeaseID req ≠ LeaseID job →
         result = (Reply StatusConflict, jobs))
      ∧ (State job = StateLeased → LeaseOwner job = fail_WorkerID req →
         fail_LeaseID req = LeaseID job → LeaseExpiresAt job <= now →
         result = (Reply StatusConflict, jobs))
      ∧ (State job = StateLeased → LeaseOwner job = fail_WorkerID req →
         fail_LeaseID req = LeaseID job → now < LeaseExpiresAt job →
         Int64.in_range (Attempts job + 1) →
         Int64.in_range now → Int64.in_range (now + capDelay) →
         MaxTries job <= 62 →
         acked = (Reply StatusOK, <[fail_JobID req := markDone job]> jobs)
         ∧ ∃ job',
             result = (Reply StatusOK, <[fail_JobID req := job']> jobs)
             ∧ Attempts job' = Attempts job + 1
             ∧ LeaseOwner job' = "" ∧ LeaseExpiresAt job' = 0
             ∧ (MaxTries job <= Attempts job + 1 →
                State job' = StateDead ∧ NextAvailableAt job' = 0)
             ∧ (Attempts job + 1 < MaxTries job →
                State job' = StateQueued
                ∧ ∃ delay,
                    retryDelaySeconds draw (Attempts job + 1) = Some delay
                    ∧ 0 <= delay <= window (Attempts job + 1)
                    ∧ NextAvailableAt job' = now + delay)
             ∧ LeaseID job' = LeaseID job ∧ MaxTries job' = MaxTries job
             ∧ ID job' = ID job ∧ Payload job' = Payload job).
Proof.
  intros Hw Hj result acked. subst result acked.
  destruct req as [worker jobID leaseID]. simpl in Hw, Hj.
  cbn [fail_WorkerID fail_JobID fail_LeaseID].
  split; [|split; [by apply fail_validates_as_ack|]].
  all: unfold fail, ack; cbn [fail_WorkerID fail_JobID fail_LeaseID
                               ack_WorkerID ack_JobID ack_LeaseID].
  all: rewrite ?(decide_False (P := MethodPost ≠ MethodPost))
         by (by intros []).
  all: rewrite ?(decide_False (P := worker = "" ∨ jobID = ""))
         by (by intros [|]).
  - by intros ->.
  - intros job ->. split; [|split; [|split; [|split]]].
    + intros Hd. by rewrite decide_True.
    + intros Hnd Hown. rewrite decide_False by done. by rewrite decide_True.
    + intros Hl Ho Hid. rewrite decide_False by congruence.
      rewrite decide_False by (intros [|]; congruence).
      by rewrite decide_True.
    + intros Hl Ho Hid Hexp. rewrite decide_False by congruence.
      rewrite decide_False by (intros [|]; congruence).
      rewrite decide_False by congruence. by rewrite decide_True.
    + intros Hl Ho Hid Hexp Hatt Hnow Hnow30 Hmax.
      rewrite !(decide_False (P := State job = StateDone)) by congruence.
      rewrite !(decide_False (P := State job ≠ StateLeased
                                  ∨ LeaseOwner job ≠ worker))
        by (intros [|]; congruence).
      rewrite !(decide_False (P := leaseID ≠ LeaseID job)) by congruence.
      rewrite !(decide_False (P := LeaseExpiresAt job <= now)) by lia.
      split; [done|]. cbv zeta.
      assert (Attempts (recordFailure job) = Attempts job + 1) as Hrec
        by (by apply add_in_range).
      change (MaxTries (recordFailure job)) with (MaxTries job).
      rewrite Hrec. case_decide as Hge.
      * (* the count reaches max tries *)
        exists (markDead (recordFailure job)).
        repeat split; try done; lia.
      * (* a retry is scheduled *)
        destruct (retry_delay_full_window (Attempts job + 1) ltac:(lia))
          as [Hin _].
        destruct (Hin draw) as (delay & Hdelay & Hwin).
        pose proof (retry_delay_bounded _ _ _ Hdelay) as Hcap.
        rewrite Hdelay.
        exists (scheduleRetry (Int64.add now delay) (recordFailure job)).
        assert (Int64.add now delay = now + delay) as Hadd
          by (apply add_in_range; in_int64).
        repeat split; try done; try lia.
        exists delay. by rewrite <- Hadd.
Qed.

(** C10. A job that is DONE answers Success to [/ack] and to [/fail]
    whatever worker and lease id the request names, and the store is left
    exactly as it was: the DONE check comes before the checks of owner,
    lease id and lease end, so a worker that never held the job is
    answered Success too. *)
Theorem done_short_circuit (worker jobID : string) (leaseID now draw : Z)
    (jobs : gmap string Job) (job : Job) :
  worker ≠ "" → jobID ≠ "" →
  jobs !! jobID = Some job → State job = StateDone →
  ack MethodPost (Some (mkAckRequest worker jobID leaseID)) now jobs
    = (Reply StatusOK, jobs)
  ∧ fail MethodPost (Some (mkFailRequest worker jobID leaseID)) now draw jobs
    = (Reply StatusOK, jobs).
Proof.
  intros Hw Hj Hjob Hdone.
  assert (fail MethodPost (Some (mkFailRequest worker jobID leaseID)) now draw jobs
          = ack MethodPost (Some (mkAckRequest worker jobID leaseID)) now jobs)
    as ->.
  { apply fail_validates_as_ack. intros job' Hjob' Hl.
    rewrite Hjob in Hjob'. injection Hjob' as <-. congruence. }
  split.
  all: unfold ack; rewrite decide_False by (by intros []).
  all: cbn [ack_WorkerID ack_JobID]; rewrite decide_False by (by intros [|]).
  all: rewrite Hjob; by rewrite decide_True.
Qed.

(** ** /poll *)

Lemma eligible_spec now job :
  eligible now job = true
  ↔ State job = StateQueued
    ∧ (NextAvailableAt job = 0 ∨ NextAvailableAt job <= now).
Proof.
  unfold eligible.
  rewrite andb_true_iff, orb_true_iff, bool_decide_eq_true.
  rewrite Z.eqb_eq, Z.leb_le. done.
Qed.

Lemma pollScan_Some worker now order (jobs : gmap string Job) job' jobs' :
  pollScan worker now order jobs = Some (job', jobs') →
  ∃ id job,
    id ∈ order ∧ jobs !! id = Some job ∧ eligible now job = true
    ∧ job' = lease worker now job ∧ jobs' = <[id := job']> jobs.
Proof.
  induction order as [|id order IH]; simpl; [done|].
  destruct (jobs !! id) as [job|] eqn:Hjob.
  - destruct (eligible now job) eqn:Hel.
    + intros [= <- <-]. exists id, job. repeat split; try done. apply list_elem_of_here.
    + intros (id' & j & Hin & Hrest)%IH. exists id', j.
      split; [by apply list_elem_of_further|done].
  - intros (id' & j & Hin & Hrest)%IH. exists id', j.
    split; [by apply list_elem_of_further|done].
Qed.

Lemma pollScan_None worker now order (jobs : gmap string Job) :
  pollScan worker now order jobs = None →
  ∀ id job, id ∈ order → jobs !! id = Some job → eligible now job = false.
Proof.
  induction order as [|id' order IH]; simpl.
  { intros _ id job Hin. by apply elem_of_nil in Hin. }
  intros Hscan id job [->|Hin]%elem_of_cons Hjob.
  - rewrite Hjob in Hscan. by destruct (eligible now job).
  - eapply IH; [|done..].
    destruct (jobs !! id'); [|done]. by destruct (eligible now _).
Qed.

(** No pass of [/poll] touches a job that is not eligible. *)
Lemma poll_keeps_ineligible method body now order timedOut
    (jobs : gmap string Job) id job :
  jobs !! id = Some job → eligible now job = false →
  (poll method body now order timedOut jobs).2 !! id = Some job.
Proof.
  intros Hjob Hel. unfold poll.
  repeat (case_decide || case_match); simpl; try done.
  match goal with H : pollScan _ _ _ _ = Some _ |- _ =>
    apply pollScan_Some in H as (id' & job0 & _ & Hjob0 & Hel0 & _ & ->) end.
  rewrite lookup_insert_ne; [done|]. intros ->. congruence.
Qed.

(** C2. When [/poll] runs for a worker while some job is eligible (QUEUED
    with next-available time zero or not after [now]), one eligible job is
    leased in that pass: it becomes LEASED, owned by the worker, with the
    lease ending at [now + 30] and the lease id one higher, and the reply
    is that new record; every other job, and so every job that is not
    eligible, is left as it was. *)
Theorem poll_leases_one_eligible (worker : string) (now : Z)
    (order : list string) (timedOut : bool) (jobs : gmap string Job) :
  worker ≠ "" →
  (∀ id, is_Some (jobs !! id) → id ∈ order) →
  Int64.in_range (now + 30) →
  (∀ id job, jobs !! id = Some job → Int64.in_range (LeaseID job + 1)) →
  (∃ id job, jobs !! id = Some job ∧ State job = StateQueued
             ∧ (NextAvailableAt job = 0 ∨ NextAvailableAt job <= now)) →
  let result := poll MethodPost (Some (mkPollRequest worker)) now order
                     timedOut jobs in
  (∃ id job job',
     jobs !! id = Some job
     ∧ State job = StateQueued
     ∧ (NextAvailableAt job = 0 ∨ NextAvailableAt job <= now)
     ∧ result = (ReplyJob job', <[id := job']> jobs)
     ∧ State job' = StateLeased ∧ LeaseOwner job' = worker
     ∧ LeaseExpiresAt job' = now + 30 ∧ LeaseID job' = LeaseID job + 1
     ∧ ID job' = ID job ∧ Payload job' = Payload job
     ∧ Attempts job' = Attempts job ∧ MaxTries job' = MaxTries job
     ∧ NextAvailableAt job' = NextAvailableAt job)
  ∧ (∀ id job, jobs !! id = Some job →
       ¬ (State job = StateQueued
          ∧ (NextAvailableAt job = 0 ∨ NextAvailableAt job <= now)) →
       result.2 !! id = Some job).
Proof.
  intros Hw Hall Hnow Hlease (id0 & job0 & Hjob0 & Hel0) result. split.
  - subst result. unfold poll. cbn [poll_WorkerID].
    rewrite decide_False by (by intros []). rewrite decide_False by done.
    destruct (pollScan worker now order jobs) as [[job' jobs']|] eqn:Hscan.
    + apply pollScan_Some in Hscan as (id & job & _ & Hjob & Hel & -> & ->).
      apply eligible_spec in Hel as [Hq Hnext].
      exists id, job, (lease worker now job). simpl.
      rewrite !add_in_range by eauto. by repeat split.
    + exfalso.
      assert (eligible now job0 = false) as Hne
        by (eapply pollScan_None; eauto).
      apply eligible_spec in Hel0. congruence.
  - intros id job Hjob Hne. apply poll_keeps_ineligible; [done|].
    destruct (eligible now job) eqn:Hel; [|done].
    by apply eligible_spec in Hel.
Qed.

(** ** The sweeper *)

Lemma sweeperTick_never_signals now order (jobs : gmap string Job) :
  (sweeperTick now order jobs).1 = [].
Proof. unfold sweeperTick. by destruct (expireLeases now order jobs). Qed.

(** C5 (failing input). With job ["j"] leased until second 130, the pass of
    the sweeper at second 135 puts the job back in QUEUED, and
    [expireLeases] reports it; the pass performs no operation on the
    condition variable. In the run [blockedPoll] the poll of [w2] is
    waiting when that pass re-queues the job, and the pass wakes nobody:
    it emits neither a broadcast nor a signal. *)
Theorem sweeper_requeues_without_broadcast :
  expireLeases 135 ["j"] {[ "j" := staleLease ]}
    = (["j"], {[ "j" := requeueExpired staleLease ]})
  ∧ State (requeueExpired staleLease) = StateQueued
  ∧ sweeperTick 135 ["j"] {[ "j" := staleLease ]}
    = ([], {[ "j" := requeueExpired staleLease ]})
  ∧ drop 4 (outputs blockedPoll)
    = [mkOutput (Some Waiting) []; mkOutput None []]
  ∧ State <$> jobs (broker (finalState blockedPoll)) !! uuid1
    = Some StateQueued.
Proof.
  assert (expireLeases 135 ["j"] {[ "j" := staleLease ]}
          = (["j"], {[ "j" := requeueExpired staleLease ]})) as Hsweep.
  { unfold expireLeases; simpl. rewrite lookup_singleton_eq. simpl.
    by rewrite insert_singleton_eq. }
  split; [done|]. split; [done|]. split.
  - unfold sweeperTick. by rewrite Hsweep.
  - split; by vm_compute.
Qed.

(** ** /enqueue *)

Lemma decode_rejects_only_invalid body :
  decodeEnqueueRequest body = None ↔ body = BodyInvalid.
Proof. destruct body as [|[payload|]]; simpl; split; congruence. Qed.

(** C9 (counterexample). A JSON object without the [payload] member decodes
    without error: the request is answered with a job id, a job with the
    empty payload is stored, and the reservation of key ["K"] is committed
    rather than released. *)
Lemma enqueue_accepts_missing_payload :
  decodeEnqueueRequest (BodyObject None) = Some {| enq_Payload := "" |}
  ∧ enqueue MethodPost "K" (BodyObject None) uuid1 {| jobs := ∅; idem := ∅ |}
    = (ReplyJobID uuid1, [Signal],
       {| jobs := {[ uuid1 := newJob uuid1 "" ]};
          idem := {[ "K" := uuid1 ]} |}).
Proof.
  split; [done|]. unfold enqueue, enqueueBegin, enqueueCommit; simpl.
  rewrite lookup_empty. simpl.
  rewrite insert_insert_eq. by rewrite !insert_empty.
Qed.

(** The key check comes first: a key that is already committed is answered
    with its job id whatever the body is. *)
Lemma enqueue_known_key_skips_decoding idemKey existingID body id b :
  idemKey ≠ "" → idem b !! idemKey = Some existingID →
  existingID ≠ PENDING →
  enqueue MethodPost idemKey body id b = (ReplyJobID existingID, [], b).
Proof.
  intros Hk Hidem Hne. unfold enqueue, enqueueBegin.
  rewrite decide_False by (by intros []). rewrite decide_False by done.
  rewrite Hidem. by rewrite decide_True.
Qed.

(** C9 (amended). An [/enqueue] that gets past the idempotency check (no
    key, or a key the registry does not hold) and whose body does not
    decode is answered MalformedRequest; no job is created, and the
    PENDING entry the check wrote for the key is removed again, so that
    jobs and registry are as before the request. *)
Theorem enqueue_undecodable_body (idemKey : string) (body : Body)
    (id : string) (b : Broker) :
  decodeEnqueueRequest body = None →
  idemKey = "" ∨ idem b !! idemKey = None →
  enqueue MethodPost idemKey body id b = (Reply StatusBadRequest, [], b)
  ∧ (idemKey ≠ "" →
     ∃ idem1,
       enqueueBegin idemKey (idem b) = (None, idem1)
       ∧ idem1 !! idemKey = Some PENDING
       ∧ enqueueRelease idemKey idem1 = idem b).
Proof.
  intros Hbody Hkey.
  assert (idemKey ≠ "" → idem b !! idemKey = None) as Hfresh by tauto.
  assert (idemKey ≠ "" →
          enqueueBegin idemKey (idem b) = (None, <[idemKey := PENDING]> (idem b))
          ∧ enqueueRelease idemKey (<[idemKey := PENDING]> (idem b)) = idem b)
    as Hphases.
  { intros Hne. unfold enqueueBegin, enqueueRelease.
    rewrite !decide_False by done. rewrite Hfresh by done.
    rewrite lookup_insert_eq, decide_True by done.
    rewrite delete_insert_eq. split; [done|]. apply delete_id; auto. }
  split.
  - unfold enqueue. rewrite decide_False by (by intros []).
    destruct (decide (idemKey = "")) as [->|Hne].
    + unfold enqueueBegin, enqueueRelease; simpl. rewrite Hbody.
      by destruct b.
    + destruct (Hphases Hne) as [-> Hrel]. rewrite Hbody, Hrel. by destruct b.
  - intros Hne. destruct (Hphases Hne) as [Hbegin Hrel].
    eexists; split; [done|]. split; [apply lookup_insert_eq|done].
Qed.

(** ** What each handler can do to the store *)

Lemma poll_cases method body now order timedOut (jobs jobs' : gmap string Job) r :
  poll method body now order timedOut jobs = (r, jobs') →
  (jobs' = jobs ∧ ∀ job, r ≠ ReplyJob job)
  ∨ ∃ worker id job,
      body = Some (mkPollRequest worker)
      ∧ jobs !! id = Some job ∧ eligible now job = true
      ∧ r = ReplyJob (lease worker now job)
      ∧ jobs' = <[id := lease worker now job]> jobs.
Proof.
  unfold poll. destruct (decide (method ≠ MethodPost)).
  { intros [= <- <-]. by left. }
  destruct body as [[worker]|]; [|intros [= <- <-]; by left].
  simpl. destruct (decide (worker = "")).
  { intros [= <- <-]. by left. }
  destruct (pollScan worker now order jobs) as [[job1 jobs1]|] eqn:Hscan.
  - intros [= <- <-]. right.
    apply pollScan_Some in Hscan as (id & job & _ & Hjob & Hel & -> & ->).
    by exists worker, id, job.
  - destruct timedOut; intros [= <- <-]; by left.
Qed.

Lemma ack_cases method body now (jobs jobs' : gmap string Job) r :
  ack method body now jobs = (r, jobs') →
  (jobs' = jobs ∧ ∃ code, r = Reply code)
  ∨ ∃ req job,
      body = Some req
      ∧ jobs !! ack_JobID req = Some job ∧ State job = StateLeased
      ∧ r = Reply StatusOK
      ∧ jobs' = <[ack_JobID req := markDone job]> jobs.
Proof.
  unfold ack. destruct (decide (method ≠ MethodPost)).
  { intros [= <- <-]. left. eauto. }
  destruct body as [req|]; [|intros [= <- <-]; left; eauto].
  destruct (decide (_ ∨ _)). { intros [= <- <-]. left. eauto. }
  destruct (jobs !! ack_JobID req) as [job|] eqn:Hjob;
    [|intros [= <- <-]; left; eauto].
  repeat case_decide; intros [= <- <-]; try (left; by eauto).
  right. exists req, job. repeat split; try done.
  by destruct (decide (State job = StateLeased)); [|tauto].
Qed.

Lemma fail_cases method body now draw (jobs jobs' : gmap string Job) r :
  fail method body now draw jobs = (r, jobs') →
  (jobs' = jobs ∧ ∃ code, r = Reply code)
  ∨ ∃ req job,
      body = Some req
      ∧ jobs !! fail_JobID req = Some job ∧ State job = StateLeased
      ∧ ((MaxTries job <= Attempts (recordFailure job)
          ∧ r = Reply StatusOK
          ∧ jobs' = <[fail_JobID req := markDead (recordFailure job)]> jobs)
         ∨ (Attempts (recordFailure job) < MaxTries job
            ∧ ∃ delay,
                retryDelaySeconds draw (Attempts (recordFailure job)) = Some delay
                ∧ r = Reply StatusOK
                ∧ jobs' = <[fail_JobID req :=
                              scheduleRetry (Int64.add now delay)
                                            (recordFailure job)]> jobs)
         ∨ (Attempts (recordFailure job) < MaxTries job
            ∧ retryDelaySeconds draw (Attempts (recordFailure job)) = None
            ∧ r = Panicked
            ∧ jobs' = <[fail_JobID req := recordFailure job]> jobs)).
Proof.
  unfold fail. destruct (decide (method ≠ MethodPost)).
  { intros [= <- <-]. left. eauto. }
  destruct body as [req|]; [|intros [= <- <-]; left; eauto].
  destruct (decide (_ ∨ _)). { intros [= <- <-]. left. eauto. }
  destruct (jobs !! fail_JobID req) as [job|] eqn:Hjob;
    [|intros [= <- <-]; left; eauto].
  destruct (decide (State job = StateDone)).
  { intros [= <- <-]. left. eauto. }
  destruct (decide (_ ∨ _)). { intros [= <- <-]. left. eauto. }
  destruct (decide (_ ≠ _)). { intros [= <- <-]. left. eauto. }
  destruct (decide (_ <= _)). { intros [= <- <-]. left. eauto. }
  assert (State job = StateLeased)
    by (destruct (decide (State job = StateLeased)); [done|tauto]).
  cbv zeta. destruct (decide (_ <= _)).
  { intros [= <- <-]. right. exists req, job. repeat split; try done.
    left. by repeat split. }
  assert (Attempts (recordFailure job) < MaxTries job) by (simpl in *; lia).
  destruct (retryDelaySeconds draw _) as [delay|] eqn:Hdelay.
  - intros [= <- <-]. right. exists req, job. repeat split; try done.
    right; left. split; [done|]. by exists delay.
  - intros [= <- <-]. right. exists req, job. repeat split; try done.
    right; right. by repeat split.
Qed.

Lemma leaseExpired_requeued now job :
  leaseExpired now (requeueExpired job) = false.
Proof. done. Qed.

Lemma expireLoop_lookup now order (jobs : gmap string Job) expiredIDs id :
  (expireLoop now order jobs expiredIDs).2 !! id = jobs !! id
  ∨ ∃ job, jobs !! id = Some job ∧ leaseExpired now job = true
           ∧ (expireLoop now order jobs expiredIDs).2 !! id
             = Some (requeueExpired job).
Proof.
  revert jobs expiredIDs.
  induction order as [|id' order IH]; intros jobs expiredIDs; simpl; [by left|].
  destruct (jobs !! id') as [job'|] eqn:Hjob'; [|apply IH].
  destruct (leaseExpired now job') eqn:Hexp; [|apply IH].
  destruct (IH (<[id' := requeueExpired job']> jobs) (expiredIDs ++ [id'])%list)
    as [Hsame|(job & Hjob & Hexp' & Hres)].
  - rewrite Hsame. destruct (decide (id' = id)) as [->|Hne].
    + rewrite lookup_insert_eq. right. by exists job'.
    + rewrite lookup_insert_ne by done. by left.
  - destruct (decide (id' = id)) as [->|Hne].
    + rewrite lookup_insert_eq in Hjob. injection Hjob as <-.
      by rewrite leaseExpired_requeued in Hexp'.
    + rewrite lookup_insert_ne in Hjob by done. right. by exists job.
Qed.

(** Every entry the loop visits with an ended lease is put back. *)
Lemma expireLoop_requeues now order (jobs : gmap string Job) expiredIDs id job :
  id ∈ order → jobs !! id = Some job → leaseExpired now job = true →
  (expireLoop now order jobs expiredIDs).2 !! id = Some (requeueExpired job)
  ∧ id ∈ (expireLoop now order jobs expiredIDs).1.
Proof.
  assert (Hkeep : ∀ order (jobs : gmap string Job) expiredIDs id,
            id ∈ expiredIDs → id ∈ (expireLoop now order jobs expiredIDs).1).
  { clear. induction order as [|id' order IH]; intros jobs expiredIDs id Hin;
      simpl; [done|].
    destruct (jobs !! id'); [|by apply IH].
    destruct (leaseExpired now _); apply IH; [|done].
    apply elem_of_app. by left. }
  revert jobs expiredIDs.
  induction order as [|id' order IH]; intros jobs expiredIDs Hin Hjob Hexp.
  { by apply elem_of_nil in Hin. }
  simpl. destruct (decide (id' = id)) as [->|Hne].
  - rewrite Hjob, Hexp. split.
    + destruct (expireLoop_lookup now order (<[id := requeueExpired job]> jobs)
                  (expiredIDs ++ [id])%list id) as [->|(j & Hj & Hexp' & _)].
      * apply lookup_insert_eq.
      * rewrite lookup_insert_eq in Hj. injection Hj as <-.
        by rewrite leaseExpired_requeued in Hexp'.
    + apply Hkeep, elem_of_app. right. apply list_elem_of_here.
  - apply elem_of_cons in Hin as [->|Hin]; [done|].
    destruct (jobs !! id') as [job'|] eqn:Hjob'; [|by apply IH].
    destruct (leaseExpired now job'); [|by apply IH].
    apply IH; [done| |done]. by rewrite lookup_insert_ne.
Qed.

(** C5 in general: whenever the pass re-queues a job it wakes nobody. *)
Lemma sweeper_wakes_nobody now order (jobs : gmap string Job) id job :
  id ∈ order → jobs !! id = Some job → leaseExpired now job = true →
  (sweeperTick now order jobs).2 !! id = Some (requeueExpired job)
  ∧ (sweeperTick now order jobs).1 = [].
Proof.
  intros Hin Hjob Hexp. split; [|apply sweeperTick_never_signals].
  pose proof (expireLoop_requeues now order jobs [] id job Hin Hjob Hexp) as [H _].
  unfold sweeperTick, expireLeases.
  by destruct (expireLoop now order jobs []).
Qed.

Lemma step_job sys ev out sys' id job :
  keyedByID (jobs (broker sys)) →
  step sys ev = Some (out, sys') →
  jobs (broker sys) !! id = Some job →
  ∃ job', jobs (broker sys') !! id = Some job' ∧ JobStep id job ev out job'.
Proof.
  intros Hkeyed Hstep Hjob. destruct ev; simpl in Hstep.
  - (* EnqueueBegin *)
    destruct (enqueuing sys !! g); [done|].
    destruct (decide (method ≠ MethodPost)).
    { injection Hstep as <- <-. exists job. split; [done|]. by constructor. }
    destruct (enqueueBegin idemKey _) as [[r|] idem1] eqn:Hbegin;
      injection Hstep as <- <-; (exists job; split; [done|]);
      constructor; [|done].
    unfold enqueueBegin in Hbegin.
    repeat (case_decide || case_match); by simplify_eq.
  - (* EnqueueDecode *)
    destruct (enqueuing sys !! g) as [[idemKey|]|]; try done.
    destruct (decodeEnqueueRequest body) as [req|].
    + destruct (decide (freshUUID id0 _)) as [[_ Hfresh]|]; [|done].
      injection Hstep as <- <-. exists job. simpl. split; [|by constructor].
      rewrite lookup_insert_ne; [done|]. intros ->. congruence.
    + injection Hstep as <- <-. exists job. split; [done|]. by constructor.
  - (* EnqueueCommit *)
    destruct (enqueuing sys !! g) as [[|idemKey id0]|]; try done.
    injection Hstep as <- <-. exists job. split; [done|]. by constructor.
  - (* Poll *)
    destruct (poll _ _ _ _ _ _) as [r jobs'] eqn:Hpoll.
    injection Hstep as <- <-. simpl.
    apply poll_cases in Hpoll
      as [[-> Hr]|(worker & id0 & job0 & -> & Hjob0 & Hel & -> & ->)].
    + exists job. split; [done|]. constructor. unfold leasedTo; simpl.
      destruct r; try done. by destruct (Hr job0).
    + destruct (decide (id0 = id)) as [->|Hne].
      * rewrite lookup_insert_eq. rewrite Hjob in Hjob0. injection Hjob0 as <-.
        eexists; split; [done|]. by constructor.
      * rewrite lookup_insert_ne by done. exists job. split; [done|].
        constructor. unfold leasedTo; simpl.
        rewrite decide_False; [done|]. by rewrite (Hkeyed _ _ Hjob0).
  - (* Ack *)
    destruct (ack _ _ _ _) as [r jobs'] eqn:Hack.
    injection Hstep as <- <-. simpl.
    apply ack_cases in Hack
      as [[-> [code ->]]|(req & job0 & -> & Hjob0 & Hl & -> & ->)].
    + exists job. split; [done|]. by constructor.
    + destruct (decide (ack_JobID req = id)) as [Heq|Hne].
      * rewrite Heq in *. rewrite lookup_insert_eq.
        rewrite Hjob in Hjob0. injection Hjob0 as <-.
        eexists; split; [done|]. by constructor.
      * rewrite lookup_insert_ne by done. exists job. split; [done|].
        by constructor.
  - (* Fail *)
    destruct (fail _ _ _ _ _) as [r jobs'] eqn:Hfail.
    injection Hstep as <- <-. simpl.
    apply fail_cases in Hfail
      as [[-> [code ->]]|(req & job0 & -> & Hjob0 & Hl & Hcases)].
    { exists job. split; [done|]. by constructor. }
    destruct (decide (fail_JobID req = id)) as [Heq|Hne].
    + rewrite Heq in *. rewrite Hjob in Hjob0. injection Hjob0 as <-.
      destruct Hcases as [(Hmax & -> & ->)|[(Hlt & delay & Hdelay & -> & ->)
                                           |(Hlt & Hdelay & -> & ->)]];
        rewrite lookup_insert_eq; (eexists; split; [done|]).
      * by constructor.
      * by constructor.
      * by constructor.
    + exists job.
      destruct Hcases as [(Hmax & -> & ->)|[(Hlt & delay & Hdelay & -> & ->)
                                           |(Hlt & Hdelay & -> & ->)]];
        rewrite lookup_insert_ne by done; (split; [done|]); by constructor.
  - (* Sweep *)
    unfold sweeperTick, expireLeases in Hstep.
    pose proof (expireLoop_lookup now order (jobs (broker sys)) [] id) as Hlook.
    destruct (expireLoop now order _ []) as [ids jobs'].
    injection Hstep as <- <-. simpl in *.
    destruct Hlook as [->|(job0 & Hjob0 & Hexp & ->)].
    + exists job. split; [done|]. by constructor.
    + rewrite Hjob in Hjob0. injection Hjob0 as <-.
      eexists; split; [done|]. by constructor.
  - (* PollTimer *)
    injection Hstep as <- <-. exists job. split; [done|]. by constructor.
Qed.

(** A job appears only through the insertion of [/enqueue], and then as a
    new job. *)
Lemma step_new_job sys ev out sys' id job' :
  step sys ev = Some (out, sys') →
  jobs (broker sys) !! id = None →
  jobs (broker sys') !! id = Some job' →
  ∃ g body payload,
    ev = EnqueueDecode g body id ∧ job' = newJob id payload
    ∧ out = mkOutput None [Signal].
Proof.
  intros Hstep Hnone Hjob'. destruct ev; simpl in Hstep.
  - destruct (enqueuing sys !! g); [done|].
    destruct (decide (method ≠ MethodPost)); [by simplify_eq|].
    destruct (enqueueBegin idemKey _) as [[r|] idem1];
      simplify_eq; simpl in *; congruence.
  - destruct (enqueuing sys !! g) as [[idemKey|]|]; try done.
    destruct (decodeEnqueueRequest body) as [req|].
    + destruct (decide (freshUUID id0 _)); [|done].
      injection Hstep as <- <-. simpl in Hjob'.
      destruct (decide (id0 = id)) as [->|Hne].
      * rewrite lookup_insert_eq in Hjob'. injection Hjob' as <-.
        by exists g, body, (enq_Payload req).
      * rewrite lookup_insert_ne in Hjob' by done. congruence.
    + simplify_eq; simpl in *; congruence.
  - destruct (enqueuing sys !! g) as [[|idemKey id0]|]; try done.
    simplify_eq; simpl in *; congruence.
  - destruct (poll _ _ _ _ _ _) as [r jobs'] eqn:Hpoll.
    injection Hstep as <- <-. simpl in *.
    apply poll_cases in Hpoll
      as [[-> Hr]|(worker & id0 & job0 & -> & Hjob0 & Hel & -> & ->)];
      [congruence|].
    destruct (decide (id0 = id)) as [->|Hne]; [congruence|].
    rewrite lookup_insert_ne in Hjob' by done. congruence.
  - destruct (ack _ _ _ _) as [r jobs'] eqn:Hack.
    injection Hstep as <- <-. simpl in *.
    apply ack_cases in Hack
      as [[-> [code ->]]|(req & job0 & -> & Hjob0 & Hl & -> & ->)];
      [congruence|].
    destruct (decide (ack_JobID req = id)) as [Heq|Hne]; [congruence|].
    rewrite lookup_insert_ne in Hjob' by done. congruence.
  - destruct (fail _ _ _ _ _) as [r jobs'] eqn:Hfail.
    injection Hstep as <- <-. simpl in *.
    apply fail_cases in Hfail
      as [[-> [code ->]]|(req & job0 & -> & Hjob0 & Hl & Hcases)];
      [congruence|].
    destruct (decide (fail_JobID req = id)) as [Heq|Hne]; [congruence|].
    destruct Hcases as [(Hmax & -> & ->)|[(Hlt & delay & Hdelay & -> & ->)
                                         |(Hlt & Hdelay & -> & ->)]];
      rewrite lookup_insert_ne in Hjob' by done; congruence.
  - unfold sweeperTick, expireLeases in Hstep.
    pose proof (expireLoop_lookup now order (jobs (broker sys)) [] id) as Hlook.
    destruct (expireLoop now order _ []) as [ids jobs'].
    injection Hstep as <- <-. simpl in *.
    destruct Hlook as [Heq|(job0 & Hjob0 & _)]; congruence.
  - injection Hstep as <- <-. congruence.
Qed.

(** ** Invariants of the broker *)

Lemma newJob_ok id payload : JobOK id (newJob id payload).
Proof. split; simpl; try done; lia. Qed.

Lemma recordFailure_attempts job :
  0 <= Attempts job <= 3 → Attempts (recordFailure job) = Attempts job + 1.
Proof.
  intros Hr. simpl. apply add_in_range.
  unfold Int64.in_range, Int64.min_int, Int64.max_int. lia.
Qed.

Lemma JobStep_ok id job ev out job' :
  JobOK id job → JobStep id job ev out job' → JobOK id job'.
Proof.
  intros [Hkey Hmax Hatt Hdead] Hstep.
  assert (Attempts (recordFailure job) = Attempts job + 1) as Hrec
    by (apply recordFailure_attempts; lia).
  assert (State job = StateLeased → Attempts job < MaxTries job) as Hlive.
  { intros Hl. destruct (decide (Attempts job = MaxTries job)) as [He|]; [|lia].
    apply Hdead in He. congruence. }
  destruct Hstep as [method worker now order timedOut Hel
                    |method req now Hid Hl
                    |method req now draw Hid Hl Hge
                    |method req now draw delay Hid Hl Hlt Hdelay
                    |method req now draw Hid Hl Hlt Hdelay
                    |now order Hexp
                    |ev out Hout].
  - apply eligible_spec in Hel as [Hq _].
    split; simpl; try done. rewrite <- Hdead. split; congruence.
  - specialize (Hlive Hl). split; simpl; try done. split; [done|lia].
  - specialize (Hlive Hl). rewrite Hrec in Hge. simpl in Hrec.
    split; simpl; rewrite ?Hrec; [done|done|lia|]. split; [lia|done].
  - rewrite Hrec in Hlt. simpl in Hrec.
    split; simpl; rewrite ?Hrec; [done|done|lia|]. split; [done|lia].
  - (* with at most three tries the delay is always defined *)
    rewrite Hrec in Hlt, Hdelay.
    rewrite retry_delay_draw in Hdelay by lia. done.
  - unfold leaseExpired in Hexp.
    apply andb_true_iff in Hexp as [[Hl _]%andb_true_iff _].
    apply bool_decide_eq_true in Hl. specialize (Hlive Hl).
    split; simpl; try done. split; [done|lia].
  - done.
Qed.

Lemma init_ok : SysOK init.
Proof. split; simpl; intros *; by rewrite lookup_empty. Qed.

Lemma enqueueBegin_proceeds idemKey (idem idem1 : gmap string string) :
  enqueueBegin idemKey idem = (None, idem1) →
  (idemKey = "" ∧ idem1 = idem)
  ∨ (idemKey ≠ "" ∧ idem !! idemKey = None
     ∧ idem1 = <[idemKey := PENDING]> idem).
Proof.
  unfold enqueueBegin. destruct (decide (idemKey = "")).
  { intros [= <-]. by left. }
  destruct (idem !! idemKey) eqn:Hlook.
  - by destruct (decide (_ ≠ _)).
  - intros [= <-]. by right.
Qed.

Lemma enqueueBegin_replies idemKey (idem idem1 : gmap string string) r :
  enqueueBegin idemKey idem = (Some r, idem1) →
  idemKey ≠ "" ∧ idem1 = idem
  ∧ ((∃ id, idem !! idemKey = Some id ∧ id ≠ PENDING ∧ r = ReplyJobID id)
     ∨ (idem !! idemKey = Some PENDING ∧ r = Reply StatusConflict)).
Proof.
  unfold enqueueBegin. destruct (decide (idemKey = "")); [done|].
  destruct (idem !! idemKey) as [id|] eqn:Hlook; [|done].
  destruct (decide (id ≠ PENDING)) as [|Heq]; intros [= <- <-].
  - repeat split; try done. left. by exists id.
  - repeat split; try done. right. split; [|done].
    by destruct (decide (id = PENDING)) as [->|].
Qed.

Lemma step_keeps_jobs sys ev out sys' id :
  SysOK sys → step sys ev = Some (out, sys') →
  is_Some (jobs (broker sys) !! id) → is_Some (jobs (broker sys') !! id).
Proof.
  intros Hok Hstep [job Hjob].
  destruct (step_job sys ev out sys' id job) as (job' & Hjob' & _);
    [|done|done|by exists job'].
  intros id0 job0 Hjob0. by destruct (sys_jobs _ Hok _ _ Hjob0).
Qed.

Lemma step_job_event sys ev out sys' :
  jobEvent ev → step sys ev = Some (out, sys') →
  idem (broker sys') = idem (broker sys)
  ∧ enqueuing sys' = enqueuing sys.
Proof.
  intros Hev Hstep. destruct ev; try done; simpl in Hstep.
  - destruct (poll _ _ _ _ _ _). by injection Hstep as <- <-.
  - destruct (ack _ _ _ _). by injection Hstep as <- <-.
  - destruct (fail _ _ _ _ _). by injection Hstep as <- <-.
  - destruct (sweeperTick _ _ _). by injection Hstep as <- <-.
  - by injection Hstep as <- <-.
Qed.

Lemma step_jobs_ok sys ev out sys' :
  SysOK sys → step sys ev = Some (out, sys') →
  ∀ id job, jobs (broker sys') !! id = Some job → JobOK id job.
Proof.
  intros Hok Hstep id job' Hjob'.
  destruct (jobs (broker sys) !! id) as [job|] eqn:Hjob.
  - destruct (step_job sys ev out sys' id job) as (job'' & Hjob'' & Hjs);
      [|done|done|].
    { intros id0 job0 Hjob0. by destruct (sys_jobs _ Hok _ _ Hjob0). }
    rewrite Hjob' in Hjob''. injection Hjob'' as <-.
    eapply JobStep_ok; [|done]. by apply (sys_jobs _ Hok).
  - destruct (step_new_job sys ev out sys' id job' Hstep Hjob Hjob')
      as (g & body & payload & _ & -> & _).
    apply newJob_ok.
Qed.

Lemma step_ok sys ev out sys' :
  SysOK sys → step sys ev = Some (out, sys') → SysOK sys'.
Proof.
  intros Hok Hstep.
  pose proof (step_jobs_ok _ _ _ _ Hok Hstep) as Hjobs.
  pose proof (λ id, step_keeps_jobs _ _ _ _ id Hok Hstep) as Hkeep.
  assert (jobEvent ev → SysOK sys') as Hframe.
  { intros Hev. destruct (step_job_event _ _ _ _ Hev Hstep) as [Hidem Henq].
    destruct Hok as [_ Hpend Hone Hins Hcom].
    split; rewrite ?Hidem, ?Henq; try done.
    - intros g idemKey id Hg. destruct (Hins _ _ _ Hg). auto.
    - intros idemKey id Hid Hne. destruct (Hcom _ _ Hid Hne). auto. }
  destruct Hok as [_ Hpend Hone Hins Hcom].
  destruct ev; try (by apply Hframe); clear Hframe; simpl in Hstep.
  - (* the key check *)
    destruct (enqueuing sys !! g) eqn:Hg; [done|].
    destruct (decide (method ≠ MethodPost)).
    { injection Hstep as <- <-. by split. }
    destruct (enqueueBegin idemKey _) as [[r|] idem1] eqn:Hbegin.
    { injection Hstep as <- <-. by split. }
    injection Hstep as <- <-.
    apply enqueueBegin_proceeds in Hbegin as [[-> ->]|(Hkey & Hfree & ->)].
    + split; simpl; try done.
      * intros g0 pc [[<- <-]|[_ Hg0]]%lookup_insert_Some; [done|eauto].
      * intros g0 g0' pc pc'
          [[<- <-]|[? Hg0]]%lookup_insert_Some
          [[<- <-]|[? Hg0']]%lookup_insert_Some Heq Hne; simpl in *;
          try done; try congruence; eauto.
      * intros g0 idemKey id [[<- ?]|[_ Hg0]]%lookup_insert_Some; [done|eauto].
    + assert (∀ g0 pc, enqueuing sys !! g0 = Some pc → pcKey pc ≠ idemKey)
        as Hother.
      { intros g0 pc Hg0 Heq. subst idemKey.
        rewrite (Hpend _ _ Hg0 Hkey) in Hfree. done. }
      split; simpl; try done.
      * intros g0 pc [[<- <-]|[_ Hg0]]%lookup_insert_Some Hne; simpl.
        -- apply lookup_insert_eq.
        -- rewrite lookup_insert_ne by (apply not_eq_sym; eauto). eauto.
      * intros g0 g0' pc pc'
          [[<- <-]|[? Hg0]]%lookup_insert_Some
          [[<- <-]|[? Hg0']]%lookup_insert_Some Heq Hne; simpl in *;
          try done; eauto.
        -- by destruct (Hother _ _ Hg0').
        -- by destruct (Hother _ _ Hg0).
      * intros g0 key id [[<- ?]|[_ Hg0]]%lookup_insert_Some; [done|eauto].
      * intros key id [[<- <-]|[_ Hid]]%lookup_insert_Some Hne; [done|eauto].
  - (* decoding, then the insertion or the release *)
    destruct (enqueuing sys !! g) as [[idemKey|]|] eqn:Hg; try done.
    destruct (decodeEnqueueRequest body) as [req|].
    + destruct (decide (freshUUID id _)) as [[Hlen Hfresh]|]; [|done].
      injection Hstep as <- <-.
      split; simpl; try done.
      * intros g0 pc [[<- <-]|[_ Hg0]]%lookup_insert_Some Hne; simpl.
        -- by apply (Hpend g (Reserved idemKey)).
        -- eauto.
      * intros g0 g0' pc pc'
          [[<- <-]|[? Hg0]]%lookup_insert_Some
          [[<- <-]|[? Hg0']]%lookup_insert_Some Heq Hne; simpl in *;
          try done.
        -- by apply (Hone g g0' (Reserved idemKey) pc').
        -- by apply (Hone g0 g pc (Reserved idemKey)).
        -- eauto.
      * intros g0 key id0 [[<- [= <- <-]]|[_ Hg0]]%lookup_insert_Some.
        -- split; [done|]. rewrite lookup_insert_eq. eauto.
        -- destruct (Hins _ _ _ Hg0) as [? ?]. split; [done|].
           apply lookup_insert_is_Some'. by right.
      * intros key id0 Hid Hne. destruct (Hcom _ _ Hid Hne) as [? ?].
        split; [done|]. apply lookup_insert_is_Some'. by right.
    + injection Hstep as <- <-.
      assert (∀ g0 pc, g ≠ g0 → enqueuing sys !! g0 = Some pc →
                pcKey pc ≠ "" → pcKey pc ≠ idemKey) as Hother.
      { intros g0 pc Hne Hg0 Hk Heq. apply Hne.
        by apply (Hone g g0 (Reserved idemKey) pc); simpl; try congruence. }
      assert (∀ key, key ≠ idemKey →
                enqueueRelease idemKey (idem (broker sys)) !! key
                = idem (broker sys) !! key) as Hrel.
      { intros key Hne. unfold enqueueRelease.
        repeat (case_decide || case_match); try done.
        by rewrite lookup_delete_ne. }
      assert (∀ key v, enqueueRelease idemKey (idem (broker sys)) !! key
                       = Some v → idem (broker sys) !! key = Some v) as Hrel'.
      { intros key v. unfold enqueueRelease.
        repeat (case_decide || case_match); try done.
        by intros [_ ?]%lookup_delete_Some. }
      split; simpl; try done.
      * intros g0 pc [Hne Hg0]%lookup_delete_Some Hk.
        rewrite Hrel by eauto. eauto.
      * intros g0 g0' pc pc' [? Hg0]%lookup_delete_Some
          [? Hg0']%lookup_delete_Some. eauto.
      * intros g0 key id0 [? Hg0]%lookup_delete_Some. eauto.
      * intros key id0 Hid%Hrel' Hne. eauto.
  - (* the commit *)
    destruct (enqueuing sys !! g) as [[|idemKey id]|] eqn:Hg; try done.
    injection Hstep as <- <-.
    assert (∀ g0 pc, g ≠ g0 → enqueuing sys !! g0 = Some pc →
              pcKey pc ≠ "" → pcKey pc ≠ idemKey) as Hother.
    { intros g0 pc Hne Hg0 Hk Heq. apply Hne.
      by apply (Hone g g0 (Inserted idemKey id) pc); simpl; try congruence. }
    assert (∀ key, key ≠ idemKey →
              enqueueCommit idemKey id (idem (broker sys)) !! key
              = idem (broker sys) !! key) as Hcommit.
    { intros key Hne. unfold enqueueCommit. case_decide; [done|].
      by rewrite lookup_insert_ne. }
    split; simpl; try done.
    + intros g0 pc [Hne Hg0]%lookup_delete_Some Hk.
      rewrite Hcommit by eauto. eauto.
    + intros g0 g0' pc pc' [? Hg0]%lookup_delete_Some
        [? Hg0']%lookup_delete_Some. eauto.
    + intros g0 key id0 [? Hg0]%lookup_delete_Some. eauto.
    + intros key id0 Hid Hne.
      destruct (decide (key = idemKey)) as [->|Hk].
      * unfold enqueueCommit in Hid. case_decide; [eauto|].
        rewrite lookup_insert_eq in Hid. injection Hid as <-. eauto.
      * rewrite Hcommit in Hid by done. eauto.
Qed.

Lemma exec_ok evs : ∀ sys outs sys',
  SysOK sys → exec sys evs = Some (outs, sys') → SysOK sys'.
Proof.
  induction evs as [|ev evs IH]; intros sys outs sys' Hok; simpl.
  { by intros [= <- <-]. }
  destruct (step sys ev) as [[out sys1]|] eqn:Hstep; [|done].
  destruct (exec sys1 evs) as [[outs1 sys2]|] eqn:Hexec; [|done].
  intros [= <- <-]. eapply IH; [|done]. by eapply step_ok.
Qed.

Lemma reachable_ok sys : reachable sys → SysOK sys.
Proof. intros (evs & outs & Hexec). eapply exec_ok; [apply init_ok|done]. Qed.

Lemma exec_app evs1 : ∀ evs2 sys outs sys',
  exec sys (evs1 ++ evs2) = Some (outs, sys') ↔
  ∃ outs1 sys1 outs2,
    exec sys evs1 = Some (outs1, sys1) ∧ exec sys1 evs2 = Some (outs2, sys')
    ∧ outs = (outs1 ++ outs2)%list.
Proof.
  induction evs1 as [|ev evs1 IH]; intros evs2 sys outs sys'; simpl.
  { split.
    - intros Hexec. by exists [], sys, outs.
    - by intros (outs1 & sys1 & outs2 & [= <- <-] & Hexec & ->). }
  destruct (step sys ev) as [[out sys1]|]; [|split; [done|by intros (?&?&?&?&?)]].
  destruct (exec sys1 (evs1 ++ evs2)) as [[outs0 sys0]|] eqn:Hexec.
  - apply IH in Hexec as (outs1 & sys2 & outs2 & -> & Hexec2 & ->). split.
    + intros [= <- <-]. by exists (out :: outs1), sys2, outs2.
    + intros (outs1' & sys1' & outs2' & [= <- <-] & Hexec2' & ->).
      rewrite Hexec2 in Hexec2'. by injection Hexec2' as <- <-.
  - split; [done|]. intros (outs1' & sys1' & outs2' & Hexec1 & Hexec2 & ->).
    destruct (exec sys1 evs1) as [[outs1 sys2]|] eqn:Hexec1'; [|done].
    injection Hexec1 as <- <-.
    assert (exec sys1 (evs1 ++ evs2) = Some ((outs1 ++ outs2')%list, sys'))
      as Hall by (apply IH; by exists outs1, sys2, outs2').
    congruence.
Qed.

Lemma reachable_step sys ev out sys' :
  reachable sys → step sys ev = Some (out, sys') → reachable sys'.
Proof.
  intros (evs & outs & Hexec) Hstep.
  exists (evs ++ [ev])%list, (outs ++ [out])%list. apply exec_app.
  exists outs, sys, [out]. repeat split; try done. simpl. by rewrite Hstep.
Qed.

(** In any interleaving, the request whose body does not decode gives its
    key back: it is answered 400, the store is as it was, and the key is
    free again. *)
Lemma undecodable_body_released sys g idemKey body id out sys' :
  SysOK sys → enqueuing sys !! g = Some (Reserved idemKey) →
  decodeEnqueueRequest body = None →
  step sys (EnqueueDecode g body id) = Some (out, sys') →
  reply out = Some (Reply StatusBadRequest)
  ∧ jobs (broker sys') = jobs (broker sys)
  ∧ (idemKey ≠ "" → idem (broker sys') !! idemKey = None)
  ∧ enqueuing sys' !! g = None.
Proof.
  intros Hok Hg Hdec Hstep. cbn [step] in Hstep.
  rewrite Hg, Hdec in Hstep. injection Hstep as <- <-. simpl.
  repeat split; [|apply lookup_delete_eq].
  intros Hkey. pose proof (sys_pending _ Hok _ _ Hg Hkey) as Hpending.
  simpl in Hpending. unfold enqueueRelease.
  rewrite decide_False by done. rewrite Hpending.
  rewrite decide_True by done. apply lookup_delete_eq.
Qed.

(** ** Attempts and the dead-letter state *)

(** C6. In every state the broker can reach, every job has attempts at most
    max tries, and it is DEAD exactly when attempts equals max tries. A
    transition makes a job DEAD exactly when it raises attempts to max
    tries; that transition is a [/fail] on the job, answered Success, which
    adds one to attempts. A job that is DONE or DEAD is never changed
    again, so attempts cannot grow past max tries. *)
Theorem attempts_bounded_dead_on_time :
  (∀ sys id job,
     reachable sys → jobs (broker sys) !! id = Some job →
     Attempts job <= MaxTries job
     ∧ (State job = StateDead ↔ Attempts job = MaxTries job))
  ∧ (∀ sys ev out sys' id job job',
       reachable sys → step sys ev = Some (out, sys') →
       jobs (broker sys) !! id = Some job →
       jobs (broker sys') !! id = Some job' →
       (State job ≠ StateDead ∧ State job' = StateDead
        ↔ Attempts job < MaxTries job ∧ Attempts job' = MaxTries job')
       ∧ (State job ≠ StateDead → State job' = StateDead →
          Attempts job' = Attempts job + 1
          ∧ ∃ method req now draw,
              ev = Fail method (Some req) now draw ∧ fail_JobID req = id
              ∧ reply out = Some (Reply StatusOK))
       ∧ (State job = StateDone ∨ State job = StateDead → job' = job)).
Proof.
  split.
  - intros sys id job Hreach%reachable_ok Hjob.
    destruct (sys_jobs _ Hreach _ _ Hjob) as [_ _ Hatt Hdead]. split; [lia|done].
  - intros sys ev out sys' id job job' Hreach%reachable_ok Hstep Hjob Hjob'.
    pose proof (sys_jobs _ Hreach _ _ Hjob) as Hok.
    pose proof (step_jobs_ok _ _ _ _ Hreach Hstep _ _ Hjob') as Hok'.
    destruct (step_job sys ev out sys' id job) as (job'' & Hjob'' & Hjs);
      [|done|done|].
    { intros id0 job0 Hjob0. by destruct (sys_jobs _ Hreach _ _ Hjob0). }
    rewrite Hjob' in Hjob''. injection Hjob'' as <-.
    destruct Hok as [_ Hmax Hatt Hdead], Hok' as [_ Hmax' Hatt' Hdead'].
    split; [|split].
    + rewrite Hdead, Hdead'. lia.
    + intros Hlive Hdied.
      destruct Hjs as [method worker now order timedOut Hel
                      |method req now Hid Hl
                      |method req now draw Hid Hl Hge
                      |method req now draw delay Hid Hl Hlt Hdelay
                      |method req now draw Hid Hl Hlt Hdelay
                      |now order Hexp
                      |ev out Hout]; simpl in Hdied; try done; try congruence.
      split; [apply recordFailure_attempts; lia|].
      by exists method, req, now, draw.
    + intros Hfinal.
      destruct Hjs as [method worker now order timedOut Hel
                      |method req now Hid Hl
                      |method req now draw Hid Hl Hge
                      |method req now draw delay Hid Hl Hlt Hdelay
                      |method req now draw Hid Hl Hlt Hdelay
                      |now order Hexp
                      |ev out Hout]; try done;
        try (destruct Hfinal; congruence).
      * apply eligible_spec in Hel as [Hq _]. destruct Hfinal; congruence.
      * unfold leaseExpired in Hexp.
        apply andb_true_iff in Hexp as [[Hl _]%andb_true_iff _].
        apply bool_decide_eq_true in Hl. destruct Hfinal; congruence.
Qed.

(** ** The fencing token *)

(** A job record in a reply is the record the store now holds under that
    id, and the job existed before. *)
Lemma step_reply_job sys ev out sys' r :
  SysOK sys → step sys ev = Some (out, sys') →
  reply out = Some (ReplyJob r) →
  isPoll ev
  ∧ jobs (broker sys') !! ID r = Some r
  ∧ is_Some (jobs (broker sys) !! ID r).
Proof.
  intros Hok Hstep Hr. destruct ev; simpl in Hstep.
  - destruct (enqueuing sys !! g); [done|].
    destruct (decide (method ≠ MethodPost)); [by simplify_eq|].
    destruct (enqueueBegin idemKey _) as [[r0|] idem1] eqn:Hbegin;
      [|by simplify_eq].
    apply enqueueBegin_replies in Hbegin as (_ & _ & [(id & _ & _ & ->)|[_ ->]]);
      by simplify_eq.
  - destruct (enqueuing sys !! g) as [[idemKey|]|]; try done.
    destruct (decodeEnqueueRequest body); [|by simplify_eq].
    destruct (decide (freshUUID id _)); by simplify_eq.
  - destruct (enqueuing sys !! g) as [[|idemKey id]|]; try done.
    by simplify_eq.
  - destruct (poll _ _ _ _ _ _) as [r0 jobs'] eqn:Hpoll.
    injection Hstep as <- <-. simpl in *. injection Hr as ->.
    apply poll_cases in Hpoll
      as [[-> Hr]|(worker & id0 & job0 & -> & Hjob0 & Hel & [= ->] & ->)].
    { by destruct (Hr r). }
    destruct (sys_jobs _ Hok _ _ Hjob0) as [Hkey _ _ _]. simpl.
    rewrite Hkey, lookup_insert_eq. eauto.
  - destruct (ack _ _ _ _) as [r0 jobs'] eqn:Hack.
    injection Hstep as <- <-. simpl in *. injection Hr as ->.
    apply ack_cases in Hack as [[_ [code ?]]|(? & ? & _ & _ & _ & ? & _)]; done.
  - destruct (fail _ _ _ _ _) as [r0 jobs'] eqn:Hfail.
    injection Hstep as <- <-. simpl in *. injection Hr as ->.
    apply fail_cases in Hfail as [[_ [code ?]]|(? & ? & _ & _ & _ & Hcases)];
      [done|].
    destruct Hcases as [(_ & ? & _)|[(_ & ? & _ & ? & _)|(_ & _ & ? & _)]]; done.
  - destruct (sweeperTick _ _ _). by simplify_eq.
  - by simplify_eq.
Qed.

(** One transition either hands out the next lease id of the job, and
    then it is a poll, or leaves the lease id alone. *)
Lemma step_lease sys ev out sys' id :
  SysOK sys → step sys ev = Some (out, sys') →
  0 <= currentLease sys id < Int64.max_int →
  (isPoll ev ∧ leasedTo id out = Some (currentLease sys id + 1)
   ∧ currentLease sys' id = currentLease sys id + 1)
  ∨ (leasedTo id out = None ∧ currentLease sys' id = currentLease sys id).
Proof.
  intros Hok Hstep Hrange. unfold currentLease in *.
  destruct (jobs (broker sys) !! id) as [job|] eqn:Hjob.
  - destruct (step_job sys ev out sys' id job) as (job' & -> & Hjs);
      [|done|done|].
    { intros id0 job0 Hjob0. by destruct (sys_jobs _ Hok _ _ Hjob0). }
    destruct (sys_jobs _ Hok _ _ Hjob) as [Hkey _ _ _].
    destruct Hjs; try (by right).
    left. unfold leasedTo; simpl. rewrite decide_True by done.
    rewrite add_in_range; [done|].
    unfold Int64.in_range, Int64.min_int, Int64.max_int in *. lia.
  - right. split.
    + unfold leasedTo. destruct (reply out) as [[| |r| |]|] eqn:Hr; try done.
      destruct (step_reply_job _ _ _ _ _ Hok Hstep Hr) as (_ & _ & [j Hj]).
      rewrite decide_False; [done|]. intros Heq. congruence.
    + destruct (jobs (broker sys') !! id) as [job'|] eqn:Hjob'; [|done].
      by destruct (step_new_job _ _ _ _ _ _ Hstep Hjob Hjob')
        as (g & body & payload & _ & -> & _).
Qed.

Lemma leasesOf_cons id out outs :
  leasesOf id (out :: outs)
  = match leasedTo id out with
    | Some leaseID => leaseID :: leasesOf id outs
    | None => leasesOf id outs
    end.
Proof. done. Qed.

Lemma exec_leases id evs : ∀ sys outs sys',
  SysOK sys → exec sys evs = Some (outs, sys') →
  0 <= currentLease sys id →
  currentLease sys id + Z.of_nat (length evs) <= Int64.max_int →
  leasesOf id outs
    = seqZ (currentLease sys id + 1) (currentLease sys' id - currentLease sys id)
  ∧ currentLease sys id <= currentLease sys' id
    <= currentLease sys id + Z.of_nat (length evs).
Proof.
  induction evs as [|ev evs IH]; intros sys outs sys' Hok; simpl.
  { intros [= <- <-] _ _. rewrite Z.sub_diag. split; [done|lia]. }
  destruct (step sys ev) as [[out sys1]|] eqn:Hstep; [|done].
  destruct (exec sys1 evs) as [[outs1 sys2]|] eqn:Hexec; [|done].
  intros [= <- <-] Hpos Hbound.
  pose proof (step_ok _ _ _ _ Hok Hstep) as Hok1.
  destruct (step_lease sys ev out sys1 id Hok Hstep ltac:(lia))
    as [(_ & Hout & Hnext)|[Hout Hnext]].
  - destruct (IH _ _ _ Hok1 Hexec) as [Hrest Hle]; [lia..|].
    rewrite leasesOf_cons, Hout, Hrest, Hnext.
    split; [|lia].
    rewrite (seqZ_cons (currentLease sys id + 1)) by lia.
    f_equal. f_equal; lia.
  - destruct (IH _ _ _ Hok1 Hexec) as [Hrest Hle]; [lia..|].
    rewrite leasesOf_cons, Hout, Hrest, Hnext.
    split; [done|lia].
Qed.

(** C7. A job is created with lease id 0. Over any run of the broker (of
    fewer than 2^63 transitions) the lease ids that the replies of [/poll]
    hand out for a job are 1, 2, 3, ... in this order, up to the lease id
    the store holds for it: the first lease returns 1, the lease id never
    decreases, and it grows by exactly one on each poll that leases the
    job and on no other transition; a pass of the sweeper leaves it as it
    is. *)
Theorem lease_id_counts_leases :
  (∀ id payload, LeaseID (newJob id payload) = 0)
  ∧ (∀ evs outs sys id,
       exec init evs = Some (outs, sys) →
       Z.of_nat (length evs) <= Int64.max_int →
       leasesOf id outs = seqZ 1 (currentLease sys id))
  ∧ (∀ evs outs sys ev out sys' id,
       exec init evs = Some (outs, sys) →
       Z.of_nat (length evs) < Int64.max_int →
       step sys ev = Some (out, sys') →
       ((isPoll ev ∧ leasedTo id out = Some (currentLease sys id + 1)
         ∧ currentLease sys' id = currentLease sys id + 1)
        ∨ (leasedTo id out = None
           ∧ currentLease sys' id = currentLease sys id))
       ∧ (jobs (broker sys) !! id = None →
          ∀ job', jobs (broker sys') !! id = Some job' → LeaseID job' = 0)
       ∧ (∀ now order, ev = Sweep now order →
          currentLease sys' id = currentLease sys id)).
Proof.
  assert (Hinit : ∀ id, currentLease init id = 0).
  { intros id. unfold currentLease, init; simpl. by rewrite lookup_empty. }
  split; [done|]. split.
  - intros evs outs sys id Hexec Hlen.
    destruct (exec_leases id evs init outs sys init_ok Hexec) as [Hl _];
      rewrite ?Hinit; [lia..|].
    rewrite Hl, Hinit. f_equal. lia.
  - intros evs outs sys ev out sys' id Hexec Hlen Hstep.
    assert (SysOK sys) as Hok by (eapply exec_ok; [apply init_ok|done]).
    destruct (exec_leases id evs init outs sys init_ok Hexec) as [_ Hle];
      rewrite ?Hinit; [lia..|]. rewrite Hinit in Hle.
    pose proof (step_lease sys ev out sys' id Hok Hstep ltac:(lia)) as Hcases.
    split; [done|]. split.
    + intros Hnone job' Hjob'.
      by destruct (step_new_job _ _ _ _ _ _ Hstep Hnone Hjob')
        as (g & body & payload & _ & -> & _).
    + intros now order ->. destruct Hcases as [([] & _)|[_ ?]]. done.
Qed.

(** ** Idempotent enqueue *)

Lemma uuid_not_PENDING id : String.length id = 36%nat → id ≠ PENDING.
Proof. by intros Hlen ->. Qed.

Lemma createdFor_none idemKey log :
  (∀ id, (idemKey, id) ∉ log) → createdFor idemKey log = [].
Proof.
  intros Hnone. unfold createdFor.
  destruct (filter _ log) as [|[key id] rest] eqn:Hfilter; [done|].
  assert ((key, id) ∈ filter (λ c : string * string, c.1 = idemKey) log)
    as [Hkey Hin]%list_elem_of_filter
    by (rewrite Hfilter; apply list_elem_of_here).
  simpl in Hkey. subst key. by destruct (Hnone id).
Qed.

Lemma init_log : LogOK init [].
Proof.
  split; simpl; intros *; rewrite ?lookup_empty; try done.
  - by intros ?%elem_of_nil.
  - intros _. simpl. lia.
Qed.

Lemma step_log sys log ev out sys' :
  SysOK sys → LogOK sys log → step sys ev = Some (out, sys') →
  LogOK sys' (log ++ option_list (created sys ev)).
Proof.
  intros Hok Hlog Hstep.
  assert (jobEvent ev → LogOK sys' (log ++ option_list (created sys ev)))
    as Hframe.
  { intros Hev. destruct (step_job_event _ _ _ _ Hev Hstep) as [Hidem Henq].
    replace (created sys ev) with (@None (string * string))
      by (by destruct ev).
    simpl. rewrite app_nil_r. destruct Hlog as [H1 H2 H3 H4].
    split; rewrite ?Hidem, ?Henq; done. }
  destruct Hok as [_ Hpend Hone Hins Hcom].
  destruct Hlog as [Hentry Honce Hcommitted Hinserted].
  destruct ev; try (by apply Hframe); clear Hframe; simpl in Hstep.
  - (* the key check *)
    simpl. rewrite app_nil_r.
    destruct (enqueuing sys !! g) eqn:Hg; [done|].
    destruct (decide (method ≠ MethodPost)).
    { injection Hstep as <- <-. by split. }
    destruct (enqueueBegin idemKey _) as [[r|] idem1] eqn:Hbegin.
    { injection Hstep as <- <-. by split. }
    injection Hstep as <- <-.
    assert (∀ g0 key id, enqueuing sys !! g0 = Some (Inserted key id) →
              <[g := Reserved idemKey]> (enqueuing sys) !! g0
              = Some (Inserted key id)) as Hstay.
    { intros g0 key id Hg0. rewrite lookup_insert_ne; [done|].
      intros ->. congruence. }
    apply enqueueBegin_proceeds in Hbegin as [[-> ->]|(Hkey & Hfree & ->)].
    + split; simpl; try done.
      * intros key id Hin Hne.
        destruct (Hentry _ _ Hin Hne) as [Hlen [Hid|[g0 Hg0]]]; eauto.
      * intros g0 key id [[_ ?]|[_ Hg0]]%lookup_insert_Some; [done|eauto].
    + split; simpl; try done.
      * intros key id Hin Hne.
        destruct (Hentry _ _ Hin Hne) as [Hlen [Hid|[g0 Hg0]]];
          (split; [done|]); [left|eauto].
        rewrite lookup_insert_ne; [done|]. intros ->. congruence.
      * intros key id [[_ <-]|[_ Hid]]%lookup_insert_Some Hne; [done|eauto].
      * intros g0 key id [[_ ?]|[_ Hg0]]%lookup_insert_Some; [done|eauto].
  - (* decoding, then the insertion or the release *)
    simpl. destruct (enqueuing sys !! g) as [[idemKey|]|] eqn:Hg; try done.
    assert (idemKey ≠ "" → ∀ id0, (idemKey, id0) ∉ log) as Hnone.
    { intros Hkey id0 Hin.
      pose proof (Hpend _ _ Hg Hkey) as Hp. simpl in Hp.
      destruct (Hentry _ _ Hin Hkey) as [Hlen [Hid|[g0 Hg0]]].
      - rewrite Hp in Hid. injection Hid as <-. done.
      - assert (g = g0) as <-
          by (by apply (Hone g g0 (Reserved idemKey) (Inserted idemKey id0))).
        congruence. }
    destruct (decodeEnqueueRequest body) as [req|].
    + destruct (decide (freshUUID id _)) as [[Hlen Hfresh]|]; [|done].
      injection Hstep as <- <-. simpl.
      split; simpl.
      * intros key id0 [Hin|[= -> ->]%list_elem_of_singleton]%elem_of_app Hne.
        -- destruct (Hentry _ _ Hin Hne) as [Hlen0 [Hid|[g0 Hg0]]];
             (split; [done|]); [by left|right].
           exists g0. rewrite lookup_insert_ne; [done|]. intros ->. congruence.
        -- split; [done|]. right. exists g. apply lookup_insert_eq.
      * intros key Hne. unfold createdFor. rewrite filter_app.
        destruct (decide (idemKey = key)) as [->|Hother].
        -- fold (createdFor key log). rewrite createdFor_none by auto.
           rewrite filter_cons_True by done. simpl. lia.
        -- rewrite filter_cons_False by done. rewrite filter_nil, app_nil_r.
           by apply Honce.
      * intros key id0 Hid Hne. apply elem_of_app. left. eauto.
      * intros g0 key id0 [[_ [= <- <-]]|[_ Hg0]]%lookup_insert_Some;
          apply elem_of_app; [right|left; eauto].
        apply list_elem_of_here.
    + injection Hstep as <- <-. simpl. rewrite app_nil_r.
      assert (∀ key v, enqueueRelease idemKey (idem (broker sys)) !! key
                       = Some v → idem (broker sys) !! key = Some v) as Hrel'.
      { intros key v. unfold enqueueRelease.
        repeat (case_decide || case_match); try done.
        by intros [_ ?]%lookup_delete_Some. }
      assert (∀ key, key ≠ idemKey →
                enqueueRelease idemKey (idem (broker sys)) !! key
                = idem (broker sys) !! key) as Hrel.
      { intros key Hne. unfold enqueueRelease.
        repeat (case_decide || case_match); try done.
        by rewrite lookup_delete_ne. }
      split; simpl; try done.
      * intros key id0 Hin Hne.
        destruct (Hentry _ _ Hin Hne) as [Hlen [Hid|[g0 Hg0]]];
          (split; [done|]); [left|right].
        -- rewrite Hrel; [done|]. intros ->. by destruct (Hnone Hne id0).
        -- exists g0. rewrite lookup_delete_ne; [done|]. intros ->. congruence.
      * intros key id0 Hid%Hrel' Hne. eauto.
      * intros g0 key id0 [_ Hg0]%lookup_delete_Some. eauto.
  - (* the commit *)
    simpl. rewrite app_nil_r.
    destruct (enqueuing sys !! g) as [[|idemKey id]|] eqn:Hg; try done.
    injection Hstep as <- <-.
    split; simpl; try done.
    + intros key id0 Hin Hne.
      destruct (Hentry _ _ Hin Hne) as [Hlen [Hid|[g0 Hg0]]];
        (split; [done|]).
      * left. unfold enqueueCommit. case_decide; [done|].
        rewrite lookup_insert_ne; [done|]. intros ->.
        pose proof (Hpend _ _ Hg Hne) as Hp. simpl in Hp.
        rewrite Hp in Hid. injection Hid as <-. done.
      * destruct (decide (g0 = g)) as [->|Hg0g].
        -- rewrite Hg in Hg0. injection Hg0 as -> ->. left.
           unfold enqueueCommit. rewrite decide_False by done.
           apply lookup_insert_eq.
        -- right. exists g0. by rewrite lookup_delete_ne.
    + intros key id0 Hid Hne. unfold enqueueCommit in Hid.
      case_decide; [eauto|].
      apply lookup_insert_Some in Hid as [[<- <-]|[_ Hid]]; eauto.
    + intros g0 key id0 [_ Hg0]%lookup_delete_Some. eauto.
Qed.

Lemma exec_log evs : ∀ sys log outs sys',
  SysOK sys → LogOK sys log → exec sys evs = Some (outs, sys') →
  LogOK sys' (log ++ creations sys evs).
Proof.
  induction evs as [|ev evs IH]; intros sys log outs sys' Hok Hlog; simpl.
  { intros [= <- <-]. by rewrite app_nil_r. }
  destruct (step sys ev) as [[out sys1]|] eqn:Hstep; [|done].
  destruct (exec sys1 evs) as [[outs1 sys2]|] eqn:Hexec; [|done].
  intros [= <- <-]. rewrite app_assoc.
  eapply IH; [by eapply step_ok|by eapply step_log|done].
Qed.

(** A committed key stays committed to the same job. *)
Lemma committed_step sys ev out sys' idemKey id :
  SysOK sys → step sys ev = Some (out, sys') →
  idemKey ≠ "" → idem (broker sys) !! idemKey = Some id → id ≠ PENDING →
  idem (broker sys') !! idemKey = Some id.
Proof.
  intros Hok Hstep Hkey Hid Hne.
  assert (jobEvent ev → idem (broker sys') !! idemKey = Some id) as Hframe.
  { intros Hev. destruct (step_job_event _ _ _ _ Hev Hstep) as [-> _]. done. }
  assert (∀ g pc, enqueuing sys !! g = Some pc → pcKey pc ≠ idemKey) as Hother.
  { intros g pc Hg Heq. subst idemKey.
    rewrite (sys_pending _ Hok _ _ Hg Hkey) in Hid. by injection Hid as <-. }
  destruct ev; try (by apply Hframe); clear Hframe; simpl in Hstep.
  - destruct (enqueuing sys !! g) eqn:Hg; [done|].
    destruct (decide (method ≠ MethodPost)); [by simplify_eq|].
    destruct (enqueueBegin idemKey0 _) as [[r|] idem1] eqn:Hbegin;
      [by simplify_eq|].
    injection Hstep as <- <-. simpl.
    apply enqueueBegin_proceeds in Hbegin as [[-> ->]|(_ & Hfree & ->)];
      [done|].
    rewrite lookup_insert_ne; [done|]. intros ->. congruence.
  - destruct (enqueuing sys !! g) as [[idemKey0|]|] eqn:Hg; try done.
    specialize (Hother _ _ Hg). simpl in Hother.
    destruct (decodeEnqueueRequest body).
    + destruct (decide (freshUUID id0 _)); by simplify_eq.
    + injection Hstep as <- <-. simpl. unfold enqueueRelease.
      repeat (case_decide || case_match); try done.
      by rewrite lookup_delete_ne.
  - destruct (enqueuing sys !! g) as [[|idemKey0 id0]|] eqn:Hg; try done.
    specialize (Hother _ _ Hg). simpl in Hother.
    injection Hstep as <- <-. simpl. unfold enqueueCommit.
    case_decide; [done|]. by rewrite lookup_insert_ne.
Qed.

Lemma committed_exec evs : ∀ sys outs sys' idemKey id,
  SysOK sys → exec sys evs = Some (outs, sys') →
  idemKey ≠ "" → idem (broker sys) !! idemKey = Some id → id ≠ PENDING →
  idem (broker sys') !! idemKey = Some id.
Proof.
  induction evs as [|ev evs IH]; intros sys outs sys' idemKey id Hok; simpl.
  { by intros [= <- <-]. }
  destruct (step sys ev) as [[out sys1]|] eqn:Hstep; [|done].
  destruct (exec sys1 evs) as [[outs1 sys2]|] eqn:Hexec; [|done].
  intros [= <- <-] Hkey Hid Hne.
  eapply IH; [by eapply step_ok|done|done| |done].
  by eapply committed_step.
Qed.

Lemma createdFor_committed sys log idemKey id :
  SysOK sys → LogOK sys log →
  idemKey ≠ "" → idem (broker sys) !! idemKey = Some id → id ≠ PENDING →
  createdFor idemKey log = [(idemKey, id)].
Proof.
  intros Hok [Hentry Honce Hcommitted Hinserted] Hkey Hid Hne.
  pose proof (Hcommitted _ _ Hid Hne) as Hin.
  pose proof (Honce _ Hkey) as Hlen.
  assert ((idemKey, id) ∈ createdFor idemKey log) as Hin'
    by (by apply list_elem_of_filter).
  destruct (createdFor idemKey log) as [|c [|c' rest]]; simpl in Hlen; [|..].
  - by apply elem_of_nil in Hin'.
  - by apply list_elem_of_singleton in Hin' as <-.
  - lia.
Qed.

(** The three transitions of one [/enqueue], taken one after the other, are
    the handler [enqueue]. *)
Lemma enqueue_in_three_steps sys g idemKey body id :
  enqueuing sys !! g = None →
  freshUUID id (jobs (broker sys)) →
  decodeEnqueueRequest body ≠ None →
  (∀ existing, idem (broker sys) !! idemKey = Some existing → idemKey = "") →
  ∃ outs sys',
    exec sys [EnqueueBegin g MethodPost idemKey; EnqueueDecode g body id;
              EnqueueCommit g] = Some (outs, sys')
    ∧ enqueue MethodPost idemKey body id (broker sys)
      = (ReplyJobID id, [Signal], broker sys')
    ∧ omap reply outs = [ReplyJobID id]
    ∧ enqueuing sys' = enqueuing sys.
Proof.
  intros Hg Hfresh Hbody Hfree.
  destruct (decodeEnqueueRequest body) as [req|] eqn:Hdec; [clear Hbody|done].
  assert (∃ idem1, enqueueBegin idemKey (idem (broker sys)) = (None, idem1))
    as [idem1 Hbegin].
  { unfold enqueueBegin. destruct (decide (idemKey = "")); [eauto|].
    destruct (idem (broker sys) !! idemKey) as [existing|] eqn:Hex; [|eauto].
    by destruct (Hfree existing). }
  unfold enqueue. rewrite decide_False by (by intros []).
  rewrite Hbegin, Hdec.
  set (sys1 := {| broker := {| jobs := jobs (broker sys); idem := idem1 |};
                  enqueuing := <[g := Reserved idemKey]> (enqueuing sys) |}).
  set (sys2 := {| broker := {| jobs := <[id := newJob id (enq_Payload req)]>
                                         (jobs (broker sys));
                               idem := idem1 |};
                  enqueuing := <[g := Inserted idemKey id]> (enqueuing sys1) |}).
  set (sys3 := {| broker := {| jobs := jobs (broker sys2);
                               idem := enqueueCommit idemKey id idem1 |};
                  enqueuing := delete g (enqueuing sys2) |}).
  assert (step sys (EnqueueBegin g MethodPost idemKey)
          = Some (mkOutput None [], sys1)) as Hstep1.
  { cbn [step]. rewrite Hg. rewrite decide_False by (by intros []).
    by rewrite Hbegin. }
  assert (step sys1 (EnqueueDecode g body id)
          = Some (mkOutput None [Signal], sys2)) as Hstep2.
  { cbn [step]. subst sys1. cbn [enqueuing broker jobs].
    rewrite lookup_insert_eq, Hdec. by rewrite decide_True. }
  assert (step sys2 (EnqueueCommit g)
          = Some (mkOutput (Some (ReplyJobID id)) [], sys3)) as Hstep3.
  { cbn [step]. subst sys2. cbn [enqueuing]. by rewrite lookup_insert_eq. }
  exists [mkOutput None []; mkOutput None [Signal];
          mkOutput (Some (ReplyJobID id)) []], sys3.
  split; [|split; [done|split; [done|]]].
  - cbn [exec]. by rewrite Hstep1, Hstep2, Hstep3.
  - subst sys3 sys2 sys1. cbn [enqueuing].
    rewrite insert_insert_eq, delete_insert_eq. by apply delete_id.
Qed.

(** Scenario S4 on the handler itself: the same key twice in a row, with
    different bodies. *)
Lemma enqueue_twice idemKey body1 body2 id1 id2 b :
  idemKey ≠ "" → idem b !! idemKey = None →
  decodeEnqueueRequest body1 ≠ None → String.length id1 = 36%nat →
  ∃ b1,
    enqueue MethodPost idemKey body1 id1 b = (ReplyJobID id1, [Signal], b1)
    ∧ is_Some (jobs b1 !! id1)
    ∧ enqueue MethodPost idemKey body2 id2 b1 = (ReplyJobID id1, [], b1).
Proof.
  intros Hkey Hfree Hbody Hlen.
  destruct (decodeEnqueueRequest body1) as [req|] eqn:Hdec; [clear Hbody|done].
  unfold enqueue at 1. rewrite decide_False by (by intros []).
  unfold enqueueBegin. rewrite decide_False by done. rewrite Hfree, Hdec.
  eexists. split; [done|]. split.
  - simpl. rewrite lookup_insert_eq. eauto.
  - apply enqueue_known_key_skips_decoding; [done| |by apply uuid_not_PENDING].
    simpl. unfold enqueueCommit. rewrite decide_False by done.
    apply lookup_insert_eq.
Qed.

(** C4. Once a request with a non-empty idempotency key has committed job
    [id], every later [/enqueue] with that key, whatever else happened in
    between, is answered with the same [id] and changes nothing; the job
    [id] is in the store, and it is the only job that was ever created for
    the key. In every reachable state, a key that the registry maps to a
    job id (not PENDING) maps to a job that is in the store. *)
Theorem idempotent_enqueue :
  (∀ evs1 outs1 sys1 g idemKey id out1 sys1' evs2 outs2 sys2 g2 out2 sys2',
     idemKey ≠ "" →
     exec init evs1 = Some (outs1, sys1) →
     enqueuing sys1 !! g = Some (Inserted idemKey id) →
     step sys1 (EnqueueCommit g) = Some (out1, sys1') →
     exec sys1' evs2 = Some (outs2, sys2) →
     step sys2 (EnqueueBegin g2 MethodPost idemKey) = Some (out2, sys2') →
     reply out1 = Some (ReplyJobID id)
     ∧ reply out2 = Some (ReplyJobID id)
     ∧ sys2' = sys2
     ∧ is_Some (jobs (broker sys2) !! id)
     ∧ createdFor idemKey
         (creations init
            (evs1 ++ EnqueueCommit g :: evs2
                  ++ [EnqueueBegin g2 MethodPost idemKey]))
       = [(idemKey, id)])
  ∧ (∀ sys idemKey id,
       reachable sys →
       idem (broker sys) !! idemKey = Some id → id ≠ PENDING →
       is_Some (jobs (broker sys) !! id)).
Proof.
  split.
  - intros evs1 outs1 sys1 g idemKey id out1 sys1' evs2 outs2 sys2 g2 out2 sys2'
      Hkey Hexec1 Hg Hcommit Hexec2 Hbegin.
    assert (SysOK sys1) as Hok1 by (eapply exec_ok; [apply init_ok|done]).
    assert (SysOK sys1') as Hok1' by (by eapply step_ok).
    assert (SysOK sys2) as Hok2 by (by eapply exec_ok).
    destruct (sys_inserted _ Hok1 _ _ _ Hg) as [Hlen _].
    pose proof (uuid_not_PENDING _ Hlen) as Hne.
    assert (idem (broker sys2) !! idemKey = Some id) as Hid2.
    { eapply committed_exec; [exact Hok1'|done|done| |done].
      simpl in Hcommit. rewrite Hg in Hcommit. injection Hcommit as <- <-.
      simpl. unfold enqueueCommit. rewrite decide_False by done.
      apply lookup_insert_eq. }
    assert (out1 = mkOutput (Some (ReplyJobID id)) []) as ->.
    { simpl in Hcommit. rewrite Hg in Hcommit. by injection Hcommit as <- <-. }
    assert (out2 = mkOutput (Some (ReplyJobID id)) [] ∧ sys2' = sys2)
      as [-> ->].
    { cbn [step] in Hbegin. destruct (enqueuing sys2 !! g2); [done|].
      rewrite decide_False in Hbegin by (by intros []).
      unfold enqueueBegin in Hbegin. rewrite decide_False in Hbegin by done.
      rewrite Hid2 in Hbegin. rewrite decide_True in Hbegin by done.
      by injection Hbegin as <- <-. }
    repeat split; try done.
    + by destruct (sys_committed _ Hok2 _ _ Hid2 Hne).
    + assert (exec init (evs1 ++ EnqueueCommit g :: evs2
                              ++ [EnqueueBegin g2 MethodPost idemKey])
              = Some ((outs1 ++ mkOutput (Some (ReplyJobID id)) [] :: outs2
                             ++ [mkOutput (Some (ReplyJobID id)) []])%list,
                      sys2)) as Hwhole.
      { apply exec_app.
        exists outs1, sys1,
          (mkOutput (Some (ReplyJobID id)) [] :: outs2
             ++ [mkOutput (Some (ReplyJobID id)) []])%list.
        split; [done|]. split; [|done].
        cbn [exec]. rewrite Hcommit.
        assert (exec sys1' (evs2 ++ [EnqueueBegin g2 MethodPost idemKey])
                = Some ((outs2 ++ [mkOutput (Some (ReplyJobID id)) []])%list,
                        sys2)) as ->; [|done].
        apply exec_app.
        exists outs2, sys2, [mkOutput (Some (ReplyJobID id)) []].
        split; [done|]. split; [|done]. cbn [exec]. by rewrite Hbegin. }
      eapply (createdFor_committed sys2); [done| |done..].
      change (creations init ?evs) with (([] ++ creations init evs)%list).
      eapply exec_log; [apply init_ok|apply init_log|exact Hwhole].
  - intros sys idemKey id Hok%reachable_ok Hid Hne.
    by destruct (sys_committed _ Hok _ _ Hid Hne).
Qed.

(** * The theorems at work on concrete runs *)

(** Worker [w1] acknowledges at second 100 the lease it holds until 130. *)
Lemma ack_validation_order_witness :
  ∃ job',
    ack MethodPost (Some (mkAckRequest "w1" "j" 1)) 100 {[ "j" := staleLease ]}
      = (Reply StatusOK, <["j" := job']> {[ "j" := staleLease ]})
    ∧ State job' = StateDone ∧ LeaseOwner job' = "" ∧ LeaseID job' = 1.
Proof.
  destruct (ack_validation_order (mkAckRequest "w1" "j" 1) 100
              {[ "j" := staleLease ]}) as [_ Hfound]; [done|done|].
  destruct (Hfound staleLease) as (_ & _ & _ & _ & Hok).
  { apply lookup_singleton_eq. }
  destruct Hok as (job' & Hack & Hstate & Howner & _ & _ & Hlease & _);
    [done|done|done|simpl; lia|].
  exists job'. by repeat split.
Defined.

(** A worker that never held the job, with a lease id that never existed. *)
Lemma done_short_circuit_witness :
  ack MethodPost (Some (mkAckRequest "w9" "j" 42)) 100 {[ "j" := doneJob ]}
    = (Reply StatusOK, {[ "j" := doneJob ]})
  ∧ fail MethodPost (Some (mkFailRequest "w9" "j" 42)) 100 7 {[ "j" := doneJob ]}
    = (Reply StatusOK, {[ "j" := doneJob ]}).
Proof.
  apply (done_short_circuit "w9" "j" 42 100 7 {[ "j" := doneJob ]} doneJob);
    [done|done|apply lookup_singleton_eq|reflexivity].
Defined.

(** The second failure: the window is [0 .. 10] and the draw 25 gives the
    delay 25 mod 11 = 3. *)
Lemma retry_delay_in_window_witness :
  retryDelaySeconds 25 2 = Some 3 ∧ window 2 = 10
  ∧ ∀ delay, 0 <= delay <= window 2 → retryDelaySeconds delay 2 = Some delay.
Proof.
  destruct (retry_delay_in_window 2) as (Hin & Hall & _ & Hwin); [lia|].
  split; [|split; [exact Hwin|exact Hall]].
  destruct (Hin 25) as (delay & -> & Hdraw & _).
  vm_compute in Hdraw. by injection Hdraw as <-.
Defined.

(** Worker [w1] fails a job at second 100. On the first failure the draw
    is 7, the window [0 .. 5] and the delay 7 mod 6 = 1: the job is queued
    again for second 101. On the third failure the job is DEAD. *)
Lemma fail_records_attempt_witness :
  (∃ job',
     fail MethodPost (Some (mkFailRequest "w1" "j" 1)) 100 7
          {[ "j" := staleLease ]}
     = (Reply StatusOK, <["j" := job']> {[ "j" := staleLease ]})
     ∧ State job' = StateQueued ∧ Attempts job' = 1
     ∧ NextAvailableAt job' = 101 ∧ LeaseOwner job' = "")
  ∧ (∃ job',
       fail MethodPost (Some (mkFailRequest "w1" "j" 3)) 100 7
            {[ "j" := lastTry ]}
       = (Reply StatusOK, <["j" := job']> {[ "j" := lastTry ]})
       ∧ State job' = StateDead ∧ Attempts job' = 3
       ∧ NextAvailableAt job' = 0 ∧ LeaseOwner job' = "").
Proof.
  split.
  - destruct (fail_records_attempt (mkFailRequest "w1" "j" 1) 100 7
                {[ "j" := staleLease ]}) as (_ & _ & Hjob);
      [discriminate|discriminate|].
    destruct (Hjob staleLease) as (_ & _ & _ & _ & Hok);
      [apply lookup_singleton_eq|].
    destruct Hok
      as (_ & job' & Hfail & Hatt & Howner & _ & _ & Hretry & _);
      [reflexivity|reflexivity|reflexivity|simpl; lia
      |in_int64|in_int64|in_int64|simpl; lia|].
    destruct Hretry as (Hstate & delay & Hdelay & _ & Hnext); [simpl; lia|].
    exists job'. split; [exact Hfail|]. split; [exact Hstate|].
    split; [exact Hatt|]. split; [|exact Howner].
    rewrite Hnext. vm_compute in Hdelay. injection Hdelay as <-. reflexivity.
  - destruct (fail_records_attempt (mkFailRequest "w1" "j" 3) 100 7
                {[ "j" := lastTry ]}) as (_ & _ & Hjob);
      [discriminate|discriminate|].
    destruct (Hjob lastTry) as (_ & _ & _ & _ & Hok);
      [apply lookup_singleton_eq|].
    destruct Hok
      as (_ & job' & Hfail & Hatt & Howner & _ & Hdead & _);
      [reflexivity|reflexivity|reflexivity|simpl; lia
      |in_int64|in_int64|in_int64|simpl; lia|].
    destruct Hdead as [Hstate Hnext]; [simpl; lia|].
    exists job'. by repeat split.
Defined.

Lemma poll_leases_one_eligible_witness :
  ∃ job',
    poll MethodPost (Some (mkPollRequest "w1")) 100 ["j"] false
         {[ "j" := newJob "j" "hello" ]}
      = (ReplyJob job', <["j" := job']> {[ "j" := newJob "j" "hello" ]})
    ∧ State job' = StateLeased ∧ LeaseOwner job' = "w1"
    ∧ LeaseExpiresAt job' = 130 ∧ LeaseID job' = 1.
Proof.
  destruct (poll_leases_one_eligible "w1" 100 ["j"] false
              {[ "j" := newJob "j" "hello" ]})
    as [(id & job & job' & Hjob & _ & _ & Hpoll & Hstate & Howner & Hexp & Hlease & _) _].
  - discriminate.
  - intros id [job [<- _]%lookup_singleton_Some]. apply list_elem_of_here.
  - in_int64.
  - intros id job [_ <-]%lookup_singleton_Some. in_int64.
  - exists "j", (newJob "j" "hello"). split; [apply lookup_singleton_eq|].
    split; [done|by left].
  - apply lookup_singleton_Some in Hjob as [<- <-].
    exists job'. by repeat split.
Defined.

Lemma enqueue_undecodable_body_witness :
  enqueue MethodPost "K" BodyInvalid uuid1 {| jobs := ∅; idem := ∅ |}
    = (Reply StatusBadRequest, [], {| jobs := ∅; idem := ∅ |})
  ∧ ∃ idem1,
      enqueueBegin "K" ∅ = (None, idem1)
      ∧ idem1 !! "K" = Some PENDING ∧ enqueueRelease "K" idem1 = ∅.
Proof.
  destruct (enqueue_undecodable_body "K" BodyInvalid uuid1
              {| jobs := ∅; idem := ∅ |}) as [Hreply Hpending].
  - done.
  - right. apply lookup_empty.
  - split; [done|]. by apply Hpending.
Defined.

Lemma idempotent_enqueue_witness :
  reply (mkOutput (Some (ReplyJobID uuid1)) []) = Some (ReplyJobID uuid1)
  ∧ reply (mkOutput (Some (ReplyJobID uuid1)) []) = Some (ReplyJobID uuid1)
  ∧ finalState (enqueueK ++ [EnqueueCommit 0])
    = finalState (enqueueK ++ [EnqueueCommit 0])
  ∧ is_Some (jobs (broker (finalState (enqueueK ++ [EnqueueCommit 0]))) !! uuid1)
  ∧ createdFor "K"
      (creations init
         (enqueueK ++ EnqueueCommit 0 :: [] ++ [EnqueueBegin 1 MethodPost "K"]))
    = [("K", uuid1)].
Proof.
  apply (proj1 idempotent_enqueue enqueueK (outputs enqueueK)
           (finalState enqueueK) 0%nat "K" uuid1
           (mkOutput (Some (ReplyJobID uuid1)) [])
           (finalState (enqueueK ++ [EnqueueCommit 0]))
           [] []
           (finalState (enqueueK ++ [EnqueueCommit 0])) 1%nat
           (mkOutput (Some (ReplyJobID uuid1)) [])
           (finalState (enqueueK ++ [EnqueueCommit 0]))).
  - done.
  - vm_compute; reflexivity.
  - vm_compute; reflexivity.
  - vm_compute; reflexivity.
  - vm_compute; reflexivity.
  - vm_compute; reflexivity.
Defined.

Lemma attempts_bounded_dead_on_time_witness :
  ∃ job job',
    jobs (broker (finalState failThrice)) !! uuid1 = Some job
    ∧ jobs (broker (finalState (failThrice ++ [thirdFail]))) !! uuid1 = Some job'
    ∧ State job = StateLeased ∧ Attempts job = 2
    ∧ State job' = StateDead ∧ Attempts job' = Attempts job + 1
    ∧ Attempts job' = MaxTries job'.
Proof.
  destruct (jobs (broker (finalState failThrice)) !! uuid1) as [job|] eqn:Hjob;
    [|by vm_compute in Hjob].
  destruct (jobs (broker (finalState (failThrice ++ [thirdFail]))) !! uuid1)
    as [job'|] eqn:Hjob'; [|by vm_compute in Hjob'].
  destruct (proj2 attempts_bounded_dead_on_time (finalState failThrice)
              thirdFail (mkOutput (Some (Reply StatusOK)) [])
              (finalState (failThrice ++ [thirdFail])) uuid1 job job')
    as (Hiff & Hfail & _).
  - exists failThrice, (outputs failThrice). vm_compute; reflexivity.
  - vm_compute; reflexivity.
  - done.
  - done.
  - vm_compute in Hjob, Hjob'. injection Hjob as <-. injection Hjob' as <-.
    destruct Hfail as [Hatt _]; [done|done|].
    do 2 eexists. repeat split; done.
Defined.

Lemma lease_id_counts_leases_witness :
  leasesOf uuid1 (outputs leaseTwice) = [1; 2]
  ∧ currentLease (finalState leaseTwice) uuid1 = 2.
Proof.
  assert (currentLease (finalState leaseTwice) uuid1 = 2) as Hcur
    by (vm_compute; reflexivity).
  split; [|done].
  rewrite (proj1 (proj2 lease_id_counts_leases) leaseTwice
             (outputs leaseTwice) (finalState leaseTwice) uuid1).
  - by rewrite Hcur.
  - vm_compute; reflexivity.
  - vm_compute; discriminate.
Defined.

(** * Further properties of the code *)

(** ** Invariants of every stored job *)

Lemma keyed_of_ok sys : SysOK sys → keyedByID (jobs (broker sys)).
Proof. intros Hok id job Hjob. by destruct (sys_jobs _ Hok _ _ Hjob). Qed.

(** A property of jobs that new jobs have and that every transition of a
    job keeps holds of all jobs in every state the broker reaches. *)
Lemma exec_jobs_ind (P : string → Job → Prop) :
  (∀ id payload, P id (newJob id payload)) →
  (∀ sys ev out sys' id job job',
     SysOK sys → step sys ev = Some (out, sys') →
     jobs (broker sys) !! id = Some job → P id job →
     JobStep id job ev out job' → P id job') →
  ∀ evs sys outs sys',
    SysOK sys → (∀ id job, jobs (broker sys) !! id = Some job → P id job) →
    exec sys evs = Some (outs, sys') →
    ∀ id job, jobs (broker sys') !! id = Some job → P id job.
Proof.
  intros Hnew Hkeep. induction evs as [|ev evs IH]; intros sys outs sys' Hok HP;
    simpl.
  { by intros [= <- <-]. }
  destruct (step sys ev) as [[out sys1]|] eqn:Hstep; [|done].
  destruct (exec sys1 evs) as [[outs1 sys2]|] eqn:Hexec; [|done].
  intros [= <- <-]. eapply IH; [by eapply step_ok| |done].
  intros id job1 Hjob1.
  destruct (jobs (broker sys) !! id) as [job|] eqn:Hjob.
  - destruct (step_job sys ev out sys1 id job (keyed_of_ok _ Hok) Hstep Hjob)
      as (job' & Hjob' & Hjs).
    rewrite Hjob1 in Hjob'. injection Hjob' as <-. eauto.
  - destruct (step_new_job _ _ _ _ _ _ Hstep Hjob Hjob1)
      as (g & body & payload & _ & -> & _).
    apply Hnew.
Qed.

(** A poll that hands out a job was sent with POST by a named worker. *)
Lemma poll_reply_names_worker method req now order timedOut
    (jobs jobs' : gmap string Job) r :
  poll method (Some req) now order timedOut jobs = (ReplyJob r, jobs') →
  method = MethodPost ∧ poll_WorkerID req ≠ "".
Proof.
  unfold poll. destruct (decide (method ≠ MethodPost)) as [|Hm]; [done|].
  destruct (decide (poll_WorkerID req = "")); [done|]. intros _.
  split; [|done]. by destruct (decide (method = MethodPost)).
Qed.

(** X1. In every state the broker reaches, a job that is LEASED has a
    non-empty lease owner, a job in any other state has no lease owner and
    lease end 0, and a DEAD job has next-available time 0. *)
Theorem lease_fields_follow_state (sys : System) (id : string) (job : Job) :
  reachable sys → jobs (broker sys) !! id = Some job → leaseShape job.
Proof.
  intros (evs & outs & Hexec) Hjob.
  eapply (exec_jobs_ind (λ _, leaseShape)); [| |apply init_ok| |exact Hexec|exact Hjob].
  - intros id0 payload. by repeat split.
  - intros sys0 ev out sys0' id0 job0 job0' Hok Hstep Hjob0 (Hl & Hn & Hd) Hjs.
    destruct Hjs as [method worker now order timedOut Hel
                    |method req now Hid Hst
                    |method req now draw Hid Hst Hge
                    |method req now draw delay Hid Hst Hlt Hdelay
                    |method req now draw Hid Hst Hlt Hdelay
                    |now order Hexp
                    |ev out Hout].
    all: try (by split; [|split]; simpl; intros; try done; auto).
    cbn [step] in Hstep.
    destruct (poll _ _ _ _ _ _) as [r jobs'] eqn:Hpoll.
    injection Hstep as -> _.
    apply poll_reply_names_worker in Hpoll as [_ Hw].
    by split; [|split]; simpl; intros.
  - intros id0 job0. simpl. by rewrite lookup_empty.
Qed.

Lemma lease_fields_follow_state_witness : leaseShape (lease "w1" 100 (newJob uuid1 "x")).
Proof.
  apply (lease_fields_follow_state (finalState (firstn 4 leaseTwice)) uuid1).
  - exists (firstn 4 leaseTwice), (outputs (firstn 4 leaseTwice)).
    vm_compute; reflexivity.
  - vm_compute; reflexivity.
Defined.

(** ** The life cycle *)

Lemma JobStep_edge id job ev out job' :
  JobStep id job ev out job' →
  Edge (State job) ev (State job')
  ∧ ID job' = ID job ∧ Payload job' = Payload job
  ∧ MaxTries job' = MaxTries job.
Proof.
  intros Hjs.
  destruct Hjs as [method worker now order timedOut Hel
                  |method req now Hid Hst
                  |method req now draw Hid Hst Hge
                  |method req now draw delay Hid Hst Hlt Hdelay
                  |method req now draw Hid Hst Hlt Hdelay
                  |now order Hexp
                  |ev out Hout]; simpl; repeat split; try constructor.
  - apply eligible_spec in Hel as [-> _]. constructor.
  - rewrite Hst. constructor.
  - rewrite Hst. constructor.
  - rewrite Hst. constructor.
  - unfold leaseExpired in Hexp.
    apply andb_true_iff in Hexp as [[Hl _]%andb_true_iff _].
    apply bool_decide_eq_true in Hl. rewrite Hl. constructor.
Qed.

(** X2. A transition of the broker moves a stored job only along the edges
    QUEUED to LEASED (a poll), LEASED to DONE (an ack), LEASED to QUEUED (a
    fail or a sweeper pass) and LEASED to DEAD (a fail), or leaves its
    state as it is; the job's id, payload and max tries never change, and
    the job stays in the store. *)
Theorem transitions_follow_life_cycle (sys : System) (ev : Event)
    (out : Output) (sys' : System) (id : string) (job : Job) :
  reachable sys → step sys ev = Some (out, sys') →
  jobs (broker sys) !! id = Some job →
  ∃ job',
    jobs (broker sys') !! id = Some job'
    ∧ Edge (State job) ev (State job')
    ∧ ID job' = ID job ∧ Payload job' = Payload job
    ∧ MaxTries job' = MaxTries job.
Proof.
  intros Hok%reachable_ok Hstep Hjob.
  destruct (step_job sys ev out sys' id job (keyed_of_ok _ Hok) Hstep Hjob)
    as (job' & Hjob' & Hjs).
  exists job'. split; [done|]. by eapply JobStep_edge.
Qed.

Lemma transitions_follow_life_cycle_witness :
  ∃ job',
    jobs (broker (finalState (firstn 5 leaseTwice))) !! uuid1 = Some job'
    ∧ Edge StateLeased (Sweep 135 [uuid1]) (State job')
    ∧ ID job' = uuid1 ∧ Payload job' = "x" ∧ MaxTries job' = 3.
Proof.
  apply (transitions_follow_life_cycle (finalState (firstn 4 leaseTwice))
           (Sweep 135 [uuid1]) (mkOutput None [])
           (finalState (firstn 5 leaseTwice)) uuid1
           (lease "w1" 100 (newJob uuid1 "x"))).
  - exists (firstn 4 leaseTwice), (outputs (firstn 4 leaseTwice)).
    vm_compute; reflexivity.
  - vm_compute; reflexivity.
  - vm_compute; reflexivity.
Defined.

(** Over a whole run. *)
Lemma exec_keeps_job evs : ∀ sys outs sys' id job,
  SysOK sys → exec sys evs = Some (outs, sys') →
  jobs (broker sys) !! id = Some job →
  ∃ job',
    jobs (broker sys') !! id = Some job'
    ∧ ID job' = ID job ∧ Payload job' = Payload job
    ∧ MaxTries job' = MaxTries job.
Proof.
  induction evs as [|ev evs IH]; intros sys outs sys' id job Hok; simpl.
  { intros [= <- <-] Hjob. by exists job. }
  destruct (step sys ev) as [[out sys1]|] eqn:Hstep; [|done].
  destruct (exec sys1 evs) as [[outs1 sys2]|] eqn:Hexec; [|done].
  intros [= <- <-] Hjob.
  destruct (step_job sys ev out sys1 id job (keyed_of_ok _ Hok) Hstep Hjob)
    as (job1 & Hjob1 & Hjs).
  apply JobStep_edge in Hjs as (_ & Hid & Hpay & Hmax).
  destruct (IH sys1 outs1 sys2 id job1) as (job' & Hjob' & ? & ? & ?);
    [by eapply step_ok|done|done|].
  exists job'. repeat split; congruence.
Qed.

Lemma exec_replies evs : ∀ sys outs sys' r,
  SysOK sys → exec sys evs = Some (outs, sys') →
  Some (ReplyJob r) ∈ reply <$> outs →
  ∃ job, (jobs (broker sys) !! ID r = Some job ∧ Payload r = Payload job)
         ∨ (jobs (broker sys) !! ID r = None ∧ job = r).
Proof.
  induction evs as [|ev evs IH]; intros sys outs sys' r Hok; simpl.
  { intros [= <- <-] Hin. by apply elem_of_nil in Hin. }
  destruct (step sys ev) as [[out sys1]|] eqn:Hstep; [|done].
  destruct (exec sys1 evs) as [[outs1 sys2]|] eqn:Hexec; [|done].
  intros [= <- <-] Hin. rewrite fmap_cons in Hin.
  destruct (jobs (broker sys) !! ID r) as [job|] eqn:Hjob; [|by exists r; right].
  exists job. left. split; [done|].
  destruct (step_job sys ev out sys1 (ID r) job (keyed_of_ok _ Hok) Hstep Hjob)
    as (job1 & Hjob1 & Hjs).
  apply JobStep_edge in Hjs as (_ & _ & Hpay & _).
  apply elem_of_cons in Hin as [Hhere|Hlater].
  - destruct (step_reply_job _ _ _ _ _ Hok Hstep (eq_sym Hhere)) as (_ & Hr & _).
    congruence.
  - destruct (IH sys1 outs1 sys2 r) as (job2 & [[Hjob2 Hp]|[Hnone _]]);
      [by eapply step_ok|done|done| |]; congruence.
Qed.

(** X3. No request removes a job or rewrites what was enqueued: a job that
    is in the store stays there over any run, with the same id, payload
    and max tries, and whenever a poll hands the job out the reply carries
    that same payload. *)
Theorem jobs_persist_with_payload (sys : System) (evs : list Event)
    (outs : list Output) (sys' : System) (id : string) (job : Job) :
  reachable sys → exec sys evs = Some (outs, sys') →
  jobs (broker sys) !! id = Some job →
  (∃ job',
     jobs (broker sys') !! id = Some job'
     ∧ ID job' = id ∧ Payload job' = Payload job
     ∧ MaxTries job' = MaxTries job)
  ∧ (∀ r, Some (ReplyJob r) ∈ reply <$> outs → ID r = id →
          Payload r = Payload job).
Proof.
  intros Hok%reachable_ok Hexec Hjob. split.
  - destruct (exec_keeps_job evs sys outs sys' id job Hok Hexec Hjob)
      as (job' & Hjob' & Hid & Hpay & Hmax).
    exists job'. repeat split; try done.
    rewrite Hid. by apply (keyed_of_ok _ Hok).
  - intros r Hin Hid.
    destruct (exec_replies evs sys outs sys' r Hok Hexec Hin)
      as (job0 & [[Hjob0 Hp]|[Hnone _]]); rewrite Hid in *; congruence.
Qed.

Lemma jobs_persist_with_payload_witness :
  (∃ job',
     jobs (broker (finalState leaseTwice)) !! uuid1 = Some job'
     ∧ ID job' = uuid1 ∧ Payload job' = "x" ∧ MaxTries job' = 3)
  ∧ (∀ r, Some (ReplyJob r) ∈ reply <$> drop 3 (outputs leaseTwice) →
          ID r = uuid1 → Payload r = "x").
Proof.
  apply (jobs_persist_with_payload (finalState (firstn 3 leaseTwice))
           (drop 3 leaseTwice) (drop 3 (outputs leaseTwice))
           (finalState leaseTwice) uuid1 (newJob uuid1 "x")).
  - exists (firstn 3 leaseTwice), (outputs (firstn 3 leaseTwice)).
    vm_compute; reflexivity.
  - vm_compute; reflexivity.
  - vm_compute; reflexivity.
Defined.

(** ** Fencing *)

Lemma spent_token_rejected leaseID (jobs : gmap string Job) id job
    method worker now draw :
  jobs !! id = Some job → tokenSpent leaseID job →
  (ack method (Some (mkAckRequest worker id leaseID)) now jobs).2 = jobs
  ∧ (fail method (Some (mkFailRequest worker id leaseID)) now draw jobs).2
    = jobs.
Proof.
  intros Hjob [Hle Hspent].
  assert (State job = StateLeased → leaseID ≠ LeaseID job) as Hne.
  { intros Hl. destruct Hspent; [done|lia]. }
  split.
  - unfold ack. cbn [ack_WorkerID ack_JobID ack_LeaseID]. rewrite Hjob.
    repeat case_decide; try done.
    destruct (decide (State job = StateLeased)) as [Hl|]; [|tauto].
    by destruct (Hne Hl).
  - unfold fail. cbn [fail_WorkerID fail_JobID fail_LeaseID]. rewrite Hjob.
    repeat case_decide; try done;
      (destruct (decide (State job = StateLeased)) as [Hl|]; [|tauto]);
      by destruct (Hne Hl).
Qed.

Lemma JobStep_token leaseID id job ev out job' :
  0 <= LeaseID job < Int64.max_int →
  tokenSpent leaseID job → JobStep id job ev out job' →
  tokenSpent leaseID job' ∧ LeaseID job <= LeaseID job' <= LeaseID job + 1.
Proof.
  intros Hrange [Hle Hspent] Hjs.
  assert (Int64.add (LeaseID job) 1 = LeaseID job + 1) as Hadd
    by (apply add_in_range; in_int64).
  destruct Hjs as [method worker now order timedOut Hel
                  |method req now Hid Hst
                  |method req now draw Hid Hst Hge
                  |method req now draw delay Hid Hst Hlt Hdelay
                  |method req now draw Hid Hst Hlt Hdelay
                  |now order Hexp
                  |ev out Hout]; unfold tokenSpent; simpl; rewrite ?Hadd.
  - split; [|lia]. split; [lia|]. right.
    apply eligible_spec in Hel as [Hq _]. destruct Hspent; lia.
  - split; [|lia]. split; [done|by left].
  - split; [|lia]. split; [done|by left].
  - split; [|lia]. split; [done|by left].
  - split; [|lia]. split; [done|]. destruct Hspent; [done|by right].
  - split; [|lia]. split; [done|by left].
  - split; [|lia]. done.
Qed.

Lemma exec_token leaseID id evs : ∀ sys outs sys' job,
  SysOK sys → exec sys evs = Some (outs, sys') →
  jobs (broker sys) !! id = Some job →
  0 <= LeaseID job → LeaseID job + Z.of_nat (length evs) < Int64.max_int →
  tokenSpent leaseID job →
  ∃ job', jobs (broker sys') !! id = Some job' ∧ tokenSpent leaseID job'.
Proof.
  induction evs as [|ev evs IH]; intros sys outs sys' job Hok; simpl.
  { intros [= <- <-] Hjob _ _ Hspent. by exists job. }
  destruct (step sys ev) as [[out sys1]|] eqn:Hstep; [|done].
  destruct (exec sys1 evs) as [[outs1 sys2]|] eqn:Hexec; [|done].
  intros [= <- <-] Hjob Hpos Hbound Hspent.
  destruct (step_job sys ev out sys1 id job (keyed_of_ok _ Hok) Hstep Hjob)
    as (job1 & Hjob1 & Hjs).
  destruct (JobStep_token leaseID id job ev out job1) as [Hspent1 Hle];
    [lia|done|done|].
  eapply IH; [by eapply step_ok|done|done|lia|lia|done].
Qed.

(** X4. Once a job is no longer leased under lease id [L] (it was acked,
    failed, swept, or has been leased again), it never is again: after any
    further run, no [/ack] and no [/fail] that carries [L] changes the
    store, whoever sends it and at whatever time. (Runs of fewer than 2^63
    transitions, so that the lease id cannot wrap.) *)
Theorem spent_token_stays_spent (evs1 : list Event) (outs1 : list Output)
    (sys : System) (evs2 : list Event) (outs2 : list Output) (sys' : System)
    (id : string) (job : Job) (L : Z) :
  exec init evs1 = Some (outs1, sys) →
  exec sys evs2 = Some (outs2, sys') →
  Z.of_nat (length evs1) + Z.of_nat (length evs2) < Int64.max_int →
  jobs (broker sys) !! id = Some job → tokenSpent L job →
  ∃ job',
    jobs (broker sys') !! id = Some job' ∧ tokenSpent L job'
    ∧ ∀ method worker now draw,
        (ack method (Some (mkAckRequest worker id L)) now
             (jobs (broker sys'))).2 = jobs (broker sys')
        ∧ (fail method (Some (mkFailRequest worker id L)) now draw
                (jobs (broker sys'))).2 = jobs (broker sys').
Proof.
  intros Hexec1 Hexec2 Hlen Hjob Hspent.
  assert (SysOK sys) as Hok by (eapply exec_ok; [apply init_ok|done]).
  destruct (exec_leases id evs1 init outs1 sys init_ok Hexec1) as [_ Hle].
  { unfold currentLease, init; simpl. by rewrite lookup_empty. }
  { unfold currentLease, init; simpl. rewrite lookup_empty. lia. }
  unfold currentLease in Hle. rewrite Hjob in Hle. simpl in Hle.
  rewrite lookup_empty in Hle.
  destruct (exec_token L id evs2 sys outs2 sys' job Hok Hexec2 Hjob)
    as (job' & Hjob' & Hspent'); [lia|lia|done|].
  exists job'. split; [done|]. split; [done|].
  intros method worker now draw. by eapply spent_token_rejected.
Qed.

(** Scenario S2: the lease 1 of [w1] is swept, [w2] gets lease 2; the ack
    of [w1] with lease id 1 then changes nothing. *)
Lemma spent_token_stays_spent_witness :
  ∃ job',
    jobs (broker (finalState leaseTwice)) !! uuid1 = Some job'
    ∧ tokenSpent 1 job'
    ∧ ∀ method worker now draw,
        (ack method (Some (mkAckRequest worker uuid1 1)) now
             (jobs (broker (finalState leaseTwice)))).2
        = jobs (broker (finalState leaseTwice))
        ∧ (fail method (Some (mkFailRequest worker uuid1 1)) now draw
                (jobs (broker (finalState leaseTwice)))).2
          = jobs (broker (finalState leaseTwice)).
Proof.
  apply (spent_token_stays_spent (firstn 5 leaseTwice)
           (outputs (firstn 5 leaseTwice)) (finalState (firstn 5 leaseTwice))
           (drop 5 leaseTwice) (drop 5 (outputs leaseTwice))
           (finalState leaseTwice) uuid1
           (requeueExpired (lease "w1" 100 (newJob uuid1 "x"))) 1).
  - vm_compute; reflexivity.
  - vm_compute; reflexivity.
  - vm_compute; reflexivity.
  - vm_compute; reflexivity.
  - split; [vm_compute; discriminate|]. left. discriminate.
Defined.

(** X5. At any instant a lease with a positive end is either still good
    for its holder or already open to the sweeper, never both: if
    the sweeper's test finds it expired, the holder's own [/ack] and
    [/fail] are answered Conflict and change nothing, and a sweeper pass
    that visits the job re-queues it; otherwise the holder's [/ack] is
    answered Success and the job is DONE. *)
Theorem holder_acks_until_sweepable (jobs : gmap string Job) (id : string)
    (job : Job) (now draw : Z) (order : list string) :
  jobs !! id = Some job → State job = StateLeased →
  LeaseOwner job ≠ "" → id ≠ "" → 0 < LeaseExpiresAt job → id ∈ order →
  (leaseExpired now job = false
   ∧ ack MethodPost (Some (mkAckRequest (LeaseOwner job) id (LeaseID job)))
         now jobs
     = (Reply StatusOK, <[id := markDone job]> jobs)
   ∧ (sweeperTick now order jobs).2 !! id = Some job)
  ∨ (leaseExpired now job = true
     ∧ ack MethodPost (Some (mkAckRequest (LeaseOwner job) id (LeaseID job)))
           now jobs
       = (Reply StatusConflict, jobs)
     ∧ fail MethodPost (Some (mkFailRequest (LeaseOwner job) id (LeaseID job)))
            now draw jobs
       = (Reply StatusConflict, jobs)
     ∧ (sweeperTick now order jobs).2 !! id = Some (requeueExpired job)).
Proof.
  intros Hjob Hl Hown Hid Hpos Hin.
  assert (leaseExpired now job = bool_decide (LeaseExpiresAt job <= now))
    as Hexp.
  { unfold leaseExpired. rewrite bool_decide_eq_true_2 by done.
    destruct (Z.ltb_spec 0 (LeaseExpiresAt job)); [simpl|lia].
    destruct (Z.leb_spec (LeaseExpiresAt job) now).
    - by rewrite bool_decide_eq_true_2.
    - rewrite bool_decide_eq_false_2; [done|lia]. }
  assert (∀ r, fail MethodPost
                 (Some (mkFailRequest (LeaseOwner job) id (LeaseID job)))
                 now draw jobs = r →
               LeaseExpiresAt job <= now → r = (Reply StatusConflict, jobs))
    as Hfail.
  { intros r <- Hle. unfold fail.
    cbn [fail_WorkerID fail_JobID fail_LeaseID]. rewrite Hjob.
    rewrite decide_False by (by intros []).
    rewrite decide_False by (by intros [|]).
    rewrite decide_False by congruence.
    rewrite decide_False by (intros [|]; congruence).
    rewrite decide_False by (by intros []). by rewrite decide_True. }
  unfold ack. cbn [ack_WorkerID ack_JobID ack_LeaseID]. rewrite Hjob.
  rewrite decide_False by (by intros []).
  rewrite decide_False by (by intros [|]).
  rewrite decide_False by congruence.
  rewrite decide_False by (intros [|]; congruence).
  rewrite decide_False by (by intros []).
  destruct (decide (LeaseExpiresAt job <= now)) as [Hle|Hgt].
  - right. rewrite bool_decide_eq_true_2 in Hexp by done.
    repeat split; [done|by apply Hfail|].
    by apply (sweeper_wakes_nobody now order jobs id job).
  - left. rewrite bool_decide_eq_false_2 in Hexp by done.
    repeat split; [done|].
    unfold sweeperTick, expireLeases.
    destruct (expireLoop_lookup now order jobs [] id)
      as [Hsame|(job0 & Hjob0 & Hexp0 & _)].
    + destruct (expireLoop now order jobs []). simpl in *. congruence.
    + congruence.
Qed.

Lemma holder_acks_until_sweepable_witness :
  (leaseExpired 129 staleLease = false
   ∧ ack MethodPost (Some (mkAckRequest "w1" "j" 1)) 129 {[ "j" := staleLease ]}
     = (Reply StatusOK, <["j" := markDone staleLease]> {[ "j" := staleLease ]})
   ∧ (sweeperTick 129 ["j"] {[ "j" := staleLease ]}).2 !! "j" = Some staleLease)
  ∨ (leaseExpired 129 staleLease = true
     ∧ ack MethodPost (Some (mkAckRequest "w1" "j" 1)) 129 {[ "j" := staleLease ]}
       = (Reply StatusConflict, {[ "j" := staleLease ]})
     ∧ fail MethodPost (Some (mkFailRequest "w1" "j" 1)) 129 0
            {[ "j" := staleLease ]}
       = (Reply StatusConflict, {[ "j" := staleLease ]})
     ∧ (sweeperTick 129 ["j"] {[ "j" := staleLease ]}).2 !! "j"
       = Some (requeueExpired staleLease)).
Proof.
  apply (holder_acks_until_sweepable {[ "j" := staleLease ]} "j" staleLease
           129 0 ["j"]).
  - apply lookup_singleton_eq.
  - reflexivity.
  - discriminate.
  - discriminate.
  - simpl; lia.
  - apply list_elem_of_here.
Defined.

(** ** /jobs and /dead *)

Lemma deadLoop_sound order : ∀ (jobs dead : gmap string Job),
  (∀ id job, dead !! id = Some job →
             jobs !! id = Some job ∧ State job = StateDead) →
  ∀ id job, deadLoop order jobs dead !! id = Some job →
            jobs !! id = Some job ∧ State job = StateDead.
Proof.
  induction order as [|id' order IH]; intros jobs dead Hdead; simpl; [done|].
  destruct (jobs !! id') as [job'|] eqn:Hjob'; [|by apply IH].
  destruct (decide (State job' = StateDead)); [|by apply IH].
  apply IH. intros id job [[<- <-]|[_ Hin]]%lookup_insert_Some; auto.
Qed.

Lemma deadLoop_keeps order : ∀ (jobs dead : gmap string Job) id job,
  jobs !! id = Some job → dead !! id = Some job →
  deadLoop order jobs dead !! id = Some job.
Proof.
  induction order as [|id' order IH]; intros jobs dead id job Hjob Hin; simpl;
    [done|].
  destruct (jobs !! id') as [job'|] eqn:Hjob'; [|by apply IH].
  destruct (decide (State job' = StateDead)); [|by apply IH].
  apply IH; [done|]. destruct (decide (id' = id)) as [->|Hne].
  - rewrite lookup_insert_eq. congruence.
  - by rewrite lookup_insert_ne.
Qed.

Lemma deadLoop_complete order : ∀ (jobs dead : gmap string Job) id job,
  id ∈ order → jobs !! id = Some job → State job = StateDead →
  deadLoop order jobs dead !! id = Some job.
Proof.
  induction order as [|id' order IH]; intros jobs dead id job Hin Hjob Hd.
  { by apply elem_of_nil in Hin. }
  simpl. destruct (decide (id' = id)) as [->|Hne].
  - rewrite Hjob, decide_True by done.
    apply deadLoop_keeps; [done|apply lookup_insert_eq].
  - apply elem_of_cons in Hin as [->|Hin]; [done|].
    destruct (jobs !! id') as [job'|]; [|by apply IH].
    destruct (decide (State job' = StateDead)); by apply IH.
Qed.

Lemma listDead_lookup order (jobs dead : gmap string Job) :
  visitsAll order jobs →
  listDead MethodGet order jobs = ListingJobs dead →
  ∀ id job, dead !! id = Some job
            ↔ jobs !! id = Some job ∧ State job = StateDead.
Proof.
  intros Hall. unfold listDead. rewrite decide_False by (by intros []).
  intros [= <-] id job. split.
  - apply deadLoop_sound. intros id0 job0. by rewrite lookup_empty.
  - intros [Hjob Hd]. apply deadLoop_complete; [|done|done].
    apply Hall. by rewrite Hjob.
Qed.

(** X6. [/dead] answers a GET with exactly the DEAD jobs of the store, each
    under its id and as the store holds it, in whatever order the map is
    visited; [/jobs] answers a GET with the whole store; both refuse any
    other method with 405. *)
Theorem dead_lists_the_dead_jobs (order : list string)
    (jobs : gmap string Job) :
  visitsAll order jobs →
  (∃ dead,
     listDead MethodGet order jobs = ListingJobs dead
     ∧ ∀ id job, dead !! id = Some job
                 ↔ jobs !! id = Some job ∧ State job = StateDead)
  ∧ listJobs MethodGet jobs = ListingJobs jobs
  ∧ (∀ method, method ≠ MethodGet →
       listDead method order jobs = ListingRefused StatusMethodNotAllowed
       ∧ listJobs method jobs = ListingRefused StatusMethodNotAllowed).
Proof.
  intros Hall. split; [|split].
  - exists (deadLoop order jobs ∅).
    assert (listDead MethodGet order jobs = ListingJobs (deadLoop order jobs ∅))
      as Hlist by (unfold listDead; by rewrite decide_False by (by intros [])).
    split; [done|]. by apply (listDead_lookup order).
  - unfold listJobs. by rewrite decide_False by (by intros []).
  - intros method Hm. unfold listDead, listJobs. by rewrite !decide_True.
Qed.

Lemma dead_lists_the_dead_jobs_witness :
  (∃ dead,
     listDead MethodGet ["j"] {[ "j" := staleLease ]} = ListingJobs dead
     ∧ ∀ id job, dead !! id = Some job
                 ↔ ({[ "j" := staleLease ]} : gmap string Job) !! id = Some job
                   ∧ State job = StateDead)
  ∧ listJobs MethodGet {[ "j" := staleLease ]}
    = ListingJobs {[ "j" := staleLease ]}
  ∧ (∀ method, method ≠ MethodGet →
       listDead method ["j"] {[ "j" := staleLease ]}
       = ListingRefused StatusMethodNotAllowed
       ∧ listJobs method {[ "j" := staleLease ]}
         = ListingRefused StatusMethodNotAllowed).
Proof.
  apply (dead_lists_the_dead_jobs ["j"] {[ "j" := staleLease ]}).
  intros id [job [<- _]%lookup_singleton_Some]. apply list_elem_of_here.
Defined.

(** A job that is DONE or DEAD is the same record after any run. *)
Lemma exec_final_job evs : ∀ sys outs sys' id job,
  SysOK sys → exec sys evs = Some (outs, sys') →
  jobs (broker sys) !! id = Some job →
  State job = StateDone ∨ State job = StateDead →
  jobs (broker sys') !! id = Some job.
Proof.
  induction evs as [|ev evs IH]; intros sys outs sys' id job Hok; simpl.
  { by intros [= <- <-]. }
  destruct (step sys ev) as [[out sys1]|] eqn:Hstep; [|done].
  destruct (exec sys1 evs) as [[outs1 sys2]|] eqn:Hexec; [|done].
  intros [= <- <-] Hjob Hfinal.
  destruct (step_job sys ev out sys1 id job (keyed_of_ok _ Hok) Hstep Hjob)
    as (job1 & Hjob1 & Hjs).
  assert (job1 = job) as ->.
  { destruct Hjs as [method worker now order timedOut Hel
                    |method req now Hid Hst
                    |method req now draw Hid Hst Hge
                    |method req now draw delay Hid Hst Hlt Hdelay
                    |method req now draw Hid Hst Hlt Hdelay
                    |now order Hexp
                    |ev out Hout]; try done;
      try (destruct Hfinal; congruence).
    - apply eligible_spec in Hel as [Hq _]. destruct Hfinal; congruence.
    - unfold leaseExpired in Hexp. destruct (State job); try done;
        destruct Hfinal; congruence. }
  eapply IH; [by eapply step_ok|done|done|done].
Qed.

(** X7. The dead-letter listing only grows: a job that [/dead] lists in a
    state the broker has reached is listed by every later [/dead], with
    the very same record, and it has used up its tries (attempts = max
    tries). *)
Theorem dead_listing_only_grows (sys : System) (evs : list Event)
    (outs : list Output) (sys' : System) (order order' : list string)
    (dead dead' : gmap string Job) (id : string) (job : Job) :
  reachable sys → exec sys evs = Some (outs, sys') →
  visitsAll order (jobs (broker sys)) →
  visitsAll order' (jobs (broker sys')) →
  listDead MethodGet order (jobs (broker sys)) = ListingJobs dead →
  listDead MethodGet order' (jobs (broker sys')) = ListingJobs dead' →
  dead !! id = Some job →
  dead' !! id = Some job ∧ Attempts job = MaxTries job.
Proof.
  intros Hok%reachable_ok Hexec Hall Hall' Hdead Hdead' Hlisted.
  pose proof (listDead_lookup order (jobs (broker sys)) dead Hall Hdead)
    as Hspec.
  pose proof (listDead_lookup order' (jobs (broker sys')) dead' Hall' Hdead')
    as Hspec'.
  apply Hspec in Hlisted as [Hjob Hst].
  split.
  - apply Hspec'. split; [|done].
    eapply exec_final_job; [exact Hok|exact Hexec|done|by right].
  - destruct (sys_jobs _ Hok _ _ Hjob) as [_ _ _ Hd]. by apply Hd.
Qed.

Lemma dead_listing_only_grows_witness :
  deadLoop [uuid1] (jobs (broker (finalState (failToDeath ++ [Sweep 200 [uuid1]]))))
    ∅ !! uuid1 = Some deadJob
  ∧ Attempts deadJob = MaxTries deadJob.
Proof.
  apply (dead_listing_only_grows (finalState failToDeath) [Sweep 200 [uuid1]]
           [mkOutput None []]
           (finalState (failToDeath ++ [Sweep 200 [uuid1]]))
           [uuid1] [uuid1]
           (deadLoop [uuid1] (jobs (broker (finalState failToDeath))) ∅)).
  - exists failToDeath, (outputs failToDeath). vm_compute; reflexivity.
  - vm_compute; reflexivity.
  - assert (jobs (broker (finalState failToDeath)) = {[ uuid1 := deadJob ]})
      as -> by (vm_compute; reflexivity).
    intros id [job [<- _]%lookup_singleton_Some]. apply list_elem_of_here.
  - assert (jobs (broker (finalState (failToDeath ++ [Sweep 200 [uuid1]])))
            = {[ uuid1 := deadJob ]}) as -> by (vm_compute; reflexivity).
    intros id [job [<- _]%lookup_singleton_Some]. apply list_elem_of_here.
  - vm_compute; reflexivity.
  - vm_compute; reflexivity.
  - vm_compute; reflexivity.
Defined.

(** ** Polling with nothing to hand out *)

Lemma pollScan_finds worker now order (jobs : gmap string Job) id job :
  id ∈ order → jobs !! id = Some job → eligible now job = true →
  is_Some (pollScan worker now order jobs).
Proof.
  induction order as [|id' order IH]; intros Hin Hjob Hel.
  { by apply elem_of_nil in Hin. }
  simpl. destruct (jobs !! id') as [job'|] eqn:Hjob'.
  - destruct (eligible now job') eqn:Hel'; [done|].
    apply elem_of_cons in Hin as [->|Hin]; [congruence|by apply IH].
  - apply elem_of_cons in Hin as [->|Hin]; [congruence|by apply IH].
Qed.

(** X8. A well-formed poll finds a job exactly when the store holds an
    eligible one. When it holds none the poll changes nothing: before its
    deadline it blocks on the condition variable, at the deadline it
    answers 204. *)
Theorem poll_waits_without_eligible (worker : string) (now : Z)
    (order : list string) (timedOut : bool) (jobs : gmap string Job) :
  worker ≠ "" → visitsAll order jobs →
  let result := poll MethodPost (Some (mkPollRequest worker)) now order
                     timedOut jobs in
  ((∀ id job, jobs !! id = Some job → eligible now job = false)
   ↔ result = (if timedOut then Reply StatusNoContent else Waiting, jobs))
  ∧ ((∃ id job, jobs !! id = Some job ∧ eligible now job = true)
     ↔ ∃ job', result.1 = ReplyJob job').
Proof.
  intros Hw Hall. unfold poll.
  rewrite decide_False by (by intros []). simpl.
  rewrite decide_False by done.
  destruct (pollScan worker now order jobs) as [[job' jobs']|] eqn:Hscan.
  - apply pollScan_Some in Hscan as (id & job & Hin & Hjob & Hel & -> & ->).
    split; split.
    + intros Hnone. rewrite (Hnone _ _ Hjob) in Hel. done.
    + by destruct timedOut.
    + by eexists.
    + by exists id, job.
  - split; split.
    + by destruct timedOut.
    + intros _ id job Hjob. eapply pollScan_None; [done| |done].
      apply Hall. by rewrite Hjob.
    + intros (id & job & Hjob & Hel).
      destruct (pollScan_finds worker now order jobs id job) as [? Hsome];
        [apply Hall; by rewrite Hjob|done|done|congruence].
    + intros [job' Hjob']. by destruct timedOut.
Qed.

Lemma poll_waits_without_eligible_witness :
  ((∀ id job, ({[ "j" := staleLease ]} : gmap string Job) !! id = Some job →
              eligible 100 job = false)
   ↔ poll MethodPost (Some (mkPollRequest "w2")) 100 ["j"] false
          {[ "j" := staleLease ]}
     = (Waiting, {[ "j" := staleLease ]}))
  ∧ ((∃ id job, ({[ "j" := staleLease ]} : gmap string Job) !! id = Some job
                ∧ eligible 100 job = true)
     ↔ ∃ job', (poll MethodPost (Some (mkPollRequest "w2")) 100 ["j"] false
                     {[ "j" := staleLease ]}).1 = ReplyJob job').
Proof.
  apply (poll_waits_without_eligible "w2" 100 ["j"] false {[ "j" := staleLease ]}).
  - discriminate.
  - intros id [job [<- _]%lookup_singleton_Some]. apply list_elem_of_here.
Defined.

(** ** The sweeper's pass *)

Lemma sweepJob_requeued now job :
  leaseExpired now job = true → sweepJob now job = requeueExpired job.
Proof. unfold sweepJob. by intros ->. Qed.

Lemma sweepJob_kept now job :
  leaseExpired now job = false → sweepJob now job = job.
Proof. unfold sweepJob. by intros ->. Qed.

(** What the loop leaves under each key; a key met twice is requeued
    once, since a requeued job holds no lease. *)
Lemma expireLoop_store now order : ∀ (jobs : gmap string Job) expiredIDs id,
  (expireLoop now order jobs expiredIDs).2 !! id
  = if decide (id ∈ order) then sweepJob now <$> jobs !! id else jobs !! id.
Proof.
  induction order as [|id' order IH]; intros jobs expiredIDs id; simpl.
  { done. }
  assert (∀ job, jobs !! id' = Some job → leaseExpired now job = false →
            (if decide (id ∈ order) then sweepJob now <$> jobs !! id
             else jobs !! id)
            = if decide (id ∈ id' :: order) then sweepJob now <$> jobs !! id
              else jobs !! id) as Hkept.
  { intros job Hjob Hexp. destruct (decide (id = id')) as [->|Hne].
    - rewrite (decide_True (P := id' ∈ id' :: order))
        by apply list_elem_of_here.
      rewrite Hjob. simpl. rewrite sweepJob_kept by done. by case_decide.
    - destruct (decide (id ∈ order)) as [Hin|Hin].
      + by rewrite decide_True by by apply list_elem_of_further.
      + rewrite decide_False; [done|].
        intros [?|?]%elem_of_cons; done. }
  destruct (jobs !! id') as [job'|] eqn:Hjob'.
  - destruct (leaseExpired now job') eqn:Hexp.
    + rewrite IH. destruct (decide (id = id')) as [->|Hne].
      * rewrite lookup_insert_eq, Hjob'.
        rewrite (decide_True (P := id' ∈ id' :: order))
          by apply list_elem_of_here.
        simpl. rewrite (sweepJob_requeued now job') by done.
        rewrite sweepJob_kept by done. by case_decide.
      * rewrite lookup_insert_ne by done.
        destruct (decide (id ∈ order)) as [Hin|Hin].
        -- by rewrite decide_True by by apply list_elem_of_further.
        -- rewrite decide_False; [done|].
           intros [?|?]%elem_of_cons; done.
    + rewrite IH. by eapply Hkept.
  - rewrite IH. destruct (decide (id = id')) as [->|Hne].
    + rewrite Hjob'. by repeat case_decide.
    + destruct (decide (id ∈ order)) as [Hin|Hin].
      * by rewrite decide_True by by apply list_elem_of_further.
      * rewrite decide_False; [done|].
        intros [?|?]%elem_of_cons; done.
Qed.

(** The ids the loop returns. *)
Lemma expireLoop_ids now order : ∀ (jobs : gmap string Job) expiredIDs id,
  id ∈ (expireLoop now order jobs expiredIDs).1
  ↔ id ∈ expiredIDs
    ∨ (id ∈ order ∧ ∃ job, jobs !! id = Some job ∧ leaseExpired now job = true).
Proof.
  induction order as [|id' order IH]; intros jobs expiredIDs id; simpl.
  { split; [by left|]. intros [?|[[]%elem_of_nil _]]; done. }
  destruct (jobs !! id') as [job'|] eqn:Hjob'.
  - destruct (leaseExpired now job') eqn:Hexp.
    + rewrite IH, elem_of_app, list_elem_of_singleton. split.
      * intros [[Hacc| ->]|[Hin (job & Hjob & Hexp')]].
        -- by left.
        -- right. split; [apply list_elem_of_here|by exists job'].
        -- right. split; [by apply list_elem_of_further|].
           destruct (decide (id = id')) as [->|Hne].
           ++ by exists job'.
           ++ rewrite lookup_insert_ne in Hjob by done. by exists job.
      * intros [Hacc|[Hin (job & Hjob & Hexp')]]; [by left; left|].
        destruct (decide (id = id')) as [->|Hne]; [by left; right|].
        right. apply elem_of_cons in Hin as [?|Hin]; [done|].
        split; [done|]. exists job. by rewrite lookup_insert_ne.
    + rewrite IH. split.
      * intros [Hacc|[Hin Hjob]]; [by left|].
        right. split; [by apply list_elem_of_further|done].
      * intros [Hacc|[Hin (job & Hjob & Hexp')]]; [by left|].
        right. apply elem_of_cons in Hin as [->|Hin]; [congruence|].
        split; [done|by exists job].
  - rewrite IH. split.
    + intros [Hacc|[Hin Hjob]]; [by left|].
      right. split; [by apply list_elem_of_further|done].
    + intros [Hacc|[Hin (job & Hjob & Hexp')]]; [by left|].
      right. apply elem_of_cons in Hin as [->|Hin]; [congruence|].
      split; [done|by exists job].
Qed.

(** No id is returned twice. *)
Lemma expireLoop_NoDup now order : ∀ (jobs : gmap string Job) expiredIDs,
  NoDup expiredIDs →
  (∀ id job, id ∈ expiredIDs → jobs !! id = Some job →
             leaseExpired now job = false) →
  NoDup (expireLoop now order jobs expiredIDs).1.
Proof.
  induction order as [|id' order IH]; intros jobs expiredIDs Hnd Hacc; simpl;
    [done|].
  destruct (jobs !! id') as [job'|] eqn:Hjob'; [|by apply IH].
  destruct (leaseExpired now job') eqn:Hexp; [|by apply IH].
  apply IH.
  - apply NoDup_app. split; [done|]. split; [|apply NoDup_singleton].
    intros id Hin ->%list_elem_of_singleton.
    specialize (Hacc _ _ Hin Hjob'). congruence.
  - intros id job [Hin| ->%list_elem_of_singleton]%elem_of_app.
    + destruct (decide (id = id')) as [->|Hne].
      * rewrite lookup_insert_eq. by intros [= <-].
      * rewrite lookup_insert_ne by done. by apply Hacc.
    + rewrite lookup_insert_eq. by intros [= <-].
Qed.

(** X9. One pass of [expireLeases] over the whole store requeues exactly
    the jobs whose lease has run out and leaves every other job as it is,
    whatever the order of the map iteration; the ids it returns are those
    of the requeued jobs, each once; and a requeued job keeps its fencing
    token and its attempts and can be leased again at once. *)
Theorem sweep_requeues_exactly_expired (now : Z) (order : list string)
    (jobs : gmap string Job) :
  visitsAll order jobs →
  let result := expireLeases now order jobs in
  result.2 = sweepJob now <$> jobs
  ∧ (∀ id, id ∈ result.1
           ↔ ∃ job, jobs !! id = Some job ∧ leaseExpired now job = true)
  ∧ NoDup result.1
  ∧ (∀ id job, jobs !! id = Some job → leaseExpired now job = true →
       ∃ job', result.2 !! id = Some job'
               ∧ (∀ now', eligible now' job' = true)
               ∧ LeaseID job' = LeaseID job ∧ Attempts job' = Attempts job
               ∧ Payload job' = Payload job).
Proof.
  intros Hall result. subst result. unfold expireLeases.
  assert ((expireLoop now order jobs []).2 = sweepJob now <$> jobs) as Hstore.
  { apply map_eq. intros id. rewrite expireLoop_store, lookup_fmap.
    case_decide as Hin; [done|].
    destruct (jobs !! id) as [job|] eqn:Hjob; [|done].
    destruct Hin. apply Hall. by rewrite Hjob. }
  split; [done|]. split; [|split].
  - intros id. rewrite expireLoop_ids. split.
    + intros [[]%elem_of_nil|[_ Hjob]]. done.
    + intros (job & Hjob & Hexp). right. split; [|by exists job].
      apply Hall. by rewrite Hjob.
  - apply expireLoop_NoDup; [apply NoDup_nil_2|].
    by intros id job []%elem_of_nil.
  - intros id job Hjob Hexp. exists (requeueExpired job).
    rewrite Hstore, lookup_fmap, Hjob. simpl.
    by rewrite sweepJob_requeued by done.
Qed.

Lemma sweep_requeues_exactly_expired_witness :
  (expireLeases 135 ["j"] {[ "j" := staleLease ]}).2
  = sweepJob 135 <$> {[ "j" := staleLease ]}
  ∧ (∀ id, id ∈ (expireLeases 135 ["j"] {[ "j" := staleLease ]}).1
           ↔ ∃ job, ({[ "j" := staleLease ]} : gmap string Job) !! id = Some job
                    ∧ leaseExpired 135 job = true)
  ∧ NoDup (expireLeases 135 ["j"] {[ "j" := staleLease ]}).1
  ∧ (∀ id job, ({[ "j" := staleLease ]} : gmap string Job) !! id = Some job →
       leaseExpired 135 job = true →
       ∃ job', (expireLeases 135 ["j"] {[ "j" := staleLease ]}).2 !! id
               = Some job'
               ∧ (∀ now', eligible now' job' = true)
               ∧ LeaseID job' = LeaseID job ∧ Attempts job' = Attempts job
               ∧ Payload job' = Payload job).
Proof.
  apply (sweep_requeues_exactly_expired 135 ["j"] {[ "j" := staleLease ]}).
  intros id [job [<- _]%lookup_singleton_Some]. apply list_elem_of_here.
Defined.

(** X10. A second pass at the same second finds nothing left to do: it
    returns no id and leaves the store as the first pass left it. *)
Theorem sweep_twice_is_sweep_once (now : Z) (order order' : list string)
    (jobs : gmap string Job) :
  visitsAll order jobs →
  expireLeases now order' (expireLeases now order jobs).2
  = ([], (expireLeases now order jobs).2).
Proof.
  intros Hall.
  assert ((expireLeases now order jobs).2 = sweepJob now <$> jobs) as ->.
  { unfold expireLeases. apply map_eq. intros id.
    rewrite expireLoop_store, lookup_fmap.
    case_decide as Hin; [done|].
    destruct (jobs !! id) as [job|] eqn:Hjob; [|done].
    destruct Hin. apply Hall. by rewrite Hjob. }
  assert (∀ id job, (sweepJob now <$> jobs) !! id = Some job →
                    leaseExpired now job = false) as Hdone.
  { intros id job. rewrite lookup_fmap.
    destruct (jobs !! id) as [job0|]; [|done]. simpl. intros [= <-].
    unfold sweepJob. by destruct (leaseExpired now job0) eqn:Hexp. }
  unfold expireLeases.
  destruct (expireLoop now order' (sweepJob now <$> jobs) []) as [ids jobs']
    eqn:Hloop.
  assert (ids = []) as ->.
  { destruct ids as [|id ids]; [done|].
    assert (id ∈ (expireLoop now order' (sweepJob now <$> jobs) []).1) as Hin
      by (rewrite Hloop; apply list_elem_of_here).
    apply expireLoop_ids in Hin as [[]%elem_of_nil|[_ (job & Hjob & Hexp)]].
    rewrite (Hdone _ _ Hjob) in Hexp. done. }
  f_equal. apply map_eq. intros id.
  assert (jobs' = (expireLoop now order' (sweepJob now <$> jobs) []).2) as ->
    by (by rewrite Hloop).
  rewrite expireLoop_store. case_decide; [|done].
  destruct ((sweepJob now <$> jobs) !! id) as [job|] eqn:Hjob; [|done].
  simpl. by rewrite sweepJob_kept by by eapply Hdone.
Qed.

Lemma sweep_twice_is_sweep_once_witness :
  expireLeases 135 ["j"; "j"] (expireLeases 135 ["j"] {[ "j" := staleLease ]}).2
  = ([], (expireLeases 135 ["j"] {[ "j" := staleLease ]}).2).
Proof.
  apply (sweep_twice_is_sweep_once 135 ["j"] ["j"; "j"] {[ "j" := staleLease ]}).
  intros id [job [<- _]%lookup_singleton_Some]. apply list_elem_of_here.
Defined.

(** ** The retry delay over all attempt counts *)

Lemma retry_delay_at_63 draw : retryDelaySeconds draw 63 = Some (draw mod 31).
Proof.
  unfold retryDelaySeconds.
  change (Int64.shl base (63 - 1)) with 4611686018427387904. reflexivity.
Qed.

Lemma window_bounds attempts : 0 <= window attempts <= capDelay.
Proof.
  unfold window, base, capDelay.
  assert (0 < 2 ^ (Z.max attempts 1 - 1)) by (apply Z.pow_pos_nonneg; lia).
  lia.
Qed.

Lemma window_capped attempts : 4 <= attempts → window attempts = capDelay.
Proof.
  intros Hge. unfold window, base, capDelay.
  assert (2 ^ 3 <= 2 ^ (Z.max attempts 1 - 1))
    by (apply Z.pow_le_mono_r; lia).
  lia.
Qed.

(** X11. [retryDelaySeconds] on every attempt count: it panics at 62 and
    at 64 and nowhere else; whenever it returns, the delay lies in the
    window [0 .. min(5 * 2^(attempts-1), 30)]; counts below 1 are treated
    as 1; and from 65 on the shift empties the word and the delay is
    always 0. *)
Theorem retry_delay_on_all_counts (draw attempts : Z) :
  (retryDelaySeconds draw attempts = None ↔ attempts = 62 ∨ attempts = 64)
  ∧ (∀ delay, retryDelaySeconds draw attempts = Some delay →
              0 <= delay <= window attempts)
  ∧ (attempts < 1 →
     retryDelaySeconds draw attempts = retryDelaySeconds draw 1)
  ∧ (65 <= attempts → retryDelaySeconds draw attempts = Some 0).
Proof.
  assert (attempts <= 61 ∨ attempts = 62 ∨ attempts = 63 ∨ attempts = 64
          ∨ 65 <= attempts) as Hcases by lia.
  split; [|split; [|split]].
  - destruct Hcases as [Hle|[->|[->|[->|Hge]]]].
    + rewrite retry_delay_draw by done. split; [done|lia].
    + split; [by left|intros _].
      unfold retryDelaySeconds.
      by change (Int64.shl base (62 - 1)) with (-6917529027641081856).
    + rewrite retry_delay_at_63. split; [done|lia].
    + split; [by right|intros _]. apply retry_delay_panics_at_64.
    + rewrite retry_delay_beyond_word by done. split; [done|lia].
  - intros delay. destruct Hcases as [Hle|[->|[->|[->|Hge]]]].
    + destruct (retry_delay_full_window attempts Hle) as [Hin _].
      destruct (Hin draw) as (d & -> & Hd). by intros [= <-].
    + unfold retryDelaySeconds.
      by change (Int64.shl base (62 - 1)) with (-6917529027641081856).
    + rewrite retry_delay_at_63. intros [= <-].
      rewrite window_capped by lia. unfold capDelay.
      pose proof (Z.mod_pos_bound draw 31). lia.
    + by rewrite retry_delay_panics_at_64.
    + rewrite retry_delay_beyond_word by done. intros [= <-].
      pose proof (window_bounds attempts). lia.
  - intros Hlt. unfold retryDelaySeconds.
    by destruct (Z.ltb_spec attempts 1); [|lia].
  - apply retry_delay_beyond_word.
Qed.

(** ** Retries in the states the broker reaches *)

(** The attempt counts [retryDelaySeconds] is called with. *)
Lemma retry_attempts_small id job :
  JobOK id job → Attempts (recordFailure job) < MaxTries job →
  Attempts (recordFailure job) = 1 ∨ Attempts (recordFailure job) = 2.
Proof.
  intros [_ Hmax Hatt _]. rewrite recordFailure_attempts by lia. lia.
Qed.

Lemma poll_never_panics method body now order timedOut (jobs : gmap string Job) :
  (poll method body now order timedOut jobs).1 ≠ Panicked.
Proof.
  unfold poll. case_decide; [done|]. destruct body as [req|]; [|done].
  case_decide; [done|].
  destruct (pollScan _ _ _ _) as [[job jobs']|]; [done|].
  by destruct timedOut.
Qed.

(** X12. In the states the broker reaches no handler panics: [/fail]
    calls [retryDelaySeconds] with 1 or 2 attempts only, far from the
    counts at which the shift overflows. *)
Theorem handlers_never_panic (sys : System) (ev : Event) (out : Output)
    (sys' : System) :
  reachable sys → step sys ev = Some (out, sys') → panicked out = false.
Proof.
  intros Hok%reachable_ok Hstep. unfold panicked.
  destruct ev as [g method idemKey|g body id|g|method body now order timedOut
                 |method body now|method body now draw|now order|];
    simpl in Hstep.
  - destruct (enqueuing sys !! g); [done|].
    case_decide; [by injection Hstep as <- <-|].
    destruct (enqueueBegin idemKey (idem (broker sys))) as [[r|] idem1] eqn:Hb;
      injection Hstep as <- <-; [|done].
    apply enqueueBegin_replies in Hb as (_ & _ & [(id & _ & _ & ->)|[_ ->]]);
      done.
  - destruct (enqueuing sys !! g) as [[idemKey|idemKey id']|]; try done.
    destruct (decodeEnqueueRequest body); [case_decide; [|done]|];
      by injection Hstep as <- <-.
  - destruct (enqueuing sys !! g) as [[idemKey|idemKey id']|]; try done.
    by injection Hstep as <- <-.
  - pose proof (poll_never_panics method body now order timedOut
                  (jobs (broker sys))) as Hp.
    destruct (poll _ _ _ _ _ _) as [r jobs']. injection Hstep as <- <-.
    simpl in *. by destruct r.
  - destruct (ack _ _ _ _) as [r jobs'] eqn:Hack. injection Hstep as <- <-.
    apply ack_cases in Hack as [[_ [code ->]]|(req & job & _ & _ & _ & -> & _)];
      done.
  - destruct (fail _ _ _ _ _) as [r jobs'] eqn:Hfail. injection Hstep as <- <-.
    apply fail_cases in Hfail
      as [[_ [code ->]]
         |(req & job & _ & Hjob & _
           & [(_ & -> & _)|[(_ & d & _ & -> & _)|(Hlt & Hnone & _)]])];
      try done.
    destruct (retry_attempts_small _ _ (sys_jobs _ Hok _ _ Hjob) Hlt) as [Ha|Ha];
      rewrite Ha, retry_delay_draw in Hnone by lia; done.
  - destruct (sweeperTick _ _ _) as [ops jobs']. by injection Hstep as <- <-.
  - by injection Hstep as <- <-.
Qed.

Lemma handlers_never_panic_witness :
  panicked (mkOutput (Some (Reply StatusOK)) []) = false.
Proof.
  apply (handlers_never_panic (finalState failThrice) thirdFail
           (mkOutput (Some (Reply StatusOK)) []) (finalState failToDeath)).
  - exists failThrice, (outputs failThrice). vm_compute; reflexivity.
  - vm_compute; reflexivity.
Defined.

(** X13. A failure that the broker accepts, on a job it has reached,
    either buries the job at its third attempt or requeues it with a
    delay of at most 5 seconds after the first failure and 10 after the
    second: from 10 seconds after the failure on, the job can be leased
    again. *)
Theorem retry_comes_back_within_ten_seconds (sys : System) (method : string)
    (req : FailRequest) (now draw : Z) (out : Output) (sys' : System)
    (job : Job) :
  reachable sys → Int64.in_range now → Int64.in_range (now + 10) →
  step sys (Fail method (Some req) now draw) = Some (out, sys') →
  jobs (broker sys) !! fail_JobID req = Some job → State job ≠ StateDone →
  reply out = Some (Reply StatusOK) →
  ∃ job',
    jobs (broker sys') !! fail_JobID req = Some job'
    ∧ Attempts job' = Attempts job + 1
    ∧ ((State job' = StateDead ∧ Attempts job' = 3)
       ∨ (State job' = StateQueued ∧ Attempts job' < 3
          ∧ now <= NextAvailableAt job' <= now + window (Attempts job')
          ∧ window (Attempts job') <= 10
          ∧ ∀ t, now + 10 <= t → eligible t job' = true)).
Proof.
  intros Hok%reachable_ok Hnow Hnow10 Hstep Hjob Hnd Hreply.
  simpl in Hstep.
  destruct (fail _ _ _ _ _) as [r jobs'] eqn:Hfail. injection Hstep as <- <-.
  simpl in Hreply. injection Hreply as ->. simpl.
  pose proof (sys_jobs _ Hok _ _ Hjob) as Hjok.
  pose proof Hjok as [_ Hmax Hatt Hdead].
  assert (Attempts (recordFailure job) = Attempts job + 1) as Hrec
    by (apply recordFailure_attempts; lia).
  unfold fail in Hfail.
  case_decide; [done|]. case_decide; [done|].
  rewrite Hjob in Hfail. case_decide; [done|].
  case_decide; [done|]. case_decide; [done|]. case_decide; [done|].
  cbv zeta in Hfail. case_decide as Hge.
  - injection Hfail as <-. exists (markDead (recordFailure job)).
    rewrite lookup_insert_eq. split; [done|]. split; [done|].
    left. split; [done|].
    change (Attempts (recordFailure job) = 3).
    change (MaxTries (recordFailure job)) with (MaxTries job) in Hge.
    assert (State job = StateLeased) as Hst
      by (destruct (decide (State job = StateLeased)); [done|tauto]).
    assert (Attempts job ≠ MaxTries job) as Hlive
      by (intros Hfull%Hdead; congruence).
    lia.
  - change (MaxTries (recordFailure job)) with (MaxTries job) in Hge.
    assert (Attempts (recordFailure job) < MaxTries job) as Hlt by lia.
    assert (Attempts (recordFailure job) <= 61) as H61 by lia.
    destruct (retry_attempts_small _ _ Hjok Hlt) as [Ha|Ha].
    all: destruct (retry_delay_full_window (Attempts (recordFailure job)) H61)
           as [Hin _].
    all: destruct (Hin draw) as (d & Hd & Hwin).
    all: rewrite Hd in Hfail; injection Hfail as <-.
    all: exists (scheduleRetry (Int64.add now d) (recordFailure job)).
    all: rewrite lookup_insert_eq; split; [done|]; split; [done|]; right.
    all: assert (window (Attempts (recordFailure job)) <= 10) as Hw10
           by (rewrite Ha; vm_compute; discriminate).
    all: assert (Int64.add now d = now + d) as Hadd
           by (apply add_in_range; in_int64).
    all: change (Attempts (scheduleRetry (Int64.add now d) (recordFailure job)))
           with (Attempts (recordFailure job)).
    all: change (NextAvailableAt
                   (scheduleRetry (Int64.add now d) (recordFailure job)))
           with (Int64.add now d).
    all: rewrite Hadd.
    all: split; [done|]; split; [lia|]; split; [lia|]; split; [done|].
    all: intros t Ht; apply eligible_spec; split; [done|]; right.
    all: change (NextAvailableAt (scheduleRetry (now + d) (recordFailure job)))
           with (now + d); lia.
Qed.

Lemma retry_comes_back_within_ten_seconds_witness :
  ∃ job',
    jobs (broker (finalState (firstn 5 failThrice))) !! uuid1 = Some job'
    ∧ Attempts job' = Attempts (lease "w1" 100 (newJob uuid1 "p")) + 1
    ∧ ((State job' = StateDead ∧ Attempts job' = 3)
       ∨ (State job' = StateQueued ∧ Attempts job' < 3
          ∧ 101 <= NextAvailableAt job' <= 101 + window (Attempts job')
          ∧ window (Attempts job') <= 10
          ∧ ∀ t, 101 + 10 <= t → eligible t job' = true)).
Proof.
  apply (retry_comes_back_within_ten_seconds (finalState (firstn 4 failThrice))
           MethodPost (mkFailRequest "w1" uuid1 1) 101 0
           (mkOutput (Some (Reply StatusOK)) [])
           (finalState (firstn 5 failThrice))
           (lease "w1" 100 (newJob uuid1 "p"))).
  - exists (firstn 4 failThrice), (outputs (firstn 4 failThrice)).
    vm_compute; reflexivity.
  - in_int64.
  - in_int64.
  - vm_compute; reflexivity.
  - vm_compute; reflexivity.
  - discriminate.
  - reflexivity.
Defined.

(** ** Reserved idempotency keys *)

(** A key marked [PENDING] belongs to a request that is inside
    [/enqueue]. *)
Lemma step_pending sys ev out sys' :
  SysOK sys →
  (∀ k, idem (broker sys) !! k = Some PENDING → k ≠ "" ∧ heldBy sys k) →
  step sys ev = Some (out, sys') →
  ∀ k, idem (broker sys') !! k = Some PENDING → k ≠ "" ∧ heldBy sys' k.
Proof.
  intros Hok Hinv Hstep.
  assert (jobEvent ev → ∀ k, idem (broker sys') !! k = Some PENDING →
                             k ≠ "" ∧ heldBy sys' k) as Hframe.
  { intros Hev k. destruct (step_job_event _ _ _ _ Hev Hstep) as [Hi He].
    unfold heldBy. rewrite Hi, He. apply Hinv. }
  destruct ev as [g method idemKey|g body id|g|method body now order timedOut
                 |method body now|method body now draw|now order|];
    try (by apply Hframe); simpl in Hstep.
  - destruct (enqueuing sys !! g) eqn:Hg; [done|].
    case_decide; [by injection Hstep as <- <-|].
    destruct (enqueueBegin idemKey (idem (broker sys))) as [[r|] idem1] eqn:Hb;
      injection Hstep as <- <-; [done|].
    intros k. simpl. unfold heldBy. simpl.
    apply enqueueBegin_proceeds in Hb as [[-> ->]|(Hne & Hfree & ->)].
    + intros (Hk & g0 & pc & Hg0 & Hpc)%Hinv. split; [done|].
      exists g0, pc. split; [|done]. rewrite lookup_insert_ne; [done|].
      intros ->. congruence.
    + destruct (decide (k = idemKey)) as [->|Hkne].
      * intros _. split; [done|]. exists g, (Reserved idemKey).
        by rewrite lookup_insert_eq.
      * rewrite lookup_insert_ne by done.
        intros (Hk & g0 & pc & Hg0 & Hpc)%Hinv. split; [done|].
        exists g0, pc. split; [|done]. rewrite lookup_insert_ne; [done|].
        intros ->. congruence.
  - destruct (enqueuing sys !! g) as [[idemKey|idemKey id']|] eqn:Hg; try done.
    destruct (decodeEnqueueRequest body) as [req|].
    + case_decide; [|done]. injection Hstep as <- <-.
      intros k. simpl. unfold heldBy. simpl.
      intros (Hk & g0 & pc & Hg0 & Hpc)%Hinv. split; [done|].
      destruct (decide (g0 = g)) as [->|Hgne].
      * exists g, (Inserted idemKey id). rewrite lookup_insert_eq.
        split; [done|]. rewrite Hg in Hg0. by injection Hg0 as <-.
      * exists g0, pc. by rewrite lookup_insert_ne.
    + injection Hstep as <- <-.
      intros k. simpl. unfold heldBy. simpl. intros Hk.
      assert (idem (broker sys) !! k = Some PENDING ∧ k ≠ idemKey) as [Hp Hkne].
      { revert Hk. unfold enqueueRelease. case_decide as Hempty.
        - intros Hk. split; [done|]. subst idemKey.
          by destruct (Hinv _ Hk).
        - pose proof (sys_pending _ Hok g (Reserved idemKey) Hg Hempty) as Hp.
          simpl in Hp. rewrite Hp, decide_True by done.
          by intros [? ?]%lookup_delete_Some. }
      destruct (Hinv _ Hp) as (Hk0 & g0 & pc & Hg0 & Hpc). split; [done|].
      exists g0, pc. split; [|done]. rewrite lookup_delete_ne; [done|].
      intros ->. rewrite Hg in Hg0. injection Hg0 as <-. simpl in Hpc. done.
  - destruct (enqueuing sys !! g) as [[idemKey|idemKey id']|] eqn:Hg; try done.
    injection Hstep as <- <-.
    intros k. simpl. unfold heldBy. simpl. intros Hk.
    assert (idem (broker sys) !! k = Some PENDING ∧ k ≠ idemKey) as [Hp Hkne].
    { revert Hk. unfold enqueueCommit. case_decide as Hempty.
      - intros Hk. split; [done|]. subst idemKey. by destruct (Hinv _ Hk).
      - destruct (decide (k = idemKey)) as [->|Hkne].
        + rewrite lookup_insert_eq. intros [= Hid].
          destruct (sys_inserted _ Hok _ _ _ Hg) as [Hlen _].
          by destruct (uuid_not_PENDING _ Hlen).
        + by rewrite lookup_insert_ne. }
    destruct (Hinv _ Hp) as (Hk0 & g0 & pc & Hg0 & Hpc). split; [done|].
    exists g0, pc. split; [|done]. rewrite lookup_delete_ne; [done|].
    intros ->. rewrite Hg in Hg0. injection Hg0 as <-. simpl in Hpc. done.
Qed.

Lemma exec_pending evs : ∀ sys outs sys',
  SysOK sys →
  (∀ k, idem (broker sys) !! k = Some PENDING → k ≠ "" ∧ heldBy sys k) →
  exec sys evs = Some (outs, sys') →
  ∀ k, idem (broker sys') !! k = Some PENDING → k ≠ "" ∧ heldBy sys' k.
Proof.
  induction evs as [|ev evs IH]; intros sys outs sys' Hok Hinv; simpl.
  { by intros [= <- <-]. }
  destruct (step sys ev) as [[out sys1]|] eqn:Hstep; [|done].
  destruct (exec sys1 evs) as [[outs1 sys2]|] eqn:Hexec; [|done].
  intros [= <- <-].
  eapply IH; [by eapply step_ok|by eapply step_pending|done].
Qed.

(** X14. A key is marked [PENDING] exactly while a request that sent it
    is between the key check of [/enqueue] and its end: no reservation is
    left behind by a request that has answered. While the mark is there,
    another request with that key is turned away with 409 and changes
    nothing. *)
Theorem pending_means_in_flight (sys : System) (idemKey : string) :
  reachable sys →
  (idem (broker sys) !! idemKey = Some PENDING
   ↔ idemKey ≠ "" ∧ heldBy sys idemKey)
  ∧ (idem (broker sys) !! idemKey = Some PENDING →
     ∀ g, enqueuing sys !! g = None →
          step sys (EnqueueBegin g MethodPost idemKey)
          = Some (mkOutput (Some (Reply StatusConflict)) [], sys)).
Proof.
  intros Hreach. pose proof (reachable_ok _ Hreach) as Hok.
  destruct Hreach as (evs & outs & Hexec).
  assert (∀ k, idem (broker sys) !! k = Some PENDING → k ≠ "" ∧ heldBy sys k)
    as Hinv.
  { eapply exec_pending; [apply init_ok| |exact Hexec].
    intros k. simpl. by rewrite lookup_empty. }
  split; [split|].
  - apply Hinv.
  - intros (Hne & g & pc & Hg & <-). by eapply sys_pending.
  - intros Hp g Hg. simpl. rewrite Hg.
    unfold enqueueBegin. destruct (Hinv _ Hp) as [Hne _].
    rewrite decide_False by done. by rewrite Hp.
Qed.

Lemma pending_means_in_flight_witness :
  (idem (broker (finalState (firstn 2 enqueueK))) !! "K" = Some PENDING
   ↔ "K" ≠ "" ∧ heldBy (finalState (firstn 2 enqueueK)) "K")
  ∧ (idem (broker (finalState (firstn 2 enqueueK))) !! "K" = Some PENDING →
     ∀ g, enqueuing (finalState (firstn 2 enqueueK)) !! g = None →
          step (finalState (firstn 2 enqueueK)) (EnqueueBegin g MethodPost "K")
          = Some (mkOutput (Some (Reply StatusConflict)) [],
                  finalState (firstn 2 enqueueK))).
Proof.
  apply (pending_means_in_flight (finalState (firstn 2 enqueueK)) "K").
  exists (firstn 2 enqueueK), (outputs (firstn 2 enqueueK)).
  vm_compute; reflexivity.
Defined.

(** ** From the producer to the worker *)

Lemma enqueue_accepted method idemKey body id b b' :
  enqueue method idemKey body id b = (ReplyJobID id, [Signal], b') →
  ∃ req,
    decodeEnqueueRequest body = Some req
    ∧ jobs b' = <[id := newJob id (enq_Payload req)]> (jobs b)
    ∧ (idemKey ≠ "" → idem b' !! idemKey = Some id).
Proof.
  unfold enqueue. case_decide; [done|].
  destruct (enqueueBegin idemKey (idem b)) as [[r|] idem1]; [done|].
  destruct (decodeEnqueueRequest body) as [req|]; [|done].
  intros [= <-]. exists req. split; [done|]. split; [done|].
  intros Hne. simpl. unfold enqueueCommit. rewrite decide_False by done.
  apply lookup_insert_eq.
Qed.

(** X15. A job that is enqueued while nothing else can be leased is
    what the next poll returns: the worker receives the id the producer
    was given, the payload as it was sent, lease id 1, no attempts, and a
    lease of 30 seconds; and the key of the request is bound to the job. *)
Theorem enqueued_job_is_delivered (sys : System) (g : nat)
    (idemKey payload id worker : string) (now : Z) (order : list string) :
  enqueuing sys !! g = None → freshUUID id (jobs (broker sys)) →
  idemKey = "" ∨ idem (broker sys) !! idemKey = None →
  worker ≠ "" → id ∈ order → Int64.in_range (now + 30) →
  (∀ id' job, jobs (broker sys) !! id' = Some job → eligible now job = false) →
  ∃ outs sys',
    exec sys [EnqueueBegin g MethodPost idemKey;
              EnqueueDecode g (BodyObject (Some payload)) id;
              EnqueueCommit g;
              Poll MethodPost (Some (mkPollRequest worker)) now order false]
    = Some (outs, sys')
    ∧ omap reply outs
      = [ReplyJobID id; ReplyJob (firstLease id payload worker now)]
    ∧ jobs (broker sys') !! id = Some (firstLease id payload worker now)
    ∧ (idemKey ≠ "" → idem (broker sys') !! idemKey = Some id).
Proof.
  intros Hg Hfresh Hkey Hw Hin Hnow Hnone.
  destruct (enqueue_in_three_steps sys g idemKey (BodyObject (Some payload)) id)
    as (outs3 & sys3 & Hexec3 & Henq & Hout3 & _); [done|done|done| |].
  { intros existing Hex. destruct Hkey as [->|Hfree]; [done|congruence]. }
  apply enqueue_accepted in Henq as (req & [= <-] & Hjobs3 & Hidem3).
  simpl in Hjobs3.
  assert (lease worker now (newJob id payload)
          = firstLease id payload worker now) as Hlease.
  { unfold lease, firstLease. simpl. f_equal. by apply add_in_range. }
  assert (pollScan worker now order (jobs (broker sys3))
          = Some (firstLease id payload worker now,
                  <[id := firstLease id payload worker now]>
                    (jobs (broker sys3)))) as Hscan.
  { destruct (pollScan_finds worker now order (jobs (broker sys3)) id
                (newJob id payload)) as [[job' jobs'] Hscan];
      [done|by rewrite Hjobs3, lookup_insert_eq|done|].
    rewrite Hscan.
    apply pollScan_Some in Hscan as (id0 & job0 & _ & Hjob0 & Hel & -> & ->).
    rewrite Hjobs3 in Hjob0. destruct (decide (id0 = id)) as [->|Hne].
    - rewrite lookup_insert_eq in Hjob0. injection Hjob0 as <-.
      by rewrite Hlease.
    - rewrite lookup_insert_ne in Hjob0 by done.
      rewrite (Hnone _ _ Hjob0) in Hel. done. }
  exists (outs3 ++ [mkOutput (Some (ReplyJob (firstLease id payload worker now)))
                     []])%list,
    (withJobs sys3 (<[id := firstLease id payload worker now]>
                      (jobs (broker sys3)))).
  split; [|split; [|split]].
  - apply (exec_app [EnqueueBegin g MethodPost idemKey;
                     EnqueueDecode g (BodyObject (Some payload)) id;
                     EnqueueCommit g]
                    [Poll MethodPost (Some (mkPollRequest worker)) now order
                          false]).
    eexists outs3, sys3, _. split; [done|]. split; [|done].
    cbn [exec step]. unfold poll.
    rewrite decide_False by (by intros []).
    cbn [poll_WorkerID]. rewrite decide_False by done.
    by rewrite Hscan.
  - rewrite omap_app, Hout3. done.
  - simpl. apply lookup_insert_eq.
  - done.
Qed.

Lemma enqueued_job_is_delivered_witness :
  ∃ outs sys',
    exec init [EnqueueBegin 0 MethodPost "K";
               EnqueueDecode 0 (BodyObject (Some "a")) uuid1;
               EnqueueCommit 0;
               Poll MethodPost (Some (mkPollRequest "w1")) 100 [uuid1] false]
    = Some (outs, sys')
    ∧ omap reply outs = [ReplyJobID uuid1; ReplyJob (firstLease uuid1 "a" "w1" 100)]
    ∧ jobs (broker sys') !! uuid1 = Some (firstLease uuid1 "a" "w1" 100)
    ∧ ("K" ≠ "" → idem (broker sys') !! "K" = Some uuid1).
Proof.
  apply (enqueued_job_is_delivered init 0 "K" "a" uuid1 "w1" 100 [uuid1]).
  - reflexivity.
  - split; reflexivity.
  - right. reflexivity.
  - discriminate.
  - apply list_elem_of_here.
  - in_int64.
  - intros id' job. simpl. by rewrite lookup_empty.
Defined.

(** ** Redelivery *)

Lemma leasedTo_Some id out leaseID :
  leasedTo id out = Some leaseID →
  ∃ r, reply out = Some (ReplyJob r) ∧ ID r = id ∧ LeaseID r = leaseID.
Proof.
  unfold leasedTo. destruct (reply out) as [[| |r| |]|]; try done.
  case_decide; [|done]. intros [= <-]. by exists r.
Qed.

(** A job that is not QUEUED is handed to nobody while no failure is
    reported and the sweeper does not run. *)
Lemma exec_no_lease id evs : ∀ sys outs sys' job,
  SysOK sys → exec sys evs = Some (outs, sys') →
  Forall (λ ev, requeues ev = false) evs →
  jobs (broker sys) !! id = Some job → State job ≠ StateQueued →
  leasesOf id outs = [].
Proof.
  induction evs as [|ev evs IH]; intros sys outs sys' job Hok; simpl.
  { by intros [= <- <-]. }
  destruct (step sys ev) as [[out sys1]|] eqn:Hstep; [|done].
  destruct (exec sys1 evs) as [[outs1 sys2]|] eqn:Hexec; [|done].
  intros [= <- <-] [Hev Hevs]%Forall_cons Hjob Hst.
  destruct (step_job sys ev out sys1 id job (keyed_of_ok _ Hok) Hstep Hjob)
    as (job1 & Hjob1 & Hjs).
  assert (leasedTo id out = None ∧ State job1 ≠ StateQueued) as [Hnone Hst1].
  { destruct Hjs as [method worker now order timedOut Hel
                    |method req now Hid Hst0
                    |method req now draw Hid Hst0 Hge
                    |method req now draw delay Hid Hst0 Hlt Hdelay
                    |method req now draw Hid Hst0 Hlt Hdelay
                    |now order Hexp
                    |ev out Hout]; try done.
    apply eligible_spec in Hel as [Hq _]. done. }
  rewrite leasesOf_cons, Hnone.
  eapply IH; [by eapply step_ok|done|done|done|done].
Qed.

(** X16. At most one delivery without a failure: in a stretch of a run
    in which no [/fail] request arrives and the sweeper does not run, no
    job is leased twice. A second delivery of a job needs a reported
    failure or an expired lease in between. *)
Theorem one_delivery_without_failure (sys : System) (evs : list Event)
    (outs : list Output) (sys' : System) (id : string) :
  reachable sys → exec sys evs = Some (outs, sys') →
  Forall (λ ev, requeues ev = false) evs →
  (length (leasesOf id outs) ≤ 1)%nat.
Proof.
  intros Hok%reachable_ok. revert sys outs sys' Hok.
  induction evs as [|ev evs IH]; intros sys outs sys' Hok; simpl.
  { intros [= <- <-] _. simpl. lia. }
  destruct (step sys ev) as [[out sys1]|] eqn:Hstep; [|done].
  destruct (exec sys1 evs) as [[outs1 sys2]|] eqn:Hexec; [|done].
  intros [= <- <-] [Hev Hevs]%Forall_cons.
  rewrite leasesOf_cons.
  destruct (leasedTo id out) as [leaseID|] eqn:Hlease.
  - apply leasedTo_Some in Hlease as (r & Hreply & Hid & _).
    destruct (step_reply_job _ _ _ _ _ Hok Hstep Hreply) as (Hpoll & Hr & _).
    assert (State r = StateLeased) as Hst.
    { destruct ev as [| | |method body now order timedOut| | | |]; try done.
      simpl in Hstep.
      destruct (poll _ _ _ _ _ _) as [r0 jobs'] eqn:Hp.
      injection Hstep as <- <-. simpl in Hreply. injection Hreply as ->.
      apply poll_cases in Hp
        as [[_ Hno]|(worker & id0 & job0 & _ & _ & _ & [= ->] & _)];
        [by destruct (Hno r)|done]. }
    rewrite (exec_no_lease id evs sys1 outs1 sys2 r);
      [simpl; lia|by eapply step_ok|done|done|by rewrite <- Hid|congruence].
  - eapply IH; [by eapply step_ok|done|done].
Qed.

Lemma one_delivery_without_failure_witness :
  (length (leasesOf uuid1 (outputs (firstn 5 blockedPoll))) ≤ 1)%nat.
Proof.
  apply (one_delivery_without_failure init (firstn 5 blockedPoll)
           (outputs (firstn 5 blockedPoll))
           (finalState (firstn 5 blockedPoll)) uuid1).
  - by exists [], [].
  - vm_compute; reflexivity.
  - repeat constructor.
Defined.

(** ** Jobs that are finished *)

(** X17. A job that is DONE or DEAD is never handed out again: whatever
    happens afterwards, no poll returns it and its record stays as it
    is. *)
Theorem finished_job_never_redelivered (sys : System) (evs : list Event)
    (outs : list Output) (sys' : System) (id : string) (job : Job) :
  reachable sys → exec sys evs = Some (outs, sys') →
  jobs (broker sys) !! id = Some job →
  State job = StateDone ∨ State job = StateDead →
  leasesOf id outs = [] ∧ jobs (broker sys') !! id = Some job.
Proof.
  intros Hok%reachable_ok Hexec Hjob Hfinal.
  split; [|by eapply exec_final_job].
  revert sys outs sys' Hok Hexec Hjob.
  induction evs as [|ev evs IH]; intros sys outs sys' Hok; simpl.
  { by intros [= <- <-]. }
  destruct (step sys ev) as [[out sys1]|] eqn:Hstep; [|done].
  destruct (exec sys1 evs) as [[outs1 sys2]|] eqn:Hexec; [|done].
  intros [= <- <-] Hjob.
  assert (jobs (broker sys1) !! id = Some job) as Hjob1.
  { apply (exec_final_job [ev] sys [out] sys1); [done| |done|done].
    simpl. by rewrite Hstep. }
  assert (leasedTo id out = None) as Hnone.
  { destruct (leasedTo id out) as [leaseID|] eqn:Hlease; [|done].
    apply leasedTo_Some in Hlease as (r & Hreply & Hid & _).
    destruct (step_reply_job _ _ _ _ _ Hok Hstep Hreply) as (Hpoll & Hr & _).
    destruct ev as [| | |method body now order timedOut| | | |]; try done.
    simpl in Hstep.
    destruct (poll _ _ _ _ _ _) as [r0 jobs'] eqn:Hp.
    injection Hstep as <- <-. simpl in Hreply. injection Hreply as ->.
    apply poll_cases in Hp
      as [[_ Hno]|(worker & id0 & job0 & _ & _ & _ & [= ->] & _)];
      [by destruct (Hno r)|].
    rewrite Hid, Hjob1 in Hr. injection Hr as ->.
    destruct Hfinal; done. }
  rewrite leasesOf_cons, Hnone.
  eapply IH; [by eapply step_ok|done|done].
Qed.

Lemma finished_job_never_redelivered_witness :
  leasesOf uuid1 [mkOutput (Some Waiting) []; mkOutput None []] = []
  ∧ jobs (broker (finalState
                    (failToDeath
                     ++ [Poll MethodPost (Some (mkPollRequest "w1")) 200
                              [uuid1] false;
                         Sweep 300 [uuid1]]))) !! uuid1
    = Some deadJob.
Proof.
  apply (finished_job_never_redelivered (finalState failToDeath)
           [Poll MethodPost (Some (mkPollRequest "w1")) 200 [uuid1] false;
            Sweep 300 [uuid1]]
           [mkOutput (Some Waiting) []; mkOutput None []]
           (finalState
              (failToDeath
               ++ [Poll MethodPost (Some (mkPollRequest "w1")) 200 [uuid1] false;
                   Sweep 300 [uuid1]]))
           uuid1 deadJob).
  - exists failToDeath, (outputs failToDeath). vm_compute; reflexivity.
  - vm_compute; reflexivity.
  - vm_compute; reflexivity.
  - by right.
Defined.

(** ** Leases end *)

Lemma step_lease_positive sys ev out sys' :
  SysOK sys → unixTime ev →
  (∀ id job, jobs (broker sys) !! id = Some job → State job = StateLeased →
             0 < LeaseExpiresAt job) →
  step sys ev = Some (out, sys') →
  ∀ id job, jobs (broker sys') !! id = Some job → State job = StateLeased →
            0 < LeaseExpiresAt job.
Proof.
  intros Hok Htime Hinv Hstep id job' Hjob' Hst'.
  destruct (jobs (broker sys) !! id) as [job|] eqn:Hjob.
  - destruct (step_job sys ev out sys' id job (keyed_of_ok _ Hok) Hstep Hjob)
      as (job1 & Hjob1 & Hjs).
    rewrite Hjob' in Hjob1. injection Hjob1 as <-.
    destruct Hjs as [method worker now order timedOut Hel
                    |method req now Hid Hst0
                    |method req now draw Hid Hst0 Hge
                    |method req now draw delay Hid Hst0 Hlt Hdelay
                    |method req now draw Hid Hst0 Hlt Hdelay
                    |now order Hexp
                    |ev out Hout]; try done.
    + destruct (Htime now eq_refl) as [Hpos Hrange].
      change (0 < Int64.add now 30). rewrite add_in_range by done. lia.
    + by apply (Hinv id job).
    + by apply (Hinv id job).
  - destruct (step_new_job _ _ _ _ _ _ Hstep Hjob Hjob')
      as (g & body & payload & _ & -> & _).
    done.
Qed.

(** X18. No lease lasts for ever. With the clock at Unix time, every
    LEASED job in a state the broker reaches has an owner and a positive
    expiry time, so the guard [LeaseExpiresAt > 0] of the sweeper never
    spares it: the first pass at or after that time puts the job back in
    the queue, where any poll may lease it. *)
Theorem every_lease_ends (evs : list Event) (outs : list Output)
    (sys : System) (id : string) (job : Job) :
  exec init evs = Some (outs, sys) → Forall unixTime evs →
  jobs (broker sys) !! id = Some job → State job = StateLeased →
  0 < LeaseExpiresAt job
  ∧ ∀ now order, visitsAll order (jobs (broker sys)) →
      LeaseExpiresAt job <= now →
      ∃ job', (expireLeases now order (jobs (broker sys))).2 !! id = Some job'
              ∧ State job' = StateQueued
              ∧ ∀ now', eligible now' job' = true.
Proof.
  intros Hexec Htimes Hjob Hst.
  assert (∀ evs sys0 outs sys,
            SysOK sys0 →
            (∀ id job, jobs (broker sys0) !! id = Some job →
                       State job = StateLeased → 0 < LeaseExpiresAt job) →
            exec sys0 evs = Some (outs, sys) → Forall unixTime evs →
            ∀ id job, jobs (broker sys) !! id = Some job →
                      State job = StateLeased → 0 < LeaseExpiresAt job)
    as Hrun.
  { clear. induction evs as [|ev evs IH]; intros sys0 outs sys Hok Hinv; simpl.
    { by intros [= <- <-]. }
    destruct (step sys0 ev) as [[out sys1]|] eqn:Hstep; [|done].
    destruct (exec sys1 evs) as [[outs1 sys2]|] eqn:Hexec; [|done].
    intros [= <- <-] [Hev Hevs]%Forall_cons.
    eapply IH; [by eapply step_ok| |done|done].
    by eapply step_lease_positive. }
  assert (0 < LeaseExpiresAt job) as Hpos.
  { eapply (Hrun evs init outs sys); [apply init_ok| |done|done|done|done].
    intros id0 job0. simpl. by rewrite lookup_empty. }
  split; [done|]. intros now order Hall Hle.
  assert (leaseExpired now job = true) as Hexp.
  { unfold leaseExpired. rewrite bool_decide_eq_true_2 by done. simpl.
    apply andb_true_iff. split; [by apply Z.ltb_lt|by apply Z.leb_le]. }
  exists (requeueExpired job). split; [|done].
  unfold expireLeases. rewrite expireLoop_store.
  rewrite decide_True by (apply Hall; by rewrite Hjob).
  rewrite Hjob. simpl. by rewrite sweepJob_requeued.
Qed.

Lemma every_lease_ends_witness :
  0 < LeaseExpiresAt (lease "w1" 100 (newJob uuid1 "x"))
  ∧ ∀ now order,
      visitsAll order (jobs (broker (finalState (firstn 4 leaseTwice)))) →
      LeaseExpiresAt (lease "w1" 100 (newJob uuid1 "x")) <= now →
      ∃ job', (expireLeases now order
                 (jobs (broker (finalState (firstn 4 leaseTwice))))).2 !! uuid1
              = Some job'
              ∧ State job' = StateQueued
              ∧ ∀ now', eligible now' job' = true.
Proof.
  apply (every_lease_ends (firstn 4 leaseTwice) (outputs (firstn 4 leaseTwice))
           (finalState (firstn 4 leaseTwice)) uuid1
           (lease "w1" 100 (newJob uuid1 "x"))).
  - vm_compute; reflexivity.
  - repeat (apply List.Forall_cons;
            [intros now Hc; simpl in Hc;
             first [discriminate Hc|injection Hc as <-; in_int64]|]).
    apply List.Forall_nil.
  - vm_compute; reflexivity.
  - reflexivity.
Defined.

(** ** One key, one job *)

Lemma enqueueRelease_lookup idemKey (idem : gmap string string) k v :
  enqueueRelease idemKey idem !! k = Some v → idem !! k = Some v.
Proof.
  unfold enqueueRelease. case_decide; [done|].
  destruct (idem !! idemKey) as [existing|]; [|done].
  case_decide; [|done]. by intros [_ ?]%lookup_delete_Some.
Qed.

Lemma step_registry sys ev out sys' :
  SysOK sys → RegistryOK sys → step sys ev = Some (out, sys') →
  RegistryOK sys'.
Proof.
  intros Hok [Hinj Hunb Hown] Hstep.
  assert (jobEvent ev → RegistryOK sys') as Hframe.
  { intros Hev. destruct (step_job_event _ _ _ _ Hev Hstep) as [Hi He].
    split; rewrite ?Hi, ?He; eauto. }
  destruct ev as [g method idemKey|g body id|g|method body now order timedOut
                 |method body now|method body now draw|now order|];
    try (by apply Hframe); simpl in Hstep.
  - destruct (enqueuing sys !! g) eqn:Hg; [done|].
    case_decide; [by injection Hstep as <- <-|].
    destruct (enqueueBegin idemKey (idem (broker sys))) as [[r|] idem1] eqn:Hb;
      injection Hstep as <- <-; [done|].
    assert (∀ k v, idem1 !! k = Some v → v ≠ PENDING →
                   idem (broker sys) !! k = Some v) as Hold.
    { apply enqueueBegin_proceeds in Hb as [[_ ->]|(_ & _ & ->)]; [done|].
      intros k v [[_ <-]|[_ ?]]%lookup_insert_Some; done. }
    split; simpl.
    + intros k1 k2 id H1 H2 Hid. eapply Hinj; eauto.
    + intros g0 k id k' [[_ [=]]|[_ Hg0]]%lookup_insert_Some Hk'.
      destruct (sys_inserted _ Hok _ _ _ Hg0) as [Hlen _].
      eapply Hunb; [exact Hg0|]. eapply Hold; [done|].
      by apply uuid_not_PENDING.
    + intros g0 g' k k' id [[_ [=]]|[_ Hg0]]%lookup_insert_Some
        [[_ [=]]|[_ Hg']]%lookup_insert_Some.
      eauto.
  - destruct (enqueuing sys !! g) as [[idemKey|idemKey id']|] eqn:Hg; try done.
    destruct (decodeEnqueueRequest body) as [req|].
    + case_decide as Hfresh; [|done]. injection Hstep as <- <-.
      destruct Hfresh as [Hlen Hnew].
      split; simpl.
      * done.
      * intros g0 k id0 k' [[_ [= <- <-]]|[_ Hg0]]%lookup_insert_Some Hk';
          [|by eapply Hunb].
        destruct (sys_committed _ Hok _ _ Hk' (uuid_not_PENDING _ Hlen))
          as [_ Hsome].
        rewrite Hnew in Hsome. by apply is_Some_None in Hsome.
      * intros g0 g' k k' id0 H0%lookup_insert_Some H'%lookup_insert_Some.
        destruct H0 as [[<- Heq0]|[Hne0 Hg0]], H' as [[<- Heq']|[Hne' Hg']];
          simplify_eq; try done.
        -- destruct (sys_inserted _ Hok _ _ _ Hg') as [_ Hsome].
           rewrite Hnew in Hsome. by apply is_Some_None in Hsome.
        -- destruct (sys_inserted _ Hok _ _ _ Hg0) as [_ Hsome].
           rewrite Hnew in Hsome. by apply is_Some_None in Hsome.
        -- eauto.
    + injection Hstep as <- <-. split; simpl.
      * intros k1 k2 id0 H1%enqueueRelease_lookup H2%enqueueRelease_lookup.
        eauto.
      * intros g0 k id0 k' [_ Hg0]%lookup_delete_Some
          Hk'%enqueueRelease_lookup.
        eauto.
      * intros g0 g' k k' id0 [_ Hg0]%lookup_delete_Some
          [_ Hg']%lookup_delete_Some.
        eauto.
  - destruct (enqueuing sys !! g) as [[idemKey|idemKey id']|] eqn:Hg; try done.
    injection Hstep as <- <-. unfold enqueueCommit.
    destruct (decide (idemKey = "")) as [Hempty|Hempty]; split; simpl.
    + done.
    + intros g0 k id0 k' [_ Hg0]%lookup_delete_Some. eauto.
    + intros g0 g' k k' id0 [_ Hg0]%lookup_delete_Some
        [_ Hg']%lookup_delete_Some.
      eauto.
    + intros k1 k2 id0 H1%lookup_insert_Some H2%lookup_insert_Some Hid.
      destruct H1 as [[<- <-]|[Hne1 H1]], H2 as [[<- H2]|[Hne2 H2]];
        simplify_eq; try done.
      * by destruct (Hunb _ _ _ _ Hg H2).
      * by destruct (Hunb _ _ _ _ Hg H1).
      * eauto.
    + intros g0 k id0 k' [Hne Hg0]%lookup_delete_Some
        [[_ <-]|[_ Hk']]%lookup_insert_Some.
      * destruct Hne. symmetry. eauto.
      * eauto.
    + intros g0 g' k k' id0 [_ Hg0]%lookup_delete_Some
        [_ Hg']%lookup_delete_Some.
      eauto.
Qed.

Lemma exec_registry evs : ∀ sys outs sys',
  SysOK sys → RegistryOK sys → exec sys evs = Some (outs, sys') →
  RegistryOK sys'.
Proof.
  induction evs as [|ev evs IH]; intros sys outs sys' Hok Hreg; simpl.
  { by intros [= <- <-]. }
  destruct (step sys ev) as [[out sys1]|] eqn:Hstep; [|done].
  destruct (exec sys1 evs) as [[outs1 sys2]|] eqn:Hexec; [|done].
  intros [= <- <-].
  eapply IH; [by eapply step_ok|by eapply step_registry|done].
Qed.

(** X19. No job belongs to two keys: in every state the broker
    reaches, two idempotency keys that are bound to the same job id are
    the same key. *)
Theorem keys_name_distinct_jobs (sys : System) (k1 k2 id : string) :
  reachable sys →
  idem (broker sys) !! k1 = Some id → idem (broker sys) !! k2 = Some id →
  String.length id = 36%nat → k1 = k2.
Proof.
  intros Hreach H1 H2 Hlen. pose proof (reachable_ok _ Hreach) as Hok.
  destruct Hreach as (evs & outs & Hexec).
  assert (RegistryOK sys) as [Hinj _ _].
  { eapply exec_registry; [apply init_ok| |exact Hexec].
    split; simpl; intros *; by rewrite lookup_empty. }
  eapply Hinj; [done|done|]. by apply uuid_not_PENDING.
Qed.

Lemma keys_name_distinct_jobs_witness : "K" = "K".
Proof.
  apply (keys_name_distinct_jobs (finalState (enqueueK ++ [EnqueueCommit 0]))
           "K" "K" uuid1).
  - exists (enqueueK ++ [EnqueueCommit 0])%list,
      (outputs (enqueueK ++ [EnqueueCommit 0])).
    vm_compute; reflexivity.
  - vm_compute; reflexivity.
  - vm_compute; reflexivity.
  - reflexivity.
Defined.

(** * The final broker and the first *)

Lemma forget_expireLoop now order : ∀ (jobs : gmap string Job) expiredIDs,
  V1.expireLoop now order (forgetJob <$> jobs) expiredIDs
  = ((expireLoop now order jobs expiredIDs).1,
     forgetJob <$> (expireLoop now order jobs expiredIDs).2).
Proof.
  induction order as [|id order IH]; intros jobs expiredIDs; simpl; [done|].
  rewrite lookup_fmap. destruct (jobs !! id) as [job|]; simpl; [|apply IH].
  change (V1.leaseExpired now (forgetJob job)) with (leaseExpired now job).
  destruct (leaseExpired now job); [|apply IH].
  change (V1.requeueExpired (forgetJob job))
    with (forgetJob (requeueExpired job)).
  rewrite <- fmap_insert. apply IH.
Qed.

Lemma forget_pollScan worker now order (jobs : gmap string Job) :
  noPendingRetry now jobs →
  V1.pollScan worker now order (forgetJob <$> jobs)
  = (λ r : Job * gmap string Job, (forgetJob r.1, forgetJob <$> r.2))
      <$> pollScan worker now order jobs.
Proof.
  intros Hnone. induction order as [|id order IH]; simpl; [done|].
  rewrite lookup_fmap. destruct (jobs !! id) as [job|] eqn:Hjob; simpl;
    [|apply IH].
  change (V1.State (forgetJob job)) with (State job).
  assert (eligible now job = bool_decide (State job = StateQueued)) as ->.
  { unfold eligible. destruct (decide (State job = StateQueued)) as [Hq|Hq].
    - rewrite bool_decide_eq_true_2 by done. simpl.
      destruct (Hnone _ _ Hjob Hq) as [->|Hle]; [done|].
      apply orb_true_iff. right. by apply Z.leb_le.
    - by rewrite bool_decide_eq_false_2. }
  destruct (bool_decide (State job = StateQueued)); [|apply IH].
  simpl. by rewrite fmap_insert.
Qed.

(** X20. Fencing is all that [/ack] gained since [main.go]. An
    acknowledgement whose token is the current one is answered by the
    final broker as [main.go] answers it, with the same effect on the
    store. An acknowledgement by the owner of a live lease with another
    token is the one case apart: the final broker refuses it with 409 and
    changes nothing, [main.go] accepts it and marks the job DONE. *)
Theorem ack_fences_what_main_go_accepts (method : string) (req : AckRequest)
    (now : Z) (jobs : gmap string Job) :
  (tokenCurrent req now jobs →
   ∃ code jobs',
     ack method (Some req) now jobs = (Reply code, jobs')
     ∧ V1.ack method (Some (forgetAck req)) now (forgetJob <$> jobs)
       = (V1.Reply code, forgetJob <$> jobs'))
  ∧ (∀ job,
       method = MethodPost → ack_WorkerID req ≠ "" → ack_JobID req ≠ "" →
       jobs !! ack_JobID req = Some job →
       State job = StateLeased → LeaseOwner job = ack_WorkerID req →
       now < LeaseExpiresAt job → ack_LeaseID req ≠ LeaseID job →
       ack method (Some req) now jobs = (Reply StatusConflict, jobs)
       ∧ V1.ack method (Some (forgetAck req)) now (forgetJob <$> jobs)
         = (V1.Reply StatusOK,
            <[ack_JobID req := V1.markDone (forgetJob job)]>
              (forgetJob <$> jobs))).
Proof.
  split.
  - intros Htoken. unfold ack, V1.ack.
    case_decide; [by eexists _, _|].
    change (V1.ack_WorkerID (forgetAck req)) with (ack_WorkerID req).
    change (V1.ack_JobID (forgetAck req)) with (ack_JobID req).
    case_decide; [by eexists _, _|].
    rewrite lookup_fmap.
    destruct (jobs !! ack_JobID req) as [job|] eqn:Hjob; simpl;
      [|by eexists _, _].
    case_decide; [by eexists _, _|].
    case_decide as Hown; [by eexists _, _|].
    case_decide as Htok.
    + case_decide as Hexp; [by eexists _, _|].
      destruct Htok. apply (Htoken job); [done| | |lia].
      * destruct (decide (State job = StateLeased)); [done|tauto].
      * destruct (decide (LeaseOwner job = ack_WorkerID req)); [done|tauto].
    + case_decide; [by eexists _, _|].
      eexists _, _. split; [done|]. by rewrite fmap_insert.
  - intros job -> Hw Hid Hjob Hst Hown Hlive Htok. unfold ack, V1.ack.
    change (V1.ack_WorkerID (forgetAck req)) with (ack_WorkerID req).
    change (V1.ack_JobID (forgetAck req)) with (ack_JobID req).
    rewrite lookup_fmap, Hjob. simpl.
    repeat (case_decide; try tauto; try congruence; try lia).
Qed.

Lemma ack_fences_what_main_go_accepts_witness :
  ack MethodPost (Some (mkAckRequest "w1" "j" 7)) 100 {[ "j" := staleLease ]}
  = (Reply StatusConflict, {[ "j" := staleLease ]})
  ∧ V1.ack MethodPost (Some (forgetAck (mkAckRequest "w1" "j" 7))) 100
      (forgetJob <$> {[ "j" := staleLease ]})
    = (V1.Reply StatusOK,
       <["j" := V1.markDone (forgetJob staleLease)]>
         (forgetJob <$> {[ "j" := staleLease ]})).
Proof.
  apply (proj2 (ack_fences_what_main_go_accepts MethodPost
                  (mkAckRequest "w1" "j" 7) 100 {[ "j" := staleLease ]})
           staleLease); try done.
Defined.

(** X21. With no retry pending, the sweeper and [/poll] of the final
    broker do to the store what those of [main.go] do, lease ids and retry
    times apart: the same ids are requeued, and a poll leases the same job
    for the same worker; where the final broker waits, [main.go] answers
    204 at once. *)
Theorem sweep_and_poll_as_in_main_go (now : Z) (order : list string)
    (jobs : gmap string Job) :
  V1.expireLeases now order (forgetJob <$> jobs)
  = ((expireLeases now order jobs).1,
     forgetJob <$> (expireLeases now order jobs).2)
  ∧ (noPendingRetry now jobs →
     ∀ method body timedOut,
       ∃ r,
         forgetResponse (poll method body now order timedOut jobs).1 = Some r
         ∧ V1.poll method body now order (forgetJob <$> jobs)
           = (r, forgetJob <$> (poll method body now order timedOut jobs).2)).
Proof.
  split; [apply forget_expireLoop|].
  intros Hnone method body timedOut. unfold poll, V1.poll.
  case_decide; [by eexists|]. destruct body as [req|]; [|by eexists].
  case_decide; [by eexists|].
  rewrite forget_pollScan by done.
  destruct (pollScan (poll_WorkerID req) now order jobs) as [[job jobs']|];
    simpl; [by eexists|].
  destruct timedOut; by eexists.
Qed.

Lemma sweep_and_poll_as_in_main_go_witness :
  ∃ r,
    forgetResponse
      (poll MethodPost (Some (mkPollRequest "w2")) 135 ["j"] false
            {[ "j" := requeueExpired staleLease ]}).1 = Some r
    ∧ V1.poll MethodPost (Some (mkPollRequest "w2")) 135 ["j"]
        (forgetJob <$> {[ "j" := requeueExpired staleLease ]})
      = (r, forgetJob
              <$> (poll MethodPost (Some (mkPollRequest "w2")) 135 ["j"] false
                        {[ "j" := requeueExpired staleLease ]}).2).
Proof.
  apply (proj2 (sweep_and_poll_as_in_main_go 135 ["j"]
                  {[ "j" := requeueExpired staleLease ]})).
  intros id job [<- <-]%lookup_singleton_Some _. by left.
Defined.

(** * What a worker is told *)

(** X22. In the states the broker reaches [/fail] answers a request as
    [/ack] answers the same request: the same status for the same worker,
    job and token at the same time, whether the request is accepted or
    refused. A request that is not answered with 200 leaves the store as it
    was. *)
Theorem fail_answers_as_ack (sys : System) (method : string)
    (worker id : string) (leaseID now draw : Z) :
  reachable sys →
  let acked := ack method (Some (mkAckRequest worker id leaseID)) now
                   (jobs (broker sys)) in
  let failed := fail method (Some (mkFailRequest worker id leaseID)) now draw
                     (jobs (broker sys)) in
  failed.1 = acked.1
  ∧ (acked.1 ≠ Reply StatusOK →
     acked.2 = jobs (broker sys) ∧ failed.2 = jobs (broker sys)).
Proof.
  intros Hok%reachable_ok acked failed. subst acked failed.
  unfold ack, fail. simpl.
  case_decide; [done|]. case_decide; [done|].
  destruct (jobs (broker sys) !! id) as [job|] eqn:Hjob; [|done].
  case_decide; [done|]. case_decide; [done|]. case_decide; [done|].
  case_decide; [done|]. cbv zeta.
  pose proof (sys_jobs _ Hok _ _ Hjob) as Hjok.
  case_decide as Hge; [done|].
  change (Int64.add (Attempts job) 1) with (Attempts (recordFailure job)) in *.
  assert (Attempts (recordFailure job) < MaxTries job) as Hlt by lia.
  destruct (retry_attempts_small _ _ Hjok Hlt) as [Ha|Ha];
    rewrite Ha, retry_delay_draw by lia; done.
Qed.

Lemma fail_answers_as_ack_witness :
  (fail MethodPost (Some (mkFailRequest "w2" uuid1 1)) 110 0
        (jobs (broker (finalState (firstn 4 leaseTwice))))).1
  = (ack MethodPost (Some (mkAckRequest "w2" uuid1 1)) 110
         (jobs (broker (finalState (firstn 4 leaseTwice))))).1
  ∧ ((ack MethodPost (Some (mkAckRequest "w2" uuid1 1)) 110
          (jobs (broker (finalState (firstn 4 leaseTwice))))).1
     ≠ Reply StatusOK →
     (ack MethodPost (Some (mkAckRequest "w2" uuid1 1)) 110
          (jobs (broker (finalState (firstn 4 leaseTwice))))).2
     = jobs (broker (finalState (firstn 4 leaseTwice)))
     ∧ (fail MethodPost (Some (mkFailRequest "w2" uuid1 1)) 110 0
             (jobs (broker (finalState (firstn 4 leaseTwice))))).2
       = jobs (broker (finalState (firstn 4 leaseTwice)))).
Proof.
  apply (fail_answers_as_ack (finalState (firstn 4 leaseTwice)) MethodPost
           "w2" uuid1 1 110 0).
  exists (firstn 4 leaseTwice), (outputs (firstn 4 leaseTwice)).
  vm_compute; reflexivity.
Defined.

(** X23. The method is checked before anything else. A request that is
    not a POST is answered with 405 by [/enqueue], [/poll], [/ack] and
    [/fail], whatever its body and its key and whatever the store holds;
    nothing is changed, no key is reserved and nobody is woken up. *)
Theorem other_methods_change_nothing (method : string) :
  method ≠ MethodPost →
  (∀ idemKey body id b,
     enqueue method idemKey body id b = (Reply StatusMethodNotAllowed, [], b))
  ∧ (∀ body now order timedOut (jobs : gmap string Job),
       poll method body now order timedOut jobs
       = (Reply StatusMethodNotAllowed, jobs))
  ∧ (∀ body now (jobs : gmap string Job),
       ack method body now jobs = (Reply StatusMethodNotAllowed, jobs))
  ∧ (∀ body now draw (jobs : gmap string Job),
       fail method body now draw jobs = (Reply StatusMethodNotAllowed, jobs))
  ∧ (∀ sys g idemKey,
       enqueuing sys !! g = None →
       step sys (EnqueueBegin g method idemKey)
       = Some (mkOutput (Some (Reply StatusMethodNotAllowed)) [], sys)).
Proof.
  intros Hm. repeat split; intros *.
  - unfold enqueue. by rewrite decide_True.
  - unfold poll. by rewrite decide_True.
  - unfold ack. by rewrite decide_True.
  - unfold fail. by rewrite decide_True.
  - intros Hg. simpl. rewrite Hg. by rewrite decide_True.
Qed.

Lemma other_methods_change_nothing_witness :
  (∀ idemKey body id b,
     enqueue MethodGet idemKey body id b
     = (Reply StatusMethodNotAllowed, [], b))
  ∧ (∀ body now order timedOut (jobs : gmap string Job),
       poll MethodGet body now order timedOut jobs
       = (Reply StatusMethodNotAllowed, jobs))
  ∧ (∀ body now (jobs : gmap string Job),
       ack MethodGet body now jobs = (Reply StatusMethodNotAllowed, jobs))
  ∧ (∀ body now draw (jobs : gmap string Job),
       fail MethodGet body now draw jobs = (Reply StatusMethodNotAllowed, jobs))
  ∧ (∀ sys g idemKey,
       enqueuing sys !! g = None →
       step sys (EnqueueBegin g MethodGet idemKey)
       = Some (mkOutput (Some (Reply StatusMethodNotAllowed)) [], sys)).
Proof. apply (other_methods_change_nothing MethodGet). discriminate. Defined.
